(** * compfipy: the indicator engine and statistics pipeline of [asset.py]

    A shallow embedding of the stateful indicators of [compfipy/asset.py]
    (Parabolic SAR, ZigZag, RSI, ADX, drawdown and drawdown episodes) and of
    the tiered statistics report [calc_stats].

    Numbers.  The source computes on IEEE doubles held in pandas series.  The
    embedding keeps the special values the code relies on (not-a-number, the
    two infinities) as constructors of [fval] and computes the finite ones
    exactly, on rationals kept in lowest terms; rounding, overflow and the
    sign of zero are not modelled.

    Series.  A pandas series is a list of values; where the time index
    matters (drawdown episodes, the monthly return table) it is carried
    next to the values.  Integer subscripts on a time-indexed series are
    positional, and an out-of-range subscript raises [IndexError]. *)

From Stdlib Require Import QArith Qminmax Qabs Lqa Lia ZArith.
From stdpp Require Import gmap strings list.

Local Open Scope Q_scope.

(** ** Floating-point values *)

Inductive fval : Type :=
| Fin (q : Q)
| PInf
| NInf
| NaN.

Definition fzero : fval := Fin 0.
Definition fone : fval := Fin 1.
Definition of_nat (n : nat) : fval := Fin (inject_Z (Z.of_nat n)).

Definition is_nan (x : fval) : bool :=
  match x with NaN => true | _ => false end.

Definition Qltb (a b : Q) : bool := negb (Qle_bool b a).

Definition fadd (x y : fval) : fval :=
  match x, y with
  | NaN, _ | _, NaN => NaN
  | PInf, NInf | NInf, PInf => NaN
  | PInf, _ | _, PInf => PInf
  | NInf, _ | _, NInf => NInf
  | Fin a, Fin b => Fin (Qred (a + b))
  end.

Definition fsub (x y : fval) : fval :=
  match x, y with
  | NaN, _ | _, NaN => NaN
  | PInf, PInf | NInf, NInf => NaN
  | PInf, _ | _, NInf => PInf
  | NInf, _ | _, PInf => NInf
  | Fin a, Fin b => Fin (Qred (a - b))
  end.

(** [inf_times s q]: an infinity of sign [s] ([true] is positive) times the
    finite [q]; zero times infinity is not a number. *)
Definition inf_times (s : bool) (q : Q) : fval :=
  if Qeq_bool q 0 then NaN
  else if Qltb 0 q then (if s then PInf else NInf)
  else (if s then NInf else PInf).

Definition fmul (x y : fval) : fval :=
  match x, y with
  | NaN, _ | _, NaN => NaN
  | PInf, PInf | NInf, NInf => PInf
  | PInf, NInf | NInf, PInf => NInf
  | PInf, Fin q | Fin q, PInf => inf_times true q
  | NInf, Fin q | Fin q, NInf => inf_times false q
  | Fin a, Fin b => Fin (Qred (a * b))
  end.

(** Division as numpy does it on doubles: a zero divisor gives an infinity of
    the sign of the dividend, and not-a-number when the dividend is zero too;
    nothing is raised. *)
Definition fdiv (x y : fval) : fval :=
  match x, y with
  | NaN, _ | _, NaN => NaN
  | Fin a, Fin b =>
      if Qeq_bool b 0 then
        (if Qeq_bool a 0 then NaN else if Qltb 0 a then PInf else NInf)
      else Fin (Qred (a / b))
  | Fin _, (PInf | NInf) => Fin 0
  | (PInf | NInf), (PInf | NInf) => NaN
  | PInf, Fin b => if Qltb b 0 then NInf else PInf
  | NInf, Fin b => if Qltb b 0 then PInf else NInf
  end.

Definition fabs (x : fval) : fval :=
  match x with
  | Fin q => Fin (Qred (Qabs q))
  | PInf | NInf => PInf
  | NaN => NaN
  end.

(** Comparisons: every comparison with not-a-number is false. *)
Definition fltb (x y : fval) : bool :=
  match x, y with
  | NaN, _ | _, NaN => false
  | Fin a, Fin b => Qltb a b
  | NInf, (Fin _ | PInf) => true
  | Fin _, PInf => true
  | _, _ => false
  end.

Definition fgtb (x y : fval) : bool := fltb y x.

Definition feqb (x y : fval) : bool :=
  match x, y with
  | Fin a, Fin b => Qeq_bool a b
  | PInf, PInf | NInf, NInf => true
  | _, _ => false
  end.

Definition fleb (x y : fval) : bool := fltb x y || feqb x y.

(** [np.max([x, y])] and [np.min([x, y])]: not-a-number wins. *)
Definition np_max (x y : fval) : fval :=
  if is_nan x || is_nan y then NaN else if fltb x y then y else x.

Definition np_min (x y : fval) : fval :=
  if is_nan x || is_nan y then NaN else if fltb y x then y else x.

(** ** Exceptions *)

Inductive exn : Type := IndexError | ValueError.

Inductive result (A : Type) : Type :=
| Ok (a : A)
| Raise (e : exn).
Arguments Ok {A} a.
Arguments Raise {A} e.

Definition is_ok {A : Type} (r : result A) : bool :=
  match r with Ok _ => true | Raise _ => false end.

#[global] Instance result_ret : MRet result := fun A a => Ok a.

#[global] Instance result_bind : MBind result := fun A B k r =>
  match r with
  | Ok a => k a
  | Raise e => Raise e
  end.

(** [l[i]] for a non-negative position. *)
Definition item {A : Type} (l : list A) (i : nat) : result A :=
  match l !! i with
  | Some a => Ok a
  | None => Raise IndexError
  end.

(** [l[-1]]. *)
Definition item_last {A : Type} (l : list A) : result A :=
  match last l with
  | Some a => Ok a
  | None => Raise IndexError
  end.

(** ** Series helpers (pandas) *)

(** [s.shift(1)]: every value moves one bar later, the first becomes
    not-a-number, the length is kept. *)
Definition shift1 (s : list fval) : list fval :=
  take (length s) (NaN :: s).

(** [s.ffill()]: a missing value takes the last value seen before it. *)
Fixpoint ffill_from (prev : fval) (s : list fval) : list fval :=
  match s with
  | [] => []
  | x :: s' =>
      let v := if is_nan x then prev else x in
      v :: ffill_from v s'
  end.

Definition ffill (s : list fval) : list fval := ffill_from NaN s.

(** [s.expanding().max()]: the largest value seen so far, missing values
    skipped. *)
Definition nan_max (m x : fval) : fval :=
  if is_nan m then x else if is_nan x then m else if fltb m x then x else m.

Fixpoint expanding_max_from (m : fval) (s : list fval) : list fval :=
  match s with
  | [] => []
  | x :: s' =>
      let m' := nan_max m x in
      m' :: expanding_max_from m' s'
  end.

Definition expanding_max (s : list fval) : list fval :=
  expanding_max_from NaN s.

(** ** Drawdown *)

Definition drawdown (close : list fval) : list fval :=
  let draw_down := ffill close in
  let draw_down := map (fun x => if is_nan x then NInf else x) draw_down in
  let highest_high := expanding_max draw_down in
  zip_with (fun d h => fsub (fdiv d h) fone) draw_down highest_high.

(** The forward-filled close as the specification words it: the last close
    present at or before the bar, none while every close so far is
    missing. *)
Fixpoint last_present (prev : option Q) (l : list fval) : option Q :=
  match l with
  | [] => prev
  | x :: l' => last_present (match x with Fin q => Some q | _ => prev end) l'
  end.

Definition filled_close (s : list fval) (i : nat) : option Q :=
  last_present None (take (S i) s).

(** ** Drawdown episodes *)

(** A time-indexed series: each value with its timestamp (in days). *)
Definition series : Type := list (Z * fval).

Definition index (s : series) : list Z := map fst s.
Definition values (s : series) : list fval := map snd s.

(** [b.shift(1)] of a boolean series as an operand of [&]: the missing first
    entry counts as false. *)
Definition shift1_bool (b : list bool) : list bool :=
  take (length b) (false :: b).

(** [list(mask[mask].index)]: the timestamps at which the mask holds. *)
Definition where_true (idx : list Z) (mask : list bool) : list Z :=
  map fst (filter (fun p => snd p = true) (zip idx mask)).

(** [s[a:b]] with timestamps: both ends are included. *)
Definition slice_labels (s : series) (a b : Z) : list fval :=
  map snd (filter (fun p => (a <= fst p)%Z /\ (fst p <= b)%Z) s).

(** [s.min()]: missing values skipped, not-a-number when nothing is left. *)
Definition nan_min (m x : fval) : fval :=
  if is_nan m then x else if is_nan x then m else if fltb x m then x else m.

Definition series_min (l : list fval) : fval := foldl nan_min NaN l.

Record episode : Type := {
  ep_start : Z;
  ep_end : Z;
  ep_days : Z;
  ep_drawdown : fval
}.

(** [pd.DataFrame] of columns given as lists: they must have one length. *)
Definition data_frame (dd : series) (start end_ : list Z) : result (list episode) :=
  if decide (length start = length end_) then
    Ok (zip_with (fun s e =>
          {| ep_start := s; ep_end := e; ep_days := (e - s)%Z;
             ep_drawdown := series_min (slice_labels dd s e) |}) start end_)
  else Raise ValueError.

Definition drawdown_info (close : series) : result (list episode) :=
  let drawdown := drawdown (values close) in
  let is_zero := map (fun d => feqb d fzero) drawdown in
  let not_zero := map negb is_zero in
  (* Find start and end time *)
  let start := where_true (index close) (zip_with andb not_zero (shift1_bool is_zero)) in
  let end_ := where_true (index close) (zip_with andb is_zero (shift1_bool not_zero)) in
  (* Handle no ending *)
  end_ ← (if decide (length end_ = 0%nat)
          then t ← item_last (index close); mret (end_ ++ [t])
          else mret end_);
  (* Handle starting in drawdown *)
  s0 ← item start 0;
  e0 ← item end_ 0;
  start ← (if (e0 <? s0)%Z
           then t ← item (index close) 0; mret (t :: start)
           else mret start);
  (* Handle finishing with drawdown *)
  sl ← item_last start;
  el ← item_last end_;
  end_ ← (if (el <? sl)%Z
          then t ← item_last (index close); mret (end_ ++ [t])
          else mret end_);
  data_frame (zip (index close) drawdown) start end_.

(** ** Parabolic SAR *)

(** [for i in range: st = body st i], stopping at the first exception. *)
Fixpoint for_each {S : Type} (body : S -> nat -> result S) (range : list nat) (st : S)
  : result S :=
  match range with
  | [] => Ok st
  | i :: range' => st' ← body st i; for_each body range' st'
  end.

(** [pd.TimeSeries(np.zeros(n))]. *)
Definition zeros (n : nat) : list fval := replicate n fzero.

(** The tunables of [parabolic_sar]; the defaults are 0.02 and 0.2. *)
Record sar_params : Type := {
  step_r : Q;
  step_f : Q;
  max_af_r : Q;
  max_af_f : Q
}.

Definition sar_defaults : sar_params :=
  {| step_r := 2 # 100; step_f := 2 # 100; max_af_r := 2 # 10; max_af_f := 2 # 10 |}.

(** The local variables of [parabolic_sar] that the loop updates. *)
Record sar_state : Type := {
  ep : fval;
  af : fval;
  sar : fval;
  up : bool;
  r_sar : list fval;
  f_sar : list fval
}.

(** One iteration of the loop of [parabolic_sar]. *)
Definition sar_body (p : sar_params) (high low : list fval) (st : sar_state) (i : nat)
  : result sar_state :=
  hi ← item high i;
  lo ← item low i;
  let st :=
    if up st then
      (* Rising SAR *)
      let ep' := np_max (ep st) hi in
      let af' := np_min (if feqb ep' hi then fadd (af st) (Fin (step_r p)) else af st)
                        (Fin (max_af_r p)) in
      let sar' := fadd (sar st) (fmul af' (fsub ep' (sar st))) in
      {| ep := ep'; af := af'; sar := sar'; up := up st;
         r_sar := <[i := sar']> (r_sar st); f_sar := f_sar st |}
    else
      (* Falling SAR *)
      let ep' := np_min (ep st) lo in
      let af' := np_min (if feqb ep' lo then fadd (af st) (Fin (step_f p)) else af st)
                        (Fin (max_af_f p)) in
      let sar' := fadd (sar st) (fmul af' (fsub ep' (sar st))) in
      {| ep := ep'; af := af'; sar := sar'; up := up st;
         r_sar := r_sar st; f_sar := <[i := sar']> (f_sar st) |} in
  (* Trend switch *)
  if up st && (fgtb (sar st) lo || fgtb (sar st) hi) then
    mret {| ep := ep st; af := Fin (step_f p); sar := ep st; up := false;
            r_sar := r_sar st; f_sar := f_sar st |}
  else if negb (up st) && (fltb (sar st) lo || fltb (sar st) hi) then
    mret {| ep := ep st; af := Fin (step_r p); sar := ep st; up := true;
            r_sar := r_sar st; f_sar := f_sar st |}
  else mret st.

Definition sar_start (p : sar_params) (high low : list fval) : result sar_state :=
  ep0 ← item high 0;
  sar0 ← item low 0;
  mret {| ep := ep0; af := Fin (step_r p); sar := sar0; up := true;
          r_sar := zeros (length high); f_sar := zeros (length high) |}.

(** The state of the loop when it reaches bar [i], that is after the
    iterations [1 .. i-1]. *)
Definition sar_before (p : sar_params) (high low : list fval) (i : nat)
  : result sar_state :=
  st ← sar_start p high low;
  for_each (sar_body p high low) (seq 1 (i - 1)) st.

(** [parabolic_sar]: the columns ['rising'] and ['falling'] of the frame. *)
Definition parabolic_sar (p : sar_params) (high low : list fval)
  : result (list fval * list fval) :=
  st ← sar_before p high low (length high);
  mret (r_sar st, f_sar st).

(** *** The loop on its four scalars

    What one iteration does to [up], [ep], [af] and [sar], the two arrays
    left aside: the pair it yields is what the iteration leaves at the bar's
    position of the rising and of the falling column. *)

Record trend : Type := {
  rising : bool;
  extreme : fval;
  accel : fval;
  stop : fval
}.

Definition trend_init (p : sar_params) (high0 low0 : fval) : trend :=
  {| rising := true; extreme := high0; accel := Fin (step_r p); stop := low0 |}.

(** [accelerate reached a step cap]: the factor grows by [step] when
    [reached] holds, and never passes [cap]. *)
Definition accelerate (reached : bool) (a : fval) (step cap : Q) : fval :=
  np_min (if reached then fadd a (Fin step) else a) (Fin cap).

Definition trend_step (p : sar_params) (t : trend) (bar : fval * fval)
  : trend * (fval * fval) :=
  let (hi, lo) := bar in
  if rising t then
    let e := np_max (extreme t) hi in
    let a := accelerate (feqb e hi) (accel t) (step_r p) (max_af_r p) in
    let s := fadd (stop t) (fmul a (fsub e (stop t))) in
    if fgtb s lo || fgtb s hi
    then ({| rising := false; extreme := e; accel := Fin (step_f p); stop := e |}, (s, fzero))
    else ({| rising := true; extreme := e; accel := a; stop := s |}, (s, fzero))
  else
    let e := np_min (extreme t) lo in
    let a := accelerate (feqb e lo) (accel t) (step_f p) (max_af_f p) in
    let s := fadd (stop t) (fmul a (fsub e (stop t))) in
    if fltb s lo || fltb s hi
    then ({| rising := true; extreme := e; accel := Fin (step_r p); stop := e |}, (fzero, s))
    else ({| rising := false; extreme := e; accel := a; stop := s |}, (fzero, s)).

Fixpoint trend_fold (p : sar_params) (t : trend) (bars : list (fval * fval))
  : list (fval * fval) :=
  match bars with
  | [] => []
  | bar :: bars' =>
      let (t', out) := trend_step p t bar in
      out :: trend_fold p t' bars'
  end.

Definition sar_by_fold (p : sar_params) (bars : list (fval * fval))
  : result (list fval * list fval) :=
  match bars with
  | [] => Raise IndexError
  | (high0, low0) :: bars' =>
      let out := (fzero, fzero) :: trend_fold p (trend_init p high0 low0) bars' in
      Ok (map fst out, map snd out)
  end.

(** *** Parabolic SAR as the specification words it

    A fold, from left to right, of a transition on the four-field state,
    started from EP = first high, AF = [step_r], SAR = first low, rising.
    While rising, EP becomes the larger of EP and the bar's high, AF grows
    by the step up to its cap, SAR moves by AF times its distance to EP, and
    the trend flips when SAR exceeds the bar's low or high, SAR restarting
    at EP and AF at the step of the falling trend; symmetrically while
    falling.  When AF grows is worded in two ways:
    - [OnlyWhenMoved], the words of the specification: only when the bar
      moved EP, that is when the bar's high is above (its low below) the EP
      so far;
    - [WhenReached], the amended words: whenever the bar reaches EP, moving
      it or only tying it. *)
Inductive af_rule : Type := OnlyWhenMoved | WhenReached.

Definition grows (rule : af_rule) (beyond tie : bool) : bool :=
  match rule with
  | OnlyWhenMoved => beyond
  | WhenReached => beyond || tie
  end.

Definition fold_step (rule : af_rule) (p : sar_params) (t : trend) (bar : fval * fval)
  : trend * (fval * fval) :=
  let (hi, lo) := bar in
  if rising t then
    let e := np_max (extreme t) hi in
    let a := accelerate (grows rule (fltb (extreme t) hi) (feqb (extreme t) hi))
                        (accel t) (step_r p) (max_af_r p) in
    let s := fadd (stop t) (fmul a (fsub e (stop t))) in
    if fgtb s lo || fgtb s hi
    then ({| rising := false; extreme := e; accel := Fin (step_f p); stop := e |}, (s, fzero))
    else ({| rising := true; extreme := e; accel := a; stop := s |}, (s, fzero))
  else
    let e := np_min (extreme t) lo in
    let a := accelerate (grows rule (fltb lo (extreme t)) (feqb lo (extreme t)))
                        (accel t) (step_f p) (max_af_f p) in
    let s := fadd (stop t) (fmul a (fsub e (stop t))) in
    if fltb s lo || fltb s hi
    then ({| rising := true; extreme := e; accel := Fin (step_r p); stop := e |}, (fzero, s))
    else ({| rising := false; extreme := e; accel := a; stop := s |}, (fzero, s)).

Fixpoint sar_fold (rule : af_rule) (p : sar_params) (t : trend) (bars : list (fval * fval))
  : list (fval * fval) :=
  match bars with
  | [] => []
  | bar :: bars' =>
      let (t', out) := fold_step rule p t bar in
      out :: sar_fold rule p t' bars'
  end.

Definition sar_by_rule (rule : af_rule) (p : sar_params) (bars : list (fval * fval))
  : result (list fval * list fval) :=
  match bars with
  | [] => Raise IndexError
  | (high0, low0) :: bars' =>
      let out := (fzero, fzero) :: sar_fold rule p (trend_init p high0 low0) bars' in
      Ok (map fst out, map snd out)
  end.

(** No bar of the run ties the extreme point: at every bar after the first
    the bar's high (low, in a falling trend) differs from the EP so far. *)
Fixpoint no_tie_from (p : sar_params) (t : trend) (bars : list (fval * fval)) : Prop :=
  match bars with
  | [] => True
  | bar :: bars' =>
      feqb (extreme t) (if rising t then fst bar else snd bar) = false /\
      no_tie_from p (fst (fold_step WhenReached p t bar)) bars'
  end.

Definition no_tie (p : sar_params) (bars : list (fval * fval)) : Prop :=
  match bars with
  | [] => True
  | (high0, low0) :: bars' => no_tie_from p (trend_init p high0 low0) bars'
  end.

(** ** ZigZag *)

(** [pd.Series.interpolate] with its defaults (linear, forward): a run of
    missing values between two present ones is filled on the straight line
    between them, the bars being equally spaced; missing values after the
    last present one repeat it; missing values before the first stay. *)
Definition ramp (a b : fval) (gap : nat) : list fval :=
  map (fun j => fadd a (fdiv (fmul (fsub b a) (of_nat j)) (of_nat (S gap))))
      (seq 1 gap).

Definition fill_gap (prev : option fval) (x : fval) (gap : nat) : list fval :=
  match prev with
  | Some a => ramp a x gap
  | None => replicate gap NaN
  end.

Fixpoint interpolate_from (prev : option fval) (gap : nat) (s : list fval) : list fval :=
  match s with
  | [] => replicate gap (default NaN prev)
  | x :: s' =>
      if is_nan x then interpolate_from prev (S gap) s'
      else fill_gap prev x gap ++ x :: interpolate_from (Some x) 0 s'
  end.

Definition interpolate (s : list fval) : list fval := interpolate_from None 0 s.

Record zigzag_state : Type := {
  lastzig : fval;
  zigzag_col : list fval
}.

(** The test of the loop: [np.abs((lastzig - x[i]) / x[i]) > percent / 100.0]. *)
Definition is_pivot (percent : Q) (lastzig xi : fval) : bool :=
  fgtb (fabs (fdiv (fsub lastzig xi) xi)) (fdiv (Fin percent) (Fin 100)).

Definition zigzag_body (percent : Q) (x : list fval) (st : zigzag_state) (i : nat)
  : result zigzag_state :=
  xi ← item x i;
  if is_pivot percent (lastzig st) xi then
    mret {| lastzig := xi; zigzag_col := <[i := xi]> (zigzag_col st) |}
  else
    mret {| lastzig := lastzig st; zigzag_col := <[i := NaN]> (zigzag_col st) |}.

(** The series [zigzag] of the source before it is interpolated: the close
    at a pivot, not-a-number elsewhere. *)
Definition zigzag_marks (percent : Q) (x : list fval) : result (list fval) :=
  x0 ← item x 0;
  let st := {| lastzig := x0; zigzag_col := <[0%nat := x0]> (zeros (length x)) |} in
  st ← for_each (zigzag_body percent x) (seq 1 (length x - 1)) st;
  mret (zigzag_col st).

Definition zigzag (percent : Q) (x : list fval) : result (list fval) :=
  marks ← zigzag_marks percent x;
  mret (interpolate marks).

(** ** Relative Strength Index *)

(** [s.sum()]: missing values skipped. *)
Definition nansum (s : list fval) : fval :=
  foldl (fun acc x => if is_nan x then acc else fadd acc x) fzero s.

(** [s[i] = v] at a position: out of range raises. *)
Definition set_item (s : list fval) (i : nat) (v : fval) : result (list fval) :=
  if decide (i < length s)%nat then Ok (<[i := v]> s) else Raise IndexError.

(** An integer of the source as a value: [n] and [n-1]. *)
Definition of_Z (z : Z) : fval := Fin (inject_Z z).

Definition price_change (close : list fval) : list fval :=
  zip_with fsub close (shift1 close).

(** [gain[gain < 0] = 0.0]. *)
Definition gains (close : list fval) : list fval :=
  map (fun c => if fltb c fzero then fzero else c) (price_change close).

(** [loss[loss > 0] = 0.0; loss = -1.0 * loss]. *)
Definition losses (close : list fval) : list fval :=
  map (fun c => fmul (Fin (-1)) (if fgtb c fzero then fzero else c))
      (price_change close).

(** [(n-1) * (prev / n) + (value / n)]. *)
Definition smooth (n : nat) (prev value : fval) : fval :=
  fadd (fmul (of_Z (Z.of_nat n - 1)) (fdiv prev (of_nat n))) (fdiv value (of_nat n)).

Definition rsi_body (n : nat) (gain loss : list fval)
    (st : list fval * list fval) (i : nat) : result (list fval * list fval) :=
  let (avg_gain, avg_loss) := st in
  ag ← item avg_gain (i - 1);
  g ← item gain i;
  avg_gain ← set_item avg_gain i (smooth n ag g);
  al ← item avg_loss (i - 1);
  l ← item loss i;
  avg_loss ← set_item avg_loss i (smooth n al l);
  mret (avg_gain, avg_loss).

(** The series [avg_gain] and [avg_loss] of [relative_strength_index]. *)
Definition rsi_averages (n : nat) (close : list fval)
  : result (list fval * list fval) :=
  let gain := gains close in
  let loss := losses close in
  let avg_gain := zeros (length gain) in
  let avg_loss := zeros (length loss) in
  avg_gain ← set_item avg_gain n (fdiv (nansum (take n gain)) (of_nat n));
  avg_loss ← set_item avg_loss n (fdiv (nansum (take n loss)) (of_nat n));
  for_each (rsi_body n gain loss) (seq (n + 1) (length gain - (n + 1)))
           (avg_gain, avg_loss).

(** [100.0 - (100.0 / (1.0 + rs))]. *)
Definition rsi_of (rs : fval) : fval :=
  fsub (Fin 100) (fdiv (Fin 100) (fadd (Fin 1) rs)).

Definition relative_strength_index (n : nat) (close : list fval)
  : result (list fval) :=
  avgs ← rsi_averages n close;
  let rs := zip_with fdiv (fst avgs) (snd avgs) in
  mret (map rsi_of rs).

(** ** Average Directional Index *)

(** [true_range]: [high - low.shift(1)]. *)
Definition true_range (high low : list fval) : list fval :=
  zip_with fsub high (shift1 low).

(** [col[mask] = source] on a column of zeros: the source where the mask
    holds, zero elsewhere. *)
Definition zeros_where (mask : list bool) (source : list fval) : list fval :=
  zip_with (fun (m : bool) v => if m then v else fzero) mask source.

(** [(n-1) * s.shift(1) + s) / n]. *)
Definition weigh_with_previous (n : nat) (s : list fval) : list fval :=
  zip_with (fun prev cur => fdiv (fadd (fmul (of_Z (Z.of_nat n - 1)) prev) cur) (of_nat n))
           (shift1 s) s.

Section ADX.

(** [compfipy.util.ema], which is not part of [asset.py]: the smoothing all
    three streams go through. *)
Variable ema : list fval -> nat -> list fval.

(** The series [dx] of [average_directional_index]. *)
Definition directional_index (n : nat) (high low : list fval) : list fval :=
  let tr := true_range high low in
  let up_move := zip_with fsub high (shift1 high) in
  let down_move := zip_with fsub (shift1 low) low in
  let pdm := zeros_where (zip_with fgtb up_move down_move) up_move in
  let ndm := zeros_where (zip_with fgtb down_move up_move) down_move in
  let trn := ema tr n in
  let pdmn := ema pdm n in
  let ndmn := ema ndm n in
  let pdin := zip_with fdiv pdmn trn in
  let ndin := zip_with fdiv ndmn trn in
  map fabs (zip_with fdiv (zip_with fsub pdin ndin) (zip_with fadd pdin ndin)).

Definition average_directional_index (n : nat) (high low : list fval) : list fval :=
  weigh_with_previous n (directional_index n high low).

End ADX.

(** Modelled from the spec: [compfipy.util.ema] is missing from the sources;
    the specification calls it an exponential smoothing with factor [n].
    It is taken here as the recursive filter of centre of mass [n]: bars
    before the first present value stay missing, the first present value
    starts the average, and each later value moves the average by
    [1 / (1 + n)] of its distance (a missing value leaves it where it is). *)
Fixpoint ema_from (n : nat) (prev : fval) (s : list fval) : list fval :=
  match s with
  | [] => []
  | x :: s' =>
      let y := if is_nan x then prev
               else if is_nan prev then x
               else fadd prev (fdiv (fsub x prev) (of_nat (1 + n))) in
      y :: ema_from n y s'
  end.

Definition ema_model (s : list fval) (n : nat) : list fval := ema_from n NaN s.

(** ** Summary statistics *)

Local Open Scope string_scope.

(** The values a report holds under its keys. *)
Inductive stat : Type :=
| SName (name : string)
| STime (t : Z)
| SNum (x : fval)
| SSeries (s : series)
| STable (table : gmap Z (gmap nat fval)).

Inductive freq : Type := Monthly | Annual.
Inductive offset : Type := Months (k : nat) | Years (k : nat).

(** What [calc_stats] asks of pandas, numpy and the calendar. *)
Record pandas : Type := {
  resample_last : freq -> series -> series;
  year : Z -> Z;
  month : Z -> nat;
  minus_offset : Z -> offset -> Z;
  mean : list fval -> fval;
  std : list fval -> fval;
  skew : list fval -> fval;
  kurt : list fval -> fval;
  np_sqrt : fval -> fval;
  np_power : fval -> fval -> fval;
  ix_idxmax : series -> series;
  ix_idxmin : series -> series;
  pct_change : nat -> series -> series
}.

(** What [calc_stats] imports from [compfipy.util], which is not part of
    [asset.py]. *)
Record util : Type := {
  calc_returns : series -> series;
  calc_cagr : series -> fval;
  MONTHS_IN_YEAR : fval;
  DAYS_IN_TRADING_YEAR : fval
}.

Record asset : Type := {
  symbol : string;
  close : series;
  market_cap : fval
}.

(** [l[-k]] for [k >= 1]. *)
Definition item_back {A : Type} (l : list A) (k : nat) : result A :=
  if decide (k <= length l)%nat then item l (length l - k) else Raise IndexError.

(** [s[:t]] and [s[t:]] with a timestamp. *)
Definition until (s : series) (t : Z) : series := filter (fun p => (fst p <= t)%Z) s.
Definition since (s : series) (t : Z) : series := filter (fun p => (t <= fst p)%Z) s.

(** [a / b - 1]. *)
Definition growth (a b : fval) : fval := fsub (fdiv a b) fone.

(** [len(r[(~np.isnan(r)) & (r != 0)])]. *)
Definition count_nonzero (r : series) : nat :=
  length (filter (fun p => negb (is_nan (snd p)) && negb (feqb (snd p) fzero) = true) r).

Definition positive_part (r : series) : series :=
  filter (fun p => fgtb (snd p) fzero = true) r.

Definition nonpositive_part (r : series) : series :=
  filter (fun p => fleb (snd p) fzero = true) r.

Definition metric_fields : list string :=
  [ "daily_mean"; "daily_vol"; "daily_sharpe"; "best_day"; "worst_day";
    "total_return"; "cagr"; "incep"; "max_drawdown"; "avg_drawdown";
    "avg_drawdown_days"; "daily_skew"; "daily_kurt"; "monthly_mean";
    "monthly_vol"; "monthly_sharpe"; "best_month"; "worst_month"; "mtd";
    "pos_month_perc"; "avg_up_month"; "avg_down_month"; "three_month";
    "monthly_skew"; "monthly_kurt"; "six_month"; "ytd"; "one_year";
    "yearly_mean"; "yearly_vol"; "yearly_sharpe"; "best_year"; "worst_year";
    "three_year"; "win_year_perc"; "twelve_month_win_perc"; "yearly_skew";
    "yearly_kurt"; "five_year"; "ten_year" ].

(** The dictionary [self.stats] is first set to. *)
Definition initial_stats (self : asset) (start end_ : Z) (risk_free : fval)
  : gmap string stat :=
  list_to_map
    ([ ("name", SName (symbol self)); ("start", STime start); ("end", STime end_);
       ("market_cap", SNum (market_cap self));
       ("yearly_risk_free_return", SNum risk_free) ]
     ++ map (fun k => (k, SNum NaN)) metric_fields
     ++ [ ("return_table", STable ∅) ]).

(** [table[y][m] = v] on a [defaultdict(dict)]. *)
Definition table_set (table : gmap Z (gmap nat fval)) (y : Z) (m : nat) (v : fval)
  : gmap Z (gmap nat fval) :=
  <[y := <[m := v]> (default ∅ (table !! y))]> table.

(** [np.prod(np.array(months.values()) + 1) - 1.0]. *)
Definition compound (returns : list fval) : fval :=
  fsub (foldl fmul fone (map (fun v => fadd v fone) returns)) fone.

Definition year_to_date (months : gmap nat fval) : gmap nat fval :=
  <[13%nat := compound (map snd (map_to_list months))]> months.

(** The year-to-date slot as the specification words it: the compounded
    product of (1 + return) over the returns, minus one. *)
Definition growth_product (returns : list Q) : Q :=
  fold_right (fun r acc => (1 + r) * acc) 1 returns.

Definition compounded (returns : list Q) : Q := growth_product returns - 1.

Section Stats.

Variable L : pandas.
Variable U : util.

(** The table for lookback periods.  The first month is overwritten with
    [float(monthly_price[0]) / daily_price[0] - 1]; the divisor is a numpy
    double, so a zero divisor yields an infinity or not-a-number and the
    [except ZeroDivisionError] branch is never taken. *)
Definition return_table (daily_price monthly_price mr : series)
  : result (gmap Z (gmap nat fval)) :=
  let table :=
    foldl (fun table mi => table_set table (year L (fst mi)) (month L (fst mi)) (snd mi))
          ∅ mr in
  fidx ← item (index mr) 0;
  m0 ← item (values monthly_price) 0;
  d0 ← item (values daily_price) 0;
  let table := table_set table (year L fidx) (month L fidx) (growth m0 d0) in
  (* Calculate YTD *)
  mret (year_to_date <$> table).

(** Stats with daily prices. *)
Definition daily_stats (daily_rf : fval) (daily_price r : series)
    (stats : gmap string stat) : result (gmap string stat) :=
  let daily_mean := fmul (DAYS_IN_TRADING_YEAR U) (mean L (values r)) in
  let daily_vol := fmul (np_sqrt L (DAYS_IN_TRADING_YEAR U)) (std L (values r)) in
  let stats := <["daily_mean" := SNum daily_mean]> stats in
  let stats := <["daily_vol" := SNum daily_vol]> stats in
  let stats := <["daily_sharpe" := SNum (fdiv (fsub daily_mean daily_rf) daily_vol)]> stats in
  let stats := <["best_day" := SSeries (ix_idxmax L r)]> stats in
  let stats := <["worst_day" := SSeries (ix_idxmin L r)]> stats in
  last ← item_back (values daily_price) 1;
  first ← item (values daily_price) 0;
  let stats := <["total_return" := SNum (growth last first)]> stats in
  let stats := <["ytd" := SNum (growth last first)]> stats in
  let stats := <["cagr" := SNum (calc_cagr U daily_price)]> stats in
  let stats := <["incep" := SNum (calc_cagr U daily_price)]> stats in
  info ← drawdown_info daily_price;
  let stats := <["max_drawdown" := SNum (series_min (map ep_drawdown info))]> stats in
  let stats := <["avg_drawdown" := SNum (mean L (map ep_drawdown info))]> stats in
  let stats := <["avg_drawdown_days" := SNum (mean L (map (fun e => of_Z (ep_days e)) info))]> stats in
  let stats := <["daily_skew" := SNum (skew L (values r))]> stats in
  mret (<["daily_kurt" := SNum (if decide (0 < count_nonzero r)%nat
                                 then kurt L (values r) else NaN)]> stats).

(** Stats with monthly prices, up to the return table. *)
Definition monthly_stats (monthly_rf : fval) (daily_price monthly_price mr : series)
    (stats : gmap string stat) : result (gmap string stat) :=
  let monthly_mean := fmul (MONTHS_IN_YEAR U) (mean L (values mr)) in
  let monthly_vol := fmul (np_sqrt L (MONTHS_IN_YEAR U)) (std L (values mr)) in
  let stats := <["monthly_mean" := SNum monthly_mean]> stats in
  let stats := <["monthly_vol" := SNum monthly_vol]> stats in
  let stats := <["monthly_sharpe" := SNum (fdiv (fsub monthly_mean monthly_rf) monthly_vol)]> stats in
  let stats := <["best_month" := SSeries (ix_idxmax L mr)]> stats in
  let stats := <["worst_month" := SSeries (ix_idxmin L mr)]> stats in
  last ← item_back (values daily_price) 1;
  prev_month ← item_back (values monthly_price) 2;
  let stats := <["mtd" := SNum (growth last prev_month)]> stats in
  let stats := <["pos_month_perc" :=
                   SNum (fdiv (of_nat (length (positive_part mr)))
                              (fsub (of_nat (length mr)) fone))]> stats in
  let stats := <["avg_up_month" := SNum (mean L (values (positive_part mr)))]> stats in
  let stats := <["avg_down_month" := SNum (mean L (values (nonpositive_part mr)))]> stats in
  table ← return_table daily_price monthly_price mr;
  mret (<["return_table" := STable table]> stats).

(** [(daily_price[-1] / denominator[-1]) - 1 if len(denominator) > 0 else nan]
    for the prices up to the offset before the last day. *)
Definition lookback (daily_price : series) (back : offset) : result fval :=
  end_ ← item_back (index daily_price) 1;
  let denominator := until daily_price (minus_offset L end_ back) in
  if decide (0 < length denominator)%nat then
    last ← item_back (values daily_price) 1;
    d ← item_back (values denominator) 1;
    mret (growth last d)
  else mret NaN.

(** [calc_cagr(daily_price[daily_price.index[-1] - pd.DateOffset(years=k):])]. *)
Definition trailing_cagr (daily_price : series) (k : nat) : result fval :=
  end_ ← item_back (index daily_price) 1;
  mret (calc_cagr U (since daily_price (minus_offset L end_ (Years k)))).

(** Stats with yearly prices. *)
Definition yearly_stats (risk_free : fval) (daily_price monthly_price yearly_price yr : series)
    (stats : gmap string stat) : result (gmap string stat) :=
  last ← item_back (values daily_price) 1;
  prev_year ← item_back (values yearly_price) 2;
  let stats := <["ytd" := SNum (growth last prev_year)]> stats in
  one_year ← lookback daily_price (Years 1);
  let stats := <["one_year" := SNum one_year]> stats in
  let yearly_mean := mean L (values yr) in
  let yearly_vol := std L (values yr) in
  let stats := <["yearly_mean" := SNum yearly_mean]> stats in
  let stats := <["yearly_vol" := SNum yearly_vol]> stats in
  let stats := <["yearly_sharpe" := SNum (fdiv (fsub yearly_mean risk_free) yearly_vol)]> stats in
  let stats := <["best_year" := SSeries (ix_idxmax L yr)]> stats in
  let stats := <["worst_year" := SSeries (ix_idxmin L yr)]> stats in
  (* Annualize stat for over 1 year *)
  three_year ← trailing_cagr daily_price 3;
  let stats := <["three_year" := SNum three_year]> stats in
  let stats := <["win_year_perc" :=
                   SNum (fdiv (of_nat (length (positive_part yr)))
                              (fsub (of_nat (length yr)) fone))]> stats in
  mret (<["twelve_month_win_perc" :=
            SNum (fdiv (of_nat (length (positive_part (pct_change L 11 monthly_price))))
                       (fsub (of_nat (length monthly_price))
                             (fsub (MONTHS_IN_YEAR U) fone)))]> stats).

Definition calc_stats (self : asset) (yearly_risk_free_return : fval)
  : result (gmap string stat) :=
  let monthly_risk_free_return :=
    fmul (fsub (np_power L (fadd fone yearly_risk_free_return)
                         (fdiv fone (MONTHS_IN_YEAR U))) fone)
         (MONTHS_IN_YEAR U) in
  let daily_risk_free_return :=
    fmul (fsub (np_power L (fadd fone yearly_risk_free_return)
                         (fdiv fone (DAYS_IN_TRADING_YEAR U))) fone)
         (DAYS_IN_TRADING_YEAR U) in
  (* Sample prices *)
  let daily_price := close self in
  let monthly_price := resample_last L Monthly daily_price in
  let yearly_price := resample_last L Annual daily_price in
  start ← item (index daily_price) 0;
  end_ ← item_back (index daily_price) 1;
  let stats := initial_stats self start end_ yearly_risk_free_return in
  if decide (length daily_price = 1%nat) then mret stats else
  (* Stats with daily prices *)
  let r := calc_returns U daily_price in
  if decide (length r < 4)%nat then mret stats else
  stats ← daily_stats daily_risk_free_return daily_price r stats;
  (* Stats with monthly prices *)
  let mr := calc_returns U monthly_price in
  if decide (length mr < 2)%nat then mret stats else
  stats ← monthly_stats monthly_risk_free_return daily_price monthly_price mr stats;
  if decide (length mr < 3)%nat then mret stats else
  three_month ← lookback daily_price (Months 3);
  let stats := <["three_month" := SNum three_month]> stats in
  if decide (length mr < 4)%nat then mret stats else
  let stats := <["monthly_skew" := SNum (skew L (values mr))]> stats in
  let stats := <["monthly_kurt" := SNum (if decide (0 < count_nonzero mr)%nat
                                          then kurt L (values mr) else NaN)]> stats in
  six_month ← lookback daily_price (Months 6);
  let stats := <["six_month" := SNum six_month]> stats in
  (* Stats with yearly prices *)
  let yr := calc_returns U yearly_price in
  if decide (length yr < 2)%nat then mret stats else
  stats ← yearly_stats yearly_risk_free_return daily_price monthly_price yearly_price yr stats;
  if decide (length yr < 4)%nat then mret stats else
  let stats := <["yearly_skew" := SNum (skew L (values yr))]> stats in
  let stats := <["yearly_kurt" := SNum (if decide (0 < count_nonzero yr)%nat
                                         then kurt L (values yr) else NaN)]> stats in
  five_year ← trailing_cagr daily_price 5;
  let stats := <["five_year" := SNum five_year]> stats in
  ten_year ← trailing_cagr daily_price 10;
  mret (<["ten_year" := SNum ten_year]> stats).

End Stats.

Local Close Scope string_scope.

(** ** A small instance of the interfaces, to run [calc_stats] on examples

    Timestamps count days on a calendar of twelve 30-day months.  Means are
    computed; the statistics that need roots or fractional powers are left
    undefined. *)

Definition toy_year (t : Z) : Z := (t / 360)%Z.
Definition toy_month (t : Z) : nat := Z.to_nat ((t mod 360) / 30 + 1)%Z.

(** The bars of the period of the days [lo .. hi]. *)
Definition bars_within (lo hi : Z) (s : series) : series :=
  filter (fun p => (lo <= fst p)%Z /\ (fst p <= hi)%Z) s.

(** [last()] of a bin: its last value that is present, not-a-number for a
    bin without one. *)
Definition last_value (s : series) : fval :=
  default NaN (last (filter (fun x => is_nan x = false) (values s))).

(** [s.resample(f).last()]: one row for every period from the period of
    the first bar to the period of the last bar, a period without a bar
    included (its value is not-a-number); each row is labelled with the last
    day of its period. *)
Definition toy_resample (f : freq) (s : series) : series :=
  let len := match f with Monthly => 30%Z | Annual => 360%Z end in
  match s, last s with
  | (t0, _) :: _, Some (t1, _) =>
      map (fun j =>
             let k := (t0 / len + Z.of_nat j)%Z in
             ((len * k + len - 1)%Z,
              last_value (bars_within (len * k) (len * k + len - 1) s)))
          (seq 0 (Z.to_nat (t1 / len - t0 / len + 1)))
  | _, _ => []
  end.

Definition toy_minus (t : Z) (back : offset) : Z :=
  match back with
  | Months k => (t - 30 * Z.of_nat k)%Z
  | Years k => (t - 360 * Z.of_nat k)%Z
  end.

Definition toy_mean (l : list fval) : fval :=
  fdiv (nansum l) (of_nat (length (filter (fun x => is_nan x = false) l))).

Definition toy_extreme (better : fval -> fval -> bool) (s : series) : series :=
  match s with
  | [] => []
  | p :: s' =>
      [foldl (fun best q => if is_nan (snd best) || better (snd q) (snd best) then q else best)
             p s']
  end.

(** [x / x.shift(k) - 1]. *)
Definition toy_pct_change (k : nat) (s : series) : series :=
  zip (index s)
      (zip_with growth (values s) (take (length s) (replicate k NaN ++ values s))).

Definition toy_pandas : pandas :=
  {| resample_last := toy_resample;
     year := toy_year;
     month := toy_month;
     minus_offset := toy_minus;
     mean := toy_mean;
     std := fun _ => NaN;
     skew := fun _ => NaN;
     kurt := fun _ => NaN;
     np_sqrt := fun _ => NaN;
     np_power := fun _ _ => NaN;
     ix_idxmax := toy_extreme fgtb;
     ix_idxmin := toy_extreme fltb;
     pct_change := toy_pct_change |}.

(** Simple returns, one per price, the first undefined. *)
Definition simple_returns (s : series) : series := toy_pct_change 1 s.

Definition toy_util : util :=
  {| calc_returns := simple_returns;
     calc_cagr := fun _ => NaN;
     MONTHS_IN_YEAR := Fin 12;
     DAYS_IN_TRADING_YEAR := Fin 252 |}.

Definition toy_asset (closes : series) : asset :=
  {| symbol := "TOY"; close := closes; market_cap := fone |}.

(** ** Facts on values *)

Lemma Qltb_lt (a b : Q) : Qltb a b = true <-> a < b.
Proof.
  unfold Qltb. rewrite negb_true_iff. split.
  - intros H. apply Qnot_le_lt. intros Hle.
    apply Qle_bool_iff in Hle. congruence.
  - intros H. destruct (Qle_bool b a) eqn:E; [|reflexivity].
    apply Qle_bool_iff in E. apply Qlt_not_le in H. contradiction.
Qed.

Lemma Qltb_ge (a b : Q) : Qltb a b = false <-> b <= a.
Proof.
  unfold Qltb. rewrite negb_false_iff. apply Qle_bool_iff.
Qed.

Lemma Qeq_bool_false (a b : Q) : ~ a == b -> Qeq_bool a b = false.
Proof.
  intros H. destruct (Qeq_bool a b) eqn:E; [|reflexivity].
  apply Qeq_bool_iff in E. contradiction.
Qed.

Lemma fdiv_finite (a b : Q) : ~ b == 0 -> fdiv (Fin a) (Fin b) = Fin (Qred (a / b)).
Proof. intros H. unfold fdiv. now rewrite (Qeq_bool_false b 0 H). Qed.

Lemma Qred_zero (a : Q) : a == 0 -> Qred a = 0.
Proof. intros H. apply (Qred_complete a 0) in H. exact H. Qed.

Lemma Qred_eq (a b : Q) : a == b -> Fin (Qred a) = Fin (Qred b).
Proof. intros H. f_equal. apply Qred_complete, H. Qed.

(** ** Drawdown is never positive and vanishes at every running high *)

Definition positive_closes (qs : list Q) : Prop := Forall (fun q => 0 < q) qs.

Lemma ffill_finite (prev : fval) (qs : list Q) :
  ffill_from prev (map Fin qs) = map Fin qs.
Proof.
  revert prev. induction qs as [|q qs IH]; intros prev; simpl; [reflexivity|].
  f_equal. apply IH.
Qed.

Lemma nan_to_neginf_finite (qs : list Q) :
  map (fun x => if is_nan x then NInf else x) (map Fin qs) = map Fin qs.
Proof. induction qs as [|q qs IH]; simpl; [reflexivity|]. f_equal. exact IH. Qed.

(** The running maximum from a start value [m] that is either absent or a
    positive number: at bar [i] it is a positive number at least the close,
    and it is the start value or one of the closes so far. *)
Lemma expanding_max_from_spec (m : fval) (qs : list Q) (i : nat) (q : Q) :
  (m = NaN \/ exists mq, m = Fin mq /\ 0 < mq) ->
  positive_closes qs ->
  qs !! i = Some q ->
  exists h, expanding_max_from m (map Fin qs) !! i = Some (Fin h)
    /\ q <= h /\ 0 < h
    /\ (m = Fin h \/ exists j p, (j <= i)%nat /\ qs !! j = Some p /\ h = p).
Proof.
  revert m i. induction qs as [|a qs IH]; intros m i Hm Hpos Hi; [discriminate|].
  apply Forall_cons in Hpos as [Ha Hpos].
  assert (Hstep : exists h, nan_max m (Fin a) = Fin h /\ a <= h /\ 0 < h
            /\ (m = Fin h \/ h = a)).
  { destruct Hm as [-> | (mq & -> & Hmq)]; simpl.
    - exists a. repeat split; [apply Qle_refl | exact Ha | now right].
    - unfold nan_max; simpl. destruct (Qltb mq a) eqn:E.
      + exists a. repeat split; [apply Qle_refl | exact Ha | now right].
      + apply Qltb_ge in E. exists mq. repeat split; [exact E | exact Hmq | now left]. }
  destruct Hstep as (h & Hh & Hah & Hhpos & Hsrc).
  destruct i as [|i]; simpl in *.
  - injection Hi as <-. exists h. rewrite Hh. repeat split; try assumption.
    destruct Hsrc as [-> | ->]; [now left|].
    right. exists 0%nat, a. repeat split; try lia; reflexivity.
  - rewrite Hh.
    destruct (IH (Fin h) i) as (h' & Hl & Hq & Hpos' & Hsrc'); try assumption.
    { right. exists h. split; [reflexivity | exact Hhpos]. }
    exists h'. repeat split; try assumption.
    destruct Hsrc' as [Heq | (j & p & Hj & Hp & ->)].
    + injection Heq as ->. destruct Hsrc as [-> | ->]; [now left|].
      right. exists 0%nat, a. repeat split; try lia; reflexivity.
    + right. exists (S j), p. repeat split; try lia; exact Hp.
Qed.

(** For positive closes, none missing, every drawdown entry is a number that
    is at most zero, and it is exactly zero at every bar whose close is at
    least every close up to that bar. *)
Lemma drawdown_of_present_closes (qs : list Q) :
  positive_closes qs ->
  length (drawdown (map Fin qs)) = length qs /\
  forall i q, qs !! i = Some q ->
    exists d, drawdown (map Fin qs) !! i = Some (Fin d) /\ d <= 0 /\
      ((forall j p, (j <= i)%nat -> qs !! j = Some p -> p <= q) -> d = 0).
Proof.
  intros Hpos. unfold drawdown, ffill, expanding_max.
  rewrite ffill_finite, nan_to_neginf_finite. split.
  - rewrite length_zip_with.
    assert (Hlen : forall m l, length (expanding_max_from m l) = length l).
    { intros m l. revert m. induction l as [|x l IH]; intros m; simpl; [reflexivity|].
      now rewrite IH. }
    rewrite Hlen, length_map. lia.
  - intros i q Hi.
    destruct (expanding_max_from_spec NaN qs i q) as (h & Hl & Hq & Hh & Hsrc);
      [now left | exact Hpos | exact Hi |].
    rewrite lookup_zip_with, list_lookup_fmap, Hi, Hl. simpl.
    assert (Hne : Qeq_bool h 0 = false).
    { apply Qeq_bool_false. intros E. rewrite E in Hh. now apply Qlt_irrefl in Hh. }
    rewrite Hne. eexists. split; [reflexivity|]. split.
    + rewrite Qred_correct, Qred_correct.
      assert (q / h <= 1).
      { apply Qle_shift_div_r; [exact Hh|]. rewrite Qmult_1_l. exact Hq. }
      lra.
    + intros Hmax. apply Qred_zero. rewrite Qred_correct.
      destruct Hsrc as [Hnan | (j & p & Hj & Hp & ->)]; [discriminate|].
      assert (Hpq : p == q) by (apply Qle_antisym; [eapply Hmax; eassumption | exact Hq]).
      rewrite Hpq. field. intros E. rewrite Hpq, E in Hh. now apply Qlt_irrefl in Hh.
Qed.

Lemma ffill_from_app (prev : fval) (l1 l2 : list fval) :
  ffill_from prev (l1 ++ l2)
  = ffill_from prev l1 ++ ffill_from (default prev (last (ffill_from prev l1))) l2.
Proof.
  revert prev. induction l1 as [|x l1 IH]; intros prev; [reflexivity|].
  cbn [app ffill_from]. rewrite IH. f_equal. f_equal.
  rewrite last_cons. now destruct (last _).
Qed.

Lemma expanding_max_neginf_start (qs : list Q) :
  expanding_max_from NInf (map Fin qs) = expanding_max_from NaN (map Fin qs).
Proof. destruct qs as [|q qs]; reflexivity. Qed.

Lemma expanding_max_leading_neginf (m : fval) (k : nat) (qs : list Q) :
  m = NaN \/ m = NInf ->
  expanding_max_from m (replicate k NInf ++ map Fin qs)
  = replicate k NInf ++ expanding_max_from NaN (map Fin qs).
Proof.
  revert m. induction k as [|k IH]; intros m Hm.
  - destruct Hm as [-> | ->]; [reflexivity | apply expanding_max_neginf_start].
  - cbn [replicate app expanding_max_from].
    assert (Hstep : nan_max m NInf = NInf) by (destruct Hm as [-> | ->]; reflexivity).
    rewrite Hstep. f_equal. apply IH. now right.
Qed.

(** The closes present in a series are positive numbers. *)
Definition present_positive (s : list fval) : Prop :=
  Forall (fun x => x = NaN \/ exists q, x = Fin q /\ 0 < q) s.

(** After a close [p] the forward fill yields numbers only: at each bar the
    last close present so far. *)
Lemma ffill_from_present (p : Q) (s : list fval) :
  0 < p -> present_positive s ->
  exists qs, ffill_from (Fin p) s = map Fin qs /\ positive_closes qs /\
    length qs = length s /\
    forall i, (i < length s)%nat -> last_present (Some p) (take (S i) s) = qs !! i.
Proof.
  revert p. induction s as [|x s IH]; intros p Hp Hs.
  - exists []. split; [reflexivity|]. split; [constructor|]. split; [reflexivity|].
    intros i Hi. cbn in Hi. lia.
  - apply Forall_cons in Hs as [Hx Hs].
    destruct Hx as [-> | (q & -> & Hq)].
    + destruct (IH p Hp Hs) as (qs & Hf & Hpos & Hlen & Hlk).
      exists (p :: qs). cbn [ffill_from is_nan map]. rewrite Hf.
      split; [reflexivity|]. split; [constructor; assumption|].
      split; [cbn; lia|]. intros [|i] Hi; [reflexivity|].
      cbn [length] in Hi. cbn [firstn last_present lookup list_lookup].
      apply Hlk. lia.
    + destruct (IH q Hq Hs) as (qs & Hf & Hpos & Hlen & Hlk).
      exists (q :: qs). cbn [ffill_from is_nan map]. rewrite Hf.
      split; [reflexivity|]. split; [constructor; assumption|].
      split; [cbn; lia|]. intros [|i] Hi; [reflexivity|].
      cbn [length] in Hi. cbn [firstn last_present lookup list_lookup].
      apply Hlk. lia.
Qed.

(** The forward fill of a series whose present closes are positive: the
    bars before the first present close stay missing, every later bar holds
    the last close present so far. *)
Lemma ffill_shape (s : list fval) :
  present_positive s ->
  exists k qs, ffill s = replicate k NaN ++ map Fin qs /\ positive_closes qs /\
    length s = (k + length qs)%nat /\
    (forall i, (i < k)%nat -> filled_close s i = None) /\
    (forall i, (i < length qs)%nat -> filled_close s (k + i) = qs !! i).
Proof.
  unfold ffill, filled_close. induction s as [|x s IH]; intros Hs.
  - exists 0%nat, []. split; [reflexivity|]. split; [constructor|].
    split; [reflexivity|]. split; intros i Hi; cbn in Hi; lia.
  - apply Forall_cons in Hs as [Hx Hs].
    destruct Hx as [-> | (q & -> & Hq)].
    + destruct (IH Hs) as (k & qs & Hf & Hpos & Hlen & Hbefore & Hafter).
      exists (S k), qs. cbn [ffill_from is_nan replicate app]. rewrite Hf.
      split; [reflexivity|]. split; [exact Hpos|]. split; [cbn; lia|]. split.
      * intros [|i] Hi; [reflexivity|].
        cbn [firstn last_present]. apply Hbefore. lia.
      * intros i Hi. cbn [Nat.add firstn last_present]. now apply Hafter.
    + destruct (ffill_from_present q s Hq Hs) as (qs & Hf & Hpos & Hlen & Hlk).
      exists 0%nat, (q :: qs). cbn [ffill_from is_nan replicate app map]. rewrite Hf.
      split; [reflexivity|]. split; [constructor; assumption|].
      split; [cbn; lia|]. split; [intros i Hi; lia|].
      intros [|i] Hi; [reflexivity|].
      cbn [length] in Hi. cbn [Nat.add firstn last_present lookup list_lookup].
      apply Hlk. lia.
Qed.

(** The drawdown is computed from the forward-filled closes: where these
    start with missing bars, so does the drawdown, and the rest is the
    drawdown of the closes that follow. *)
Lemma drawdown_filled (s : list fval) (k : nat) (qs : list Q) :
  ffill s = replicate k NaN ++ map Fin qs ->
  drawdown s = replicate k NaN ++ drawdown (map Fin qs).
Proof.
  intros Hfill. unfold drawdown. rewrite Hfill. unfold ffill, expanding_max.
  rewrite ffill_finite, map_app, !nan_to_neginf_finite.
  assert (Hinf : map (fun x => if is_nan x then NInf else x) (replicate k NaN)
                 = replicate k NInf).
  { clear. induction k as [|k IH]; [reflexivity|]. cbn. now rewrite IH. }
  rewrite Hinf, expanding_max_leading_neginf by now left.
  rewrite zip_with_app by now rewrite !length_replicate.
  f_equal. clear. induction k as [|k IH]; [reflexivity|]. cbn. now rewrite IH.
Qed.

(** C9, amended. For a series whose present closes are positive, the
    drawdown has one entry per bar; at the bars before the first present
    close, where there is no forward-filled close, the entry is not a
    number; at every other bar it is a number that is at most zero, and it
    is exactly zero when the bar's forward-filled close is at least every
    forward-filled close up to that bar. *)
Theorem drawdown_nonpositive_zero_at_high (s : list fval) :
  present_positive s ->
  length (drawdown s) = length s /\
  forall i, (i < length s)%nat ->
    match filled_close s i with
    | None => drawdown s !! i = Some NaN
    | Some q =>
        exists d, drawdown s !! i = Some (Fin d) /\ d <= 0 /\
          ((forall j p, (j <= i)%nat -> filled_close s j = Some p -> p <= q) -> d = 0)
    end.
Proof.
  intros Hs.
  destruct (ffill_shape s Hs) as (k & qs & Hfill & Hpos & Hlen & Hbefore & Hafter).
  rewrite (drawdown_filled s k qs Hfill).
  destruct (drawdown_of_present_closes qs Hpos) as [Hdl Hdd].
  split; [rewrite length_app, length_replicate, Hdl; lia|].
  intros i Hi. destruct (decide (i < k)%nat) as [Hik | Hik].
  - rewrite (Hbefore i Hik), lookup_app_l by (rewrite length_replicate; exact Hik).
    now apply lookup_replicate_2.
  - replace i with (k + (i - k))%nat by lia.
    rewrite (Hafter (i - k)%nat) by lia.
    destruct (lookup_lt_is_Some_2 qs (i - k)) as [q Hq]; [lia|].
    rewrite Hq. destruct (Hdd (i - k)%nat q Hq) as (d & Hd & Hle & Hzero).
    exists d. split; [|split; [exact Hle|]].
    + rewrite lookup_app_r by (rewrite length_replicate; lia).
      rewrite length_replicate. now replace (k + (i - k) - k)%nat with (i - k)%nat by lia.
    + intros Hhigh. apply Hzero. intros j p Hj Hp.
      apply (Hhigh (k + j)%nat p); [lia|].
      rewrite (Hafter j) by (apply lookup_lt_Some in Hp; exact Hp). exact Hp.
Qed.

Lemma drawdown_nonpositive_zero_at_high_witness :
  present_positive [NaN; Fin 3; NaN; Fin 2; Fin 4] /\
  drawdown [NaN; Fin 3; NaN; Fin 2; Fin 4] = [NaN; Fin 0; Fin 0; Fin (-1 # 3); Fin 0] /\
  (length (drawdown [NaN; Fin 3; NaN; Fin 2; Fin 4]) = length [NaN; Fin 3; NaN; Fin 2; Fin 4] /\
   forall i, (i < length [NaN; Fin 3; NaN; Fin 2; Fin 4])%nat ->
     match filled_close [NaN; Fin 3; NaN; Fin 2; Fin 4] i with
     | None => drawdown [NaN; Fin 3; NaN; Fin 2; Fin 4] !! i = Some NaN
     | Some q =>
         exists d, drawdown [NaN; Fin 3; NaN; Fin 2; Fin 4] !! i = Some (Fin d) /\ d <= 0 /\
           ((forall j p, (j <= i)%nat ->
               filled_close [NaN; Fin 3; NaN; Fin 2; Fin 4] j = Some p -> p <= q) -> d = 0)
     end).
Proof.
  assert (H : present_positive [NaN; Fin 3; NaN; Fin 2; Fin 4]).
  { unfold present_positive.
    repeat (apply Forall_cons_2;
            [first [now left | right; eexists; split; reflexivity]|]).
    apply Forall_nil_2. }
  split; [exact H|]. split; [reflexivity|].
  apply (drawdown_nonpositive_zero_at_high [NaN; Fin 3; NaN; Fin 2; Fin 4] H).
Defined.

(** C9 as the specification states it fails on a series that starts with a
    missing close: the closes present are positive, yet the entry of the
    first bar is not a number, so it is not at most zero. *)
Lemma drawdown_missing_start_counterexample :
  present_positive [NaN; Fin 4; Fin 2] /\
  drawdown [NaN; Fin 4; Fin 2] = [NaN; Fin 0; Fin (-1 # 2)] /\
  ~ (exists d, drawdown [NaN; Fin 4; Fin 2] !! 0%nat = Some (Fin d) /\ d <= 0).
Proof.
  split; [|split; [reflexivity|]].
  - unfold present_positive.
    repeat (apply Forall_cons_2;
            [first [now left | right; eexists; split; reflexivity]|]).
    apply Forall_nil_2.
  - intros (d & Hd & _). discriminate Hd.
Qed.

(** ** Drawdown episodes on a series that never falls *)

(** C3. On the closes 1, 2, 3 (never in drawdown) [drawdown_info] finds no
    episode start, and reading [start[0]] raises [IndexError]: no table is
    returned. *)
Theorem drawdown_info_no_drawdown_raises :
  drawdown (map Fin [1; 2; 3]) = [Fin 0; Fin 0; Fin 0] /\
  drawdown_info [(0%Z, Fin 1); (1%Z, Fin 2); (2%Z, Fin 3)] = Raise IndexError.
Proof. split; reflexivity. Qed.

(** A series that does fall and recover yields its episode. *)
Example drawdown_info_one_episode :
  drawdown_info [(0%Z, Fin 4); (1%Z, Fin 2); (2%Z, Fin 3); (3%Z, Fin 5)]
  = Ok [{| ep_start := 1; ep_end := 3; ep_days := 2; ep_drawdown := Fin (-1 # 2) |}].
Proof. reflexivity. Qed.

(** The same failure on every series: when no bar is in drawdown the list
    [start] is empty and [start[0]] raises. *)
Lemma where_true_none (idx : list Z) (mask : list bool) :
  Forall (fun b => b = false) mask -> where_true idx mask = [].
Proof.
  intros H. unfold where_true. revert idx.
  induction H as [|b mask -> _ IH]; intros [|t idx]; try reflexivity.
  cbn [zip_with]. rewrite filter_cons_False by (cbn; congruence). apply IH.
Qed.

Lemma drawdown_info_no_start (close : series) :
  Forall (fun d => feqb d fzero = true) (drawdown (values close)) ->
  drawdown_info close = Raise IndexError.
Proof.
  intros Hz. unfold drawdown_info.
  rewrite (where_true_none (index close)
             (zip_with andb (map negb (map (fun d => feqb d fzero) (drawdown (values close)))) _)).
  - destruct (decide _); [unfold item_last; destruct (last (index close)) |]; reflexivity.
  - assert (Hneg : Forall (fun b => b = false)
                      (map negb (map (fun d => feqb d fzero) (drawdown (values close))))).
    { induction Hz as [|d l Hd _ IH]; cbn; constructor; [now rewrite Hd | exact IH]. }
    revert Hneg. generalize (map negb (map (fun d => feqb d fzero) (drawdown (values close)))).
    generalize (shift1_bool (map (fun d => feqb d fzero) (drawdown (values close)))).
    intros k l Hl. revert k. induction Hl as [|b l -> _ IH]; intros [|c k]; constructor;
      [reflexivity | apply IH].
Qed.

(** Closes that never fall: each is at least the one before. *)
Fixpoint never_falls_from (m : Q) (qs : list Q) : Prop :=
  match qs with
  | [] => True
  | q :: qs' => m <= q /\ never_falls_from q qs'
  end.

Lemma never_falls_from_le (m m' : Q) (qs : list Q) :
  m' <= m -> never_falls_from m qs -> never_falls_from m' qs.
Proof.
  destruct qs as [|q qs]; [trivial|]. cbn. intros Hm [Hq Hrest].
  split; [lra | exact Hrest].
Qed.

Lemma drawdown_flat_from (m : Q) (qs : list Q) :
  0 < m -> never_falls_from m qs ->
  Forall (fun d => feqb d fzero = true)
         (zip_with (fun d h => fsub (fdiv d h) fone) (map Fin qs)
                   (expanding_max_from (Fin m) (map Fin qs))).
Proof.
  revert m. induction qs as [|q qs IH]; intros m Hm Hqs; [constructor|].
  destruct Hqs as [Hq Hrest]. cbn [map expanding_max_from zip_with].
  assert (Hmax : exists h, nan_max (Fin m) (Fin q) = Fin h /\ h == q).
  { unfold nan_max. cbn. destruct (Qltb m q) eqn:E.
    - exists q. split; reflexivity.
    - apply Qltb_ge in E. exists m. split; [reflexivity | lra]. }
  destruct Hmax as (h & -> & Hh). constructor.
  - rewrite fdiv_finite by lra. cbn. apply Qeq_bool_iff.
    rewrite !Qred_correct, Hh. field. lra.
  - apply IH; [lra|]. apply (never_falls_from_le q); [lra | exact Hrest].
Qed.

(** On positive closes that never fall, no table is returned. *)
Lemma drawdown_info_never_falls (t0 : Z) (q0 : Q) (rest : list (Z * Q)) :
  0 < q0 -> never_falls_from q0 (map snd rest) ->
  drawdown_info (map (fun p => (fst p, Fin (snd p))) ((t0, q0) :: rest))
  = Raise IndexError.
Proof.
  intros Hq0 Hrest. apply drawdown_info_no_start.
  unfold values. rewrite map_map. cbn [map fst snd].
  assert (Hv : map (fun x : Z * Q => Fin (snd x)) rest = map Fin (map snd rest))
    by now rewrite map_map.
  rewrite Hv. unfold drawdown, ffill, expanding_max.
  change (Fin q0 :: map Fin (map snd rest)) with (map Fin (q0 :: map snd rest)).
  rewrite ffill_finite, nan_to_neginf_finite.
  cbn [map expanding_max_from zip_with]. unfold nan_max at 1. cbn [is_nan].
  constructor.
  - rewrite fdiv_finite by lra. cbn. apply Qeq_bool_iff.
    rewrite !Qred_correct. field. lra.
  - apply drawdown_flat_from; assumption.
Qed.

(** ** Parabolic SAR: the loop is the fold *)

(** The four scalars of the loop state, read as a state of the fold. *)
Definition trend_of (st : sar_state) : trend :=
  {| rising := up st; extreme := ep st; accel := af st; stop := sar st |}.

Lemma item_lookup {A : Type} (l : list A) (i : nat) (a : A) :
  l !! i = Some a -> item l i = Ok a.
Proof. intros H. unfold item. now rewrite H. Qed.

Lemma for_each_app {S : Type} (body : S -> nat -> result S) (l1 l2 : list nat) (st : S) :
  for_each body (l1 ++ l2) st = (st' ← for_each body l1 st; for_each body l2 st').
Proof.
  revert st. induction l1 as [|i l1 IH]; intros st; simpl; [reflexivity|].
  destruct (body st i) as [st'|e]; simpl; [apply IH | reflexivity].
Qed.

(** One iteration at bar [k] is one transition of the fold: the scalars
    follow [trend_step], and the bar's pair is written at position [k] of
    the column of the phase that was active, the other column untouched. *)
Lemma sar_body_step (p : sar_params) (high low : list fval) (st : sar_state)
    (k : nat) (hi lo : fval) :
  high !! k = Some hi -> low !! k = Some lo ->
  exists st',
    sar_body p high low st k = Ok st' /\
    trend_of st' = fst (trend_step p (trend_of st) (hi, lo)) /\
    (if up st
     then r_sar st' = <[k := fst (snd (trend_step p (trend_of st) (hi, lo)))]> (r_sar st)
          /\ f_sar st' = f_sar st
          /\ snd (snd (trend_step p (trend_of st) (hi, lo))) = fzero
     else f_sar st' = <[k := snd (snd (trend_step p (trend_of st) (hi, lo)))]> (f_sar st)
          /\ r_sar st' = r_sar st
          /\ fst (snd (trend_step p (trend_of st) (hi, lo))) = fzero).
Proof.
  intros Hhi Hlo. unfold sar_body.
  rewrite (item_lookup _ _ _ Hhi), (item_lookup _ _ _ Hlo).
  destruct st as [e a s u r f]. unfold trend_of, trend_step, accelerate. cbn.
  destruct u; cbn.
  - destruct (fgtb _ lo || fgtb _ hi); cbn; eexists; (split; [reflexivity|]); cbn;
      repeat split; reflexivity.
  - destruct (fltb _ lo || fltb _ hi); cbn; eexists; (split; [reflexivity|]); cbn;
      repeat split; reflexivity.
Qed.

Lemma insert_at_end (pre : list fval) (x y : fval) (rest : list fval) (k : nat) :
  length pre = k -> <[k := x]> (pre ++ y :: rest) = (pre ++ [x]) ++ rest.
Proof.
  intros <-. rewrite insert_app_r_alt by lia. rewrite Nat.sub_diag. cbn.
  now rewrite <- app_assoc.
Qed.

(** The invariant of the loop: the bars [k ..] are still to come, both
    columns hold what was written for the bars before [k] and zeros after. *)
Lemma sar_loop_fold (p : sar_params) (high low : list fval) :
  length high = length low ->
  forall (m k : nat) (st : sar_state) (pre_r pre_f : list fval),
    (k + m)%nat = length high ->
    length pre_r = k -> length pre_f = k ->
    r_sar st = pre_r ++ zeros m -> f_sar st = pre_f ++ zeros m ->
    exists st',
      for_each (sar_body p high low) (seq k m) st = Ok st' /\
      r_sar st' = pre_r ++ map fst (trend_fold p (trend_of st) (drop k (zip high low))) /\
      f_sar st' = pre_f ++ map snd (trend_fold p (trend_of st) (drop k (zip high low))).
Proof.
  intros Hlen m. induction m as [|m IH]; intros k st pre_r pre_f Hk Hr Hf Hrs Hfs.
  - exists st. cbn. rewrite drop_ge by (rewrite length_zip; lia). cbn.
    rewrite Hrs, Hfs. cbn. now rewrite !app_nil_r.
  - assert (Hkh : (k < length high)%nat) by lia.
    assert (Hkl : (k < length low)%nat) by lia.
    destruct (lookup_lt_is_Some_2 high k Hkh) as [hi Hhi].
    destruct (lookup_lt_is_Some_2 low k Hkl) as [lo Hlo].
    assert (Hz : zip high low !! k = Some (hi, lo)).
    { apply lookup_zip_Some. split; assumption. }
    rewrite (drop_S _ _ _ Hz). cbn [seq for_each trend_fold].
    destruct (sar_body_step p high low st k hi lo Hhi Hlo) as (st1 & Hb & Ht & Hcols).
    rewrite Hb. cbn [mbind result_bind].
    destruct (trend_step p (trend_of st) (hi, lo)) as [t' [o_r o_f]] eqn:Hstep.
    cbn [fst snd] in *.
    assert (Hr1 : r_sar st1 = (pre_r ++ [o_r]) ++ zeros m).
    { destruct (up st); destruct Hcols as (H1 & H2 & H3).
      - rewrite H1, Hrs. cbn. now apply insert_at_end.
      - rewrite H2, Hrs, H3. cbn. now rewrite <- app_assoc. }
    assert (Hf1 : f_sar st1 = (pre_f ++ [o_f]) ++ zeros m).
    { destruct (up st); destruct Hcols as (H1 & H2 & H3).
      - rewrite H2, Hfs, H3. cbn. now rewrite <- app_assoc.
      - rewrite H1, Hfs. cbn. now apply insert_at_end. }
    destruct (IH (S k) st1 (pre_r ++ [o_r]) (pre_f ++ [o_f])) as (st' & Hrun & Hr' & Hf');
      try assumption; try lia.
    { rewrite length_app. cbn. lia. }
    { rewrite length_app. cbn. lia. }
    exists st'. rewrite Hrun. split; [reflexivity|].
    rewrite Hr', Hf', Ht. cbn [map fst snd]. now rewrite <- !app_assoc.
Qed.

(** The loop of [parabolic_sar] leaves in its two columns what the
    iterations yield bar by bar. *)
Lemma parabolic_sar_loop (p : sar_params) (high low : list fval) :
  length high = length low ->
  parabolic_sar p high low = sar_by_fold p (zip high low).
Proof.
  intros Hlen. unfold parabolic_sar, sar_before, sar_start.
  destruct high as [|h0 high']; [reflexivity|].
  destruct low as [|l0 low']; [discriminate|].
  cbn [item lookup list_lookup mbind result_bind mret result_ret].
  set (st0 := {| ep := h0; af := Fin (step_r p); sar := l0; up := true;
                r_sar := zeros (length (h0 :: high'));
                f_sar := zeros (length (h0 :: high')) |}).
  destruct (sar_loop_fold p (h0 :: high') (l0 :: low') Hlen
              (length high') 1%nat st0 [fzero] [fzero]) as (st' & Hrun & Hr & Hf);
    try reflexivity.
  cbn [length] in *. replace (S (length high') - 1)%nat with (length high') by lia.
  rewrite Hrun. cbn [mbind result_bind]. rewrite Hr, Hf. reflexivity.
Qed.

(** The test of the loop, [ep == high[i]] after [ep] took the larger of
    itself and the high, holds when the high is above the EP so far and also
    when it only equals it. *)
Lemma reached_max (e hi : fval) : feqb (np_max e hi) hi = fltb e hi || feqb e hi.
Proof.
  unfold np_max. destruct e as [a| | |], hi as [b| | |]; cbn; try reflexivity;
    try (apply Qeq_bool_iff; reflexivity).
  destruct (Qltb a b) eqn:E; cbn; [|reflexivity].
  apply Qeq_bool_iff. reflexivity.
Qed.

Lemma Qeq_bool_sym (a b : Q) : Qeq_bool a b = Qeq_bool b a.
Proof.
  destruct (Qeq_bool b a) eqn:E.
  - apply Qeq_bool_iff in E. apply Qeq_bool_iff. now symmetry.
  - apply Qeq_bool_false. intros H. symmetry in H. apply Qeq_bool_iff in H. congruence.
Qed.

Lemma feqb_sym (x y : fval) : feqb x y = feqb y x.
Proof. destruct x, y; cbn; try reflexivity. apply Qeq_bool_sym. Qed.

Lemma reached_min (e lo : fval) : feqb (np_min e lo) lo = fltb lo e || feqb lo e.
Proof.
  unfold np_min. destruct e as [a| | |], lo as [b| | |]; cbn; try reflexivity;
    try (apply Qeq_bool_iff; reflexivity).
  destruct (Qltb b a) eqn:E; cbn.
  - apply Qeq_bool_iff. reflexivity.
  - apply Qeq_bool_sym.
Qed.

Lemma fold_step_when_reached (p : sar_params) (t : trend) (bar : fval * fval) :
  fold_step WhenReached p t bar = trend_step p t bar.
Proof.
  destruct bar as [hi lo]. unfold fold_step, trend_step, grows.
  now rewrite reached_max, reached_min.
Qed.

Lemma sar_fold_when_reached (p : sar_params) (t : trend) (bars : list (fval * fval)) :
  sar_fold WhenReached p t bars = trend_fold p t bars.
Proof.
  revert t. induction bars as [|bar bars IH]; intros t; [reflexivity|].
  cbn [sar_fold trend_fold]. rewrite fold_step_when_reached.
  destruct (trend_step p t bar) as [t' out]. now rewrite IH.
Qed.

(** At a bar that does not tie the extreme point the two wordings agree. *)
Lemma fold_step_no_tie (p : sar_params) (t : trend) (bar : fval * fval) :
  feqb (extreme t) (if rising t then fst bar else snd bar) = false ->
  fold_step OnlyWhenMoved p t bar = fold_step WhenReached p t bar.
Proof.
  destruct bar as [hi lo]. unfold fold_step, grows. cbn [fst snd].
  destruct (rising t); intros Htie.
  - now rewrite Htie, orb_false_r.
  - now rewrite (feqb_sym lo (extreme t)), Htie, orb_false_r.
Qed.

Lemma sar_fold_no_tie (p : sar_params) (t : trend) (bars : list (fval * fval)) :
  no_tie_from p t bars ->
  sar_fold OnlyWhenMoved p t bars = sar_fold WhenReached p t bars.
Proof.
  revert t. induction bars as [|bar bars IH]; intros t; [reflexivity|].
  cbn [no_tie_from sar_fold]. intros [Htie Hrest].
  rewrite (fold_step_no_tie p t bar Htie).
  destruct (fold_step WhenReached p t bar) as [t' out]. cbn [fst] in Hrest.
  now rewrite (IH t' Hrest).
Qed.

(** C1, amended. [parabolic_sar] is the left-to-right fold over the bars
    after the first, started from EP = first high, AF = [step_r],
    SAR = first low, rising, in which AF grows whenever the bar reaches the
    extreme point, moving it or only tying it; on an empty frame both raise
    [IndexError].  It is the fold the specification words, in which AF
    grows only when the bar moved the extreme point, on every run in which
    no bar ties the extreme point. *)
Theorem parabolic_sar_is_fold (p : sar_params) (high low : list fval) :
  length high = length low ->
  parabolic_sar p high low = sar_by_rule WhenReached p (zip high low) /\
  (no_tie p (zip high low) ->
   parabolic_sar p high low = sar_by_rule OnlyWhenMoved p (zip high low)).
Proof.
  intros Hlen. rewrite (parabolic_sar_loop p high low Hlen).
  assert (Hreached : sar_by_fold p (zip high low) = sar_by_rule WhenReached p (zip high low)).
  { unfold sar_by_fold, sar_by_rule. destruct (zip high low) as [|[h0 l0] bars]; [reflexivity|].
    now rewrite sar_fold_when_reached. }
  split; [exact Hreached|].
  intros Hno. rewrite Hreached. unfold sar_by_rule, no_tie in *.
  destruct (zip high low) as [|[h0 l0] bars]; [reflexivity|].
  now rewrite (sar_fold_no_tie p _ bars Hno).
Qed.

Lemma parabolic_sar_is_fold_witness :
  parabolic_sar sar_defaults (map Fin [10; 10; 11; 9; 8]) (map Fin [9; 9; 10; 8; 7])
  = sar_by_rule WhenReached sar_defaults
      (zip (map Fin [10; 10; 11; 9; 8]) (map Fin [9; 9; 10; 8; 7])) /\
  parabolic_sar sar_defaults (map Fin [10; 11; 9; 8]) (map Fin [9; 10; 8; 7])
  = sar_by_rule OnlyWhenMoved sar_defaults
      (zip (map Fin [10; 11; 9; 8]) (map Fin [9; 10; 8; 7])).
Proof.
  split.
  - apply (parabolic_sar_is_fold sar_defaults
             (map Fin [10; 10; 11; 9; 8]) (map Fin [9; 9; 10; 8; 7])).
    reflexivity.
  - apply (parabolic_sar_is_fold sar_defaults
             (map Fin [10; 11; 9; 8]) (map Fin [9; 10; 8; 7])); [reflexivity|].
    cbn. repeat split; reflexivity.
Defined.

(** C1 as the specification states it fails at a bar that ties the extreme
    point.  On the highs 10, 10 and the lows 9, 19/2 the second bar leaves
    EP at 10, yet the loop raises AF from 1/50 to 1/25 and writes the stop
    9 + 1/25 = 226/25; the fold in which AF grows only when EP was moved
    keeps AF at 1/50 and yields 451/50. *)
Lemma parabolic_sar_tie_counterexample :
  (st ← sar_before sar_defaults (map Fin [10; 10]) (map Fin [9; 19 # 2]) 2;
   mret (ep st, af st, sar st, up st))
  = Ok (Fin 10, Fin (1 # 25), Fin (226 # 25), true) /\
  parabolic_sar sar_defaults (map Fin [10; 10]) (map Fin [9; 19 # 2])
  = Ok ([Fin 0; Fin (226 # 25)], [Fin 0; Fin 0]) /\
  sar_by_rule OnlyWhenMoved sar_defaults (zip (map Fin [10; 10]) (map Fin [9; 19 # 2]))
  = Ok ([Fin 0; Fin (451 # 50)], [Fin 0; Fin 0]) /\
  parabolic_sar sar_defaults (map Fin [10; 10]) (map Fin [9; 19 # 2])
  <> sar_by_rule OnlyWhenMoved sar_defaults (zip (map Fin [10; 10]) (map Fin [9; 19 # 2])).
Proof. repeat split; try reflexivity. discriminate. Qed.

(** The acceleration factor never passes its cap, and below the cap it is
    left as it is at a bar that did not move the extreme point. *)
Lemma accelerate_capped (reached : bool) (a step cap : Q) :
  exists a', accelerate reached (Fin a) step cap = Fin a' /\ a' <= cap.
Proof.
  unfold accelerate, np_min. destruct reached; cbn.
  - destruct (Qltb cap (Qred (a + step))) eqn:E.
    + exists cap. split; [reflexivity | apply Qle_refl].
    + apply Qltb_ge in E. eexists. split; [reflexivity | exact E].
  - destruct (Qltb cap a) eqn:E.
    + exists cap. split; [reflexivity | apply Qle_refl].
    + apply Qltb_ge in E. eexists. split; [reflexivity | exact E].
Qed.

Lemma accelerate_not_reached (a step cap : Q) :
  a <= cap -> accelerate false (Fin a) step cap = Fin a.
Proof.
  intros H. unfold accelerate, np_min. cbn.
  now rewrite (proj2 (Qltb_ge cap a) H).
Qed.

(** The factor of a state is within the cap of its phase. *)
Definition accel_capped (p : sar_params) (t : trend) : Prop :=
  exists a, accel t = Fin a /\ a <= (if rising t then max_af_r p else max_af_f p).

Lemma trend_step_accel_capped (p : sar_params) (t : trend) (bar : fval * fval) :
  step_r p <= max_af_r p -> step_f p <= max_af_f p ->
  accel_capped p t -> accel_capped p (fst (trend_step p t bar)).
Proof.
  intros Hr Hf (a & Ha & Hcap). destruct t as [u e a0 s]. cbn in Ha, Hcap. subst a0.
  destruct bar as [hi lo]. unfold trend_step, accel_capped. cbn [rising extreme accel stop].
  destruct u.
  - destruct (accelerate_capped (feqb (np_max e hi) hi) a (step_r p) (max_af_r p))
      as (a' & -> & Ha').
    destruct (fgtb _ lo || fgtb _ hi); cbn; eauto.
  - destruct (accelerate_capped (feqb (np_min e lo) lo) a (step_f p) (max_af_f p))
      as (a' & -> & Ha').
    destruct (fltb _ lo || fltb _ hi); cbn; eauto.
Qed.

(** ** Parabolic SAR: one finite stop per bar, in the active column *)

Definition finite (x : fval) : Prop := exists q, x = Fin q.

Definition finite_trend (t : trend) : Prop :=
  finite (extreme t) /\ finite (accel t) /\ finite (stop t).

Lemma np_max_finite (a b : Q) : finite (np_max (Fin a) (Fin b)).
Proof. unfold np_max. cbn. destruct (Qltb a b); eexists; reflexivity. Qed.

Lemma np_min_finite (a b : Q) : finite (np_min (Fin a) (Fin b)).
Proof. unfold np_min. cbn. destruct (Qltb b a); eexists; reflexivity. Qed.

Lemma accelerate_finite (reached : bool) (a step cap : Q) :
  finite (accelerate reached (Fin a) step cap).
Proof. unfold accelerate. destruct reached; cbn; apply np_min_finite. Qed.

(** On finite data a transition keeps the state finite and yields a finite
    stop for the phase that was active and zero for the other. *)
Lemma trend_step_finite (p : sar_params) (t : trend) (h l : Q) :
  finite_trend t ->
  finite_trend (fst (trend_step p t (Fin h, Fin l))) /\
  (if rising t
   then finite (fst (snd (trend_step p t (Fin h, Fin l))))
        /\ snd (snd (trend_step p t (Fin h, Fin l))) = fzero
   else finite (snd (snd (trend_step p t (Fin h, Fin l))))
        /\ fst (snd (trend_step p t (Fin h, Fin l))) = fzero).
Proof.
  destruct t as [u e a s]. unfold finite_trend at 1. cbn [extreme accel stop].
  intros ([eq ->] & [aq ->] & [sq ->]).
  unfold trend_step; cbn [rising extreme accel stop].
  destruct u.
  - destruct (np_max_finite eq h) as [e' ->].
    destruct (accelerate_finite (feqb (Fin e') (Fin h)) aq (step_r p) (max_af_r p)) as [a' ->].
    cbn [fsub fmul fadd].
    destruct (fgtb _ (Fin l) || fgtb _ (Fin h)); cbn;
      unfold finite_trend, finite; cbn; eauto 10.
  - destruct (np_min_finite eq l) as [e' ->].
    destruct (accelerate_finite (feqb (Fin e') (Fin l)) aq (step_f p) (max_af_f p)) as [a' ->].
    cbn [fsub fmul fadd].
    destruct (fltb _ (Fin l) || fltb _ (Fin h)); cbn;
      unfold finite_trend, finite; cbn; eauto 10.
Qed.

(** The iterations [k .. k+m-1] on finite data never raise, keep the state
    finite and leave every position outside [k .. k+m-1] of both columns as
    it was. *)
Lemma sar_loop_frame (p : sar_params) (hs ls : list Q) :
  length hs = length ls ->
  forall (m k : nat) (st : sar_state),
    (k + m <= length hs)%nat ->
    finite_trend (trend_of st) ->
    exists st',
      for_each (sar_body p (map Fin hs) (map Fin ls)) (seq k m) st = Ok st' /\
      finite_trend (trend_of st') /\
      length (r_sar st') = length (r_sar st) /\
      length (f_sar st') = length (f_sar st) /\
      forall j, (j < k \/ k + m <= j)%nat ->
        r_sar st' !! j = r_sar st !! j /\ f_sar st' !! j = f_sar st !! j.
Proof.
  intros Hlen m. induction m as [|m IH]; intros k st Hk Hfin.
  - exists st. split; [reflexivity|]. split; [exact Hfin|].
    split; [reflexivity|]. split; [reflexivity|]. intros j _. split; reflexivity.
  - destruct (lookup_lt_is_Some_2 hs k ltac:(lia)) as [h Hh].
    destruct (lookup_lt_is_Some_2 ls k ltac:(lia)) as [l Hl].
    destruct (sar_body_step p (map Fin hs) (map Fin ls) st k (Fin h) (Fin l))
      as (st1 & Hb & Ht & Hcols);
      [now rewrite list_lookup_fmap, Hh | now rewrite list_lookup_fmap, Hl |].
    destruct (trend_step_finite p (trend_of st) h l Hfin) as [Hfin1 _].
    rewrite <- Ht in Hfin1.
    destruct (IH (S k) st1 ltac:(lia) Hfin1) as (st' & Hrun & Hfin' & Hlr & Hlf & Hfr).
    exists st'. cbn [seq for_each]. rewrite Hb. cbn [mbind result_bind].
    assert (Hlen1 : length (r_sar st1) = length (r_sar st)
                    /\ length (f_sar st1) = length (f_sar st)).
    { destruct (up st); destruct Hcols as (-> & -> & _);
        rewrite length_insert; split; reflexivity. }
    assert (Hfr1 : forall j, j <> k ->
              r_sar st1 !! j = r_sar st !! j /\ f_sar st1 !! j = f_sar st !! j).
    { intros j Hj. destruct (up st); destruct Hcols as (-> & -> & _);
        rewrite list_lookup_insert_ne by congruence; split; reflexivity. }
    destruct Hlen1 as [Hl1 Hl2].
    split; [exact Hrun|]. split; [exact Hfin'|].
    split; [congruence|]. split; [congruence|].
    intros j Hj. destruct (Hfr j ltac:(lia)) as [-> ->]. apply Hfr1. lia.
Qed.

Lemma zeros_lookup (n i : nat) : (i < n)%nat -> zeros n !! i = Some fzero.
Proof. intros H. unfold zeros. apply lookup_replicate_2, H. Qed.

Definition finite_at (col : list fval) (i : nat) : Prop :=
  exists q, col !! i = Some (Fin q).

Lemma sar_start_finite (p : sar_params) (h0 l0 : Q) (hs ls : list Q) :
  exists st0,
    sar_start p (map Fin (h0 :: hs)) (map Fin (l0 :: ls)) = Ok st0 /\
    finite_trend (trend_of st0) /\
    r_sar st0 = zeros (S (length hs)) /\ f_sar st0 = zeros (S (length hs)).
Proof.
  eexists. split; [reflexivity|]. cbn. rewrite length_map.
  repeat split; eexists; reflexivity.
Qed.

(** The loop reaches bar [i] in some state, writes the bar's stop into the
    column of the phase of that state, and no later iteration touches
    position [i]. *)
Lemma sar_bar_columns (p : sar_params) (hs ls : list Q) (i : nat) :
  length hs = length ls -> (1 <= i < length hs)%nat ->
  exists st st_n,
    sar_before p (map Fin hs) (map Fin ls) i = Ok st /\
    sar_before p (map Fin hs) (map Fin ls) (length (map Fin hs)) = Ok st_n /\
    if up st
    then finite_at (r_sar st_n) i /\ f_sar st_n !! i = Some fzero
    else finite_at (f_sar st_n) i /\ r_sar st_n !! i = Some fzero.
Proof.
  intros Hlen Hi. unfold sar_before.
  destruct hs as [|h0 hs']; [cbn in Hi; lia|].
  destruct ls as [|l0 ls']; [discriminate|].
  destruct (sar_start_finite p h0 l0 hs' ls') as (st0 & -> & Hfin0 & Hr0 & Hf0).
  cbn [mbind result_bind]. rewrite length_map. cbn [length] in *.
  set (body := sar_body p (map Fin (h0 :: hs')) (map Fin (l0 :: ls'))).
  (* the iterations before bar i *)
  destruct (sar_loop_frame p (h0 :: hs') (l0 :: ls') Hlen (i - 1) 1 st0)
    as (st & Hrun1 & Hfin1 & Hlr1 & Hlf1 & Hfr1); [cbn; lia | exact Hfin0 |].
  fold body in Hrun1.
  destruct (Hfr1 i ltac:(lia)) as [Hri Hfi].
  rewrite Hr0, zeros_lookup in Hri by lia. rewrite Hf0, zeros_lookup in Hfi by lia.
  (* the iteration at bar i *)
  destruct (lookup_lt_is_Some_2 (h0 :: hs') i ltac:(cbn; lia)) as [h Hh].
  destruct (lookup_lt_is_Some_2 (l0 :: ls') i ltac:(cbn; lia)) as [l Hl].
  destruct (sar_body_step p (map Fin (h0 :: hs')) (map Fin (l0 :: ls')) st i (Fin h) (Fin l))
    as (st1 & Hb & Ht & Hcols);
    [now rewrite list_lookup_fmap, Hh | now rewrite list_lookup_fmap, Hl |].
  fold body in Hb.
  destruct (trend_step_finite p (trend_of st) h l Hfin1) as [Hfin2 Hout].
  rewrite <- Ht in Hfin2. change (rising (trend_of st)) with (up st) in Hout.
  (* the iterations after bar i *)
  destruct (sar_loop_frame p (h0 :: hs') (l0 :: ls') Hlen (length hs' - i) (S i) st1)
    as (st_n & Hrun2 & _ & _ & _ & Hfr2); [cbn; lia | exact Hfin2 |].
  fold body in Hrun2.
  destruct (Hfr2 i ltac:(lia)) as [Hrn Hfn].
  exists st, st_n. split; [exact Hrun1|]. split.
  - replace (S (length hs') - 1)%nat with ((i - 1) + S (length hs' - i))%nat by lia.
    rewrite seq_app, for_each_app, Hrun1. cbn [mbind result_bind].
    replace (1 + (i - 1))%nat with i by lia.
    cbn [seq for_each]. rewrite Hb. cbn [mbind result_bind]. exact Hrun2.
  - rewrite Hr0 in Hlr1. rewrite Hf0 in Hlf1. unfold zeros in Hlr1, Hlf1.
    rewrite length_replicate in Hlr1, Hlf1. unfold finite_at.
    destruct (up st); destruct Hcols as (Hw & Hk & _); destruct Hout as [[q Hq] _].
    + rewrite Hrn, Hfn, Hw, Hk, Hq. split; [|exact Hfi].
      exists q. apply list_lookup_insert_eq. lia.
    + rewrite Hrn, Hfn, Hw, Hk, Hq. split; [|exact Hri].
      exists q. apply list_lookup_insert_eq. lia.
Qed.

(** C10. On finite highs and lows, at every bar after the first the phase
    active when the loop reaches the bar has a finite stop in its column and
    the other column holds exactly zero there; at no bar (the first
    included) do both columns hold a nonzero entry. *)
Theorem parabolic_sar_one_column (p : sar_params) (hs ls : list Q) :
  length hs = length ls -> hs <> [] ->
  exists r f,
    parabolic_sar p (map Fin hs) (map Fin ls) = Ok (r, f) /\
    (forall i, (1 <= i < length hs)%nat ->
       exists st, sar_before p (map Fin hs) (map Fin ls) i = Ok st /\
         if up st
         then finite_at r i /\ f !! i = Some fzero
         else finite_at f i /\ r !! i = Some fzero) /\
    (forall i, (i < length hs)%nat -> r !! i = Some fzero \/ f !! i = Some fzero).
Proof.
  intros Hlen Hne.
  destruct hs as [|h0 hs']; [congruence|].
  destruct ls as [|l0 ls']; [discriminate|].
  (* the whole run *)
  assert (Hall : exists st_n,
            sar_before p (map Fin (h0 :: hs')) (map Fin (l0 :: ls'))
              (length (map Fin (h0 :: hs'))) = Ok st_n /\
            r_sar st_n !! 0%nat = Some fzero /\ f_sar st_n !! 0%nat = Some fzero).
  { unfold sar_before.
    destruct (sar_start_finite p h0 l0 hs' ls') as (st0 & -> & Hfin0 & Hr0 & Hf0).
    cbn [mbind result_bind].
    destruct (sar_loop_frame p (h0 :: hs') (l0 :: ls') Hlen
                (length (map Fin (h0 :: hs')) - 1) 1 st0)
      as (st_n & Hrun & _ & _ & _ & Hfr); [rewrite length_map; cbn; lia | exact Hfin0 |].
    exists st_n. split; [exact Hrun|].
    destruct (Hfr 0%nat ltac:(lia)) as [-> ->]. rewrite Hr0, Hf0. split; reflexivity. }
  destruct Hall as (st_n & Hn & Hr0 & Hf0).
  exists (r_sar st_n), (f_sar st_n). unfold parabolic_sar. rewrite Hn.
  split; [reflexivity|].
  assert (Hbar : forall i, (1 <= i < length (h0 :: hs'))%nat ->
            exists st, sar_before p (map Fin (h0 :: hs')) (map Fin (l0 :: ls')) i = Ok st /\
              if up st
              then finite_at (r_sar st_n) i /\ f_sar st_n !! i = Some fzero
              else finite_at (f_sar st_n) i /\ r_sar st_n !! i = Some fzero).
  { intros i Hi.
    destruct (sar_bar_columns p (h0 :: hs') (l0 :: ls') i Hlen Hi) as (st & st' & Hb & Hn' & Hc).
    rewrite Hn in Hn'. injection Hn' as <-. exists st. split; assumption. }
  split; [exact Hbar|].
  intros [|i] Hi; [now left|].
  destruct (Hbar (S i) ltac:(lia)) as (st & _ & Hc).
  destruct (up st); destruct Hc as [_ Hz]; [now right | now left].
Qed.

Lemma parabolic_sar_one_column_witness :
  parabolic_sar sar_defaults (map Fin [10; 11; 9; 8]) (map Fin [9; 10; 8; 7])
  = Ok ([Fin 0; Fin (227 # 25); Fin (5723 # 625); Fin 0],
        [Fin 0; Fin 0; Fin 0; Fin (271 # 25)]) /\
  exists r f,
    parabolic_sar sar_defaults (map Fin [10; 11; 9; 8]) (map Fin [9; 10; 8; 7]) = Ok (r, f) /\
    (forall i, (1 <= i < length [10; 11; 9; 8])%nat ->
       exists st, sar_before sar_defaults (map Fin [10; 11; 9; 8]) (map Fin [9; 10; 8; 7]) i
                  = Ok st /\
         if up st
         then finite_at r i /\ f !! i = Some fzero
         else finite_at f i /\ r !! i = Some fzero) /\
    (forall i, (i < length [10; 11; 9; 8])%nat -> r !! i = Some fzero \/ f !! i = Some fzero).
Proof.
  split; [reflexivity|].
  apply (parabolic_sar_one_column sar_defaults [10; 11; 9; 8] [9; 10; 8; 7]).
  - reflexivity.
  - discriminate.
Defined.

(** ** ZigZag: the first bar, the threshold 0 and the threshold 100 *)

(** The marks after a pivot of value [last], bar by bar. *)
Fixpoint marks_after (percent : Q) (last : fval) (xs : list fval) : list fval :=
  match xs with
  | [] => []
  | x :: xs' =>
      if is_pivot percent last x then x :: marks_after percent x xs'
      else NaN :: marks_after percent last xs'
  end.

Lemma zigzag_body_step (percent : Q) (x : list fval) (st : zigzag_state)
    (k : nat) (xi : fval) :
  x !! k = Some xi ->
  zigzag_body percent x st k =
  Ok (if is_pivot percent (lastzig st) xi
      then {| lastzig := xi; zigzag_col := <[k := xi]> (zigzag_col st) |}
      else {| lastzig := lastzig st; zigzag_col := <[k := NaN]> (zigzag_col st) |}).
Proof.
  intros Hxi. unfold zigzag_body. rewrite (item_lookup _ _ _ Hxi).
  cbn [mbind result_bind]. now destruct (is_pivot percent (lastzig st) xi).
Qed.

Lemma zigzag_loop (percent : Q) (x : list fval) :
  forall (m k : nat) (st : zigzag_state) (pre : list fval),
    (k + m)%nat = length x -> length pre = k ->
    zigzag_col st = pre ++ zeros m ->
    exists st',
      for_each (zigzag_body percent x) (seq k m) st = Ok st' /\
      zigzag_col st' = pre ++ marks_after percent (lastzig st) (drop k x).
Proof.
  induction m as [|m IH]; intros k st pre Hk Hpre Hcol.
  - exists st. cbn. rewrite drop_ge by lia. cbn. rewrite Hcol. cbn.
    now rewrite !app_nil_r.
  - destruct (lookup_lt_is_Some_2 x k ltac:(lia)) as [xi Hxi].
    rewrite (drop_S _ _ _ Hxi). cbn [seq for_each marks_after].
    rewrite (zigzag_body_step percent x st k xi Hxi). cbn [mbind result_bind].
    destruct (is_pivot percent (lastzig st) xi).
    + destruct (IH (S k) {| lastzig := xi; zigzag_col := <[k := xi]> (zigzag_col st) |}
                  (pre ++ [xi])) as (st' & Hrun & Hcol'); [lia | | |].
      * rewrite length_app. cbn. lia.
      * cbn. rewrite Hcol. now apply insert_at_end.
      * exists st'. split; [exact Hrun|]. rewrite Hcol'. cbn. now rewrite <- app_assoc.
    + destruct (IH (S k) {| lastzig := lastzig st; zigzag_col := <[k := NaN]> (zigzag_col st) |}
                  (pre ++ [NaN])) as (st' & Hrun & Hcol'); [lia | | |].
      * rewrite length_app. cbn. lia.
      * cbn. rewrite Hcol. now apply insert_at_end.
      * exists st'. split; [exact Hrun|]. rewrite Hcol'. cbn. now rewrite <- app_assoc.
Qed.

(** The loop written as a recursion on the closes. *)
Lemma zigzag_marks_eq (percent : Q) (x0 : fval) (xs : list fval) :
  zigzag_marks percent (x0 :: xs) = Ok (x0 :: marks_after percent x0 xs).
Proof.
  unfold zigzag_marks. cbn [item lookup list_lookup mbind result_bind length].
  destruct (zigzag_loop percent (x0 :: xs) (length xs) 1
              {| lastzig := x0; zigzag_col := <[0%nat := x0]> (zeros (S (length xs))) |}
              [x0]) as (st' & Hrun & Hcol); try reflexivity.
  replace (S (length xs) - 1)%nat with (length xs) by lia.
  rewrite Hrun. cbn [mbind result_bind mret result_ret]. now rewrite Hcol.
Qed.

Lemma threshold_finite (percent : Q) :
  fdiv (Fin percent) (Fin 100) = Fin (Qred (percent / 100)).
Proof. apply fdiv_finite. discriminate. Qed.

(** The relative move of a bar with a nonzero close, as a rational. *)
Lemma is_pivot_finite (percent a x : Q) :
  ~ x == 0 ->
  is_pivot percent (Fin a) (Fin x) = Qltb (percent / 100) (Qabs ((a - x) / x)).
Proof.
  intros Hx. unfold is_pivot, fgtb. rewrite threshold_finite. cbn [fsub].
  rewrite (fdiv_finite _ _ Hx). cbn [fabs fltb].
  destruct (Qltb (percent / 100) (Qabs ((a - x) / x))) eqn:T.
  - apply Qltb_lt. apply Qltb_lt in T. now rewrite !Qred_correct.
  - apply Qltb_ge. apply Qltb_ge in T. now rewrite !Qred_correct.
Qed.

(** With the threshold 0 a bar is a pivot exactly when its close differs
    from the last pivot. *)
Lemma is_pivot_zero (a x : Q) :
  is_pivot 0 (Fin a) (Fin x) = negb (Qeq_bool a x).
Proof.
  destruct (Qeq_dec x 0) as [Hx | Hx].
  - unfold is_pivot, fgtb. rewrite threshold_finite. cbn [fsub fdiv].
    assert (Hx' : Qeq_bool x 0 = true) by now apply Qeq_bool_iff.
    rewrite Hx'. destruct (Qeq_bool a x) eqn:E.
    + apply Qeq_bool_iff in E.
      assert (Hz : Qeq_bool (Qred (a - x)) 0 = true).
      { apply Qeq_bool_iff. rewrite Qred_correct, E. ring. }
      now rewrite Hz.
    + assert (Hz : Qeq_bool (Qred (a - x)) 0 = false).
      { apply Qeq_bool_false. rewrite Qred_correct. intros H.
        apply Qeq_bool_neq in E. apply E. lra. }
      rewrite Hz. now destruct (Qltb 0 (Qred (a - x))).
  - rewrite (is_pivot_finite 0 a x Hx). destruct (Qeq_bool a x) eqn:E; cbn [negb].
    + apply Qeq_bool_iff in E. apply Qltb_ge.
      assert (H0 : (a - x) / x == 0) by (rewrite E; field; exact Hx).
      rewrite H0. discriminate.
    + apply Qeq_bool_neq in E. apply Qltb_lt.
      assert (Hn : ~ (a - x) / x == 0).
      { intros H. apply E. apply (Qmult_inj_r _ _ x Hx).
        assert (H1 : (a - x) / x * x == a - x) by (field; exact Hx).
        rewrite H in H1. lra. }
      assert (H0 : 0 / 100 == 0) by reflexivity. rewrite H0.
      apply Qabs_case; intros Hs; lra.
Qed.

(** With the threshold 100 a positive close that is at least half the last
    pivot is no pivot. *)
Lemma is_pivot_hundred (a x : Q) :
  0 < a -> a <= 2 * x -> is_pivot 100 (Fin a) (Fin x) = false.
Proof.
  intros Ha Hx.
  assert (Hpos : 0 < x) by lra.
  assert (Hne : ~ x == 0) by lra.
  rewrite (is_pivot_finite 100 a x Hne). apply Qltb_ge.
  assert (H1 : 100 / 100 == 1) by reflexivity. rewrite H1.
  apply Qabs_Qle_condition. split.
  - apply Qle_shift_div_l; [exact Hpos | lra].
  - apply Qle_shift_div_r; [exact Hpos | lra].
Qed.

(** Interpolation keeps the first value, present or not. *)
Lemma interpolate_from_missing_head (gap : nat) (s : list fval) :
  interpolate_from None (S gap) s !! 0%nat = Some NaN.
Proof.
  revert gap. induction s as [|x s IH]; intros gap; cbn; [reflexivity|].
  destruct (is_nan x); [apply IH | reflexivity].
Qed.

Lemma interpolate_head (x0 : fval) (s : list fval) :
  interpolate (x0 :: s) !! 0%nat = Some x0.
Proof.
  unfold interpolate. cbn. destruct x0; cbn; try reflexivity.
  apply interpolate_from_missing_head.
Qed.

Lemma interpolate_from_length (prev : option fval) (gap : nat) (s : list fval) :
  length (interpolate_from prev gap s) = (gap + length s)%nat.
Proof.
  revert prev gap. induction s as [|x s IH]; intros prev gap; cbn.
  - rewrite length_replicate. lia.
  - destruct (is_nan x).
    + rewrite IH. lia.
    + rewrite length_app. cbn. rewrite IH.
      destruct prev; cbn; [unfold ramp; rewrite length_map, length_seq | rewrite length_replicate]; lia.
Qed.

(** A series without missing values is left as it is. *)
Lemma interpolate_from_finite (prev : option fval) (qs : list Q) :
  interpolate_from prev 0 (map Fin qs) = map Fin qs.
Proof.
  revert prev. induction qs as [|q qs IH]; intros prev; cbn; [reflexivity|].
  rewrite IH. now destruct prev.
Qed.

(** Missing values after the last present one repeat it. *)
Lemma interpolate_from_trailing (a : fval) (gap n : nat) :
  interpolate_from (Some a) gap (replicate n NaN) = replicate (gap + n) a.
Proof.
  revert gap. induction n as [|n IH]; intros gap; cbn.
  - now rewrite Nat.add_0_r.
  - rewrite IH. f_equal. lia.
Qed.

Example interpolate_between :
  interpolate [NaN; Fin 1; NaN; NaN; Fin 4; NaN] = [NaN; Fin 1; Fin 2; Fin 3; Fin 4; Fin 4].
Proof. reflexivity. Qed.

(** No two consecutive closes are equal. *)
Definition no_repeat (qs : list Q) : Prop :=
  forall i a b, qs !! i = Some a -> qs !! S i = Some b -> ~ a == b.

Lemma marks_after_zero (a : Q) (qs : list Q) :
  no_repeat (a :: qs) -> marks_after 0 (Fin a) (map Fin qs) = map Fin qs.
Proof.
  revert a. induction qs as [|q qs IH]; intros a Hnr; cbn; [reflexivity|].
  rewrite is_pivot_zero.
  rewrite (Qeq_bool_false a q (Hnr 0%nat a q eq_refl eq_refl)). cbn [negb].
  f_equal. apply IH. intros i u v Hu Hv. exact (Hnr (S i) u v Hu Hv).
Qed.

Lemma marks_after_hundred (a : Q) (qs : list Q) :
  0 < a -> Forall (fun q => a <= 2 * q) qs ->
  marks_after 100 (Fin a) (map Fin qs) = replicate (length qs) NaN.
Proof.
  intros Ha Hqs. induction Hqs as [|q qs Hq _ IH]; cbn; [reflexivity|].
  rewrite (is_pivot_hundred a q Ha Hq). f_equal. exact IH.
Qed.

(** C7, as the code has it. The first output is the first close, whatever
    the threshold.  With the threshold 0 every bar is a pivot, and the output
    is the close series, when no close repeats the close before it.  With the
    threshold 100 only the first bar is a pivot, and every other bar is
    filled with the first close, when the first close is positive and no
    later close is below half of it. *)
Theorem zigzag_first_bar_and_thresholds :
  (forall (percent : Q) (x0 : fval) (xs : list fval),
     exists out, zigzag percent (x0 :: xs) = Ok out /\
       out !! 0%nat = Some x0 /\ length out = S (length xs)) /\
  (forall (qs : list Q), qs <> [] -> no_repeat qs ->
     zigzag_marks 0 (map Fin qs) = Ok (map Fin qs) /\
     zigzag 0 (map Fin qs) = Ok (map Fin qs)) /\
  (forall (q0 : Q) (qs : list Q), 0 < q0 -> Forall (fun q => q0 <= 2 * q) qs ->
     zigzag_marks 100 (map Fin (q0 :: qs)) = Ok (Fin q0 :: replicate (length qs) NaN) /\
     zigzag 100 (map Fin (q0 :: qs)) = Ok (replicate (S (length qs)) (Fin q0))).
Proof.
  split; [|split].
  - intros percent x0 xs. unfold zigzag. rewrite zigzag_marks_eq.
    cbn [mbind result_bind mret result_ret]. eexists. split; [reflexivity|]. split.
    + apply interpolate_head.
    + unfold interpolate. rewrite interpolate_from_length. cbn.
      f_equal. clear. revert x0. induction xs as [|x xs IH]; intros x0; cbn; [reflexivity|].
      destruct (is_pivot percent x0 x); cbn; now rewrite IH.
  - intros [|q0 qs] Hne Hnr; [congruence|].
    assert (Hm : zigzag_marks 0 (map Fin (q0 :: qs)) = Ok (map Fin (q0 :: qs))).
    { cbn [map]. rewrite zigzag_marks_eq. now rewrite marks_after_zero. }
    split; [exact Hm|]. unfold zigzag. rewrite Hm.
    cbn [mbind result_bind mret result_ret]. unfold interpolate.
    now rewrite interpolate_from_finite.
  - intros q0 qs Hq0 Hqs.
    assert (Hm : zigzag_marks 100 (map Fin (q0 :: qs))
                 = Ok (Fin q0 :: replicate (length qs) NaN)).
    { cbn [map]. rewrite zigzag_marks_eq. now rewrite marks_after_hundred. }
    split; [exact Hm|]. unfold zigzag. rewrite Hm.
    cbn [mbind result_bind mret result_ret]. unfold interpolate.
    cbn [interpolate_from is_nan fill_gap replicate app].
    now rewrite interpolate_from_trailing.
Qed.

Lemma zigzag_first_bar_and_thresholds_witness :
  zigzag 0 (map Fin [1; 3; 2]) = Ok (map Fin [1; 3; 2]) /\
  zigzag 100 (map Fin [4; 2; 9]) = Ok (replicate 3 (Fin 4)).
Proof.
  destruct zigzag_first_bar_and_thresholds as (_ & Hzero & Hhundred). split.
  - apply (Hzero [1; 3; 2]); [discriminate|].
    intros [|[|[|i]]] a b Ha Hb; cbn in Ha, Hb; try discriminate;
      injection Ha as <-; injection Hb as <-; discriminate.
  - apply (Hhundred 4 [2; 9]); [reflexivity|].
    repeat constructor; discriminate.
Defined.

(** C7 as the specification states it fails: with the threshold 0 a close
    that repeats the last pivot is no pivot and is interpolated away, and
    with the threshold 100 a close below half the last pivot is a pivot. *)
Lemma zigzag_thresholds_counterexample :
  zigzag_marks 0 (map Fin [1; 1; 2]) = Ok [Fin 1; NaN; Fin 2] /\
  zigzag 0 (map Fin [1; 1; 2]) = Ok [Fin 1; Fin (3 # 2); Fin 2] /\
  zigzag 0 (map Fin [1; 1; 2]) <> Ok (map Fin [1; 1; 2]) /\
  zigzag_marks 100 (map Fin [3; 1]) = Ok [Fin 3; Fin 1].
Proof. repeat split; try reflexivity. discriminate. Qed.

(** ** RSI: what the two average series hold *)

Lemma set_item_ok (s : list fval) (i : nat) (v : fval) :
  (i < length s)%nat -> set_item s i v = Ok (<[i := v]> s).
Proof. intros H. unfold set_item. now rewrite decide_True. Qed.

(** The value one step of the smoothing loop writes at bar [i]. *)
Definition smoothed_at (n : nat) (avg value : list fval) (i : nat) : Prop :=
  exists prev v, avg !! (i - 1)%nat = Some prev /\ value !! i = Some v
    /\ avg !! i = Some (smooth n prev v).

Lemma rsi_body_step (n : nat) (gain loss ag al : list fval) (k : nat) :
  (0 < k)%nat -> (k < length gain)%nat -> length loss = length gain ->
  length ag = length gain -> length al = length gain ->
  exists pg g pl l,
    ag !! (k - 1)%nat = Some pg /\ gain !! k = Some g /\
    al !! (k - 1)%nat = Some pl /\ loss !! k = Some l /\
    rsi_body n gain loss (ag, al) k
    = Ok (<[k := smooth n pg g]> ag, <[k := smooth n pl l]> al).
Proof.
  intros Hk0 Hk Hll Hag Hal.
  destruct (lookup_lt_is_Some_2 ag (k - 1) ltac:(lia)) as [pg Hpg].
  destruct (lookup_lt_is_Some_2 al (k - 1) ltac:(lia)) as [pl Hpl].
  destruct (lookup_lt_is_Some_2 gain k ltac:(lia)) as [g Hg].
  destruct (lookup_lt_is_Some_2 loss k ltac:(lia)) as [l Hl].
  exists pg, g, pl, l. repeat (split; [assumption|]).
  unfold rsi_body.
  rewrite (item_lookup _ _ _ Hpg), (item_lookup _ _ _ Hg). cbn [mbind result_bind].
  rewrite set_item_ok by lia. cbn [mbind result_bind].
  rewrite (item_lookup _ _ _ Hpl), (item_lookup _ _ _ Hl). cbn [mbind result_bind].
  rewrite set_item_ok by lia. reflexivity.
Qed.

(** The iterations [k ..] of the smoothing loop: they never raise, leave the
    bars before [k] alone and write at each bar the smoothing of the bar
    before it. *)
Lemma rsi_loop (n : nat) (gain loss : list fval) :
  length loss = length gain ->
  forall (m k : nat) (ag al : list fval),
    (0 < k)%nat -> (k + m)%nat = length gain ->
    length ag = length gain -> length al = length gain ->
    exists ag' al',
      for_each (rsi_body n gain loss) (seq k m) (ag, al) = Ok (ag', al') /\
      length ag' = length gain /\ length al' = length gain /\
      (forall j, (j < k)%nat -> ag' !! j = ag !! j /\ al' !! j = al !! j) /\
      (forall i, (k <= i < length gain)%nat ->
         smoothed_at n ag' gain i /\ smoothed_at n al' loss i).
Proof.
  intros Hll m. induction m as [|m IH]; intros k ag al Hk0 Hk Hag Hal.
  - exists ag, al. cbn. repeat split; try assumption; lia.
  - destruct (rsi_body_step n gain loss ag al k Hk0 ltac:(lia) Hll Hag Hal)
      as (pg & g & pl & l & Hpg & Hg & Hpl & Hl & Hb).
    destruct (IH (S k) (<[k := smooth n pg g]> ag) (<[k := smooth n pl l]> al))
      as (ag' & al' & Hrun & Hag' & Hal' & Hfr & Hsm);
      try lia; try (now rewrite length_insert).
    exists ag', al'. cbn [seq for_each]. rewrite Hb. cbn [mbind result_bind].
    split; [exact Hrun|]. split; [exact Hag'|]. split; [exact Hal'|]. split.
    + intros j Hj. destruct (Hfr j ltac:(lia)) as [-> ->].
      rewrite !list_lookup_insert_ne by lia. split; reflexivity.
    + intros i Hi. destruct (decide (i = k)) as [-> | Hne]; [|apply Hsm; lia].
      destruct (Hfr k ltac:(lia)) as [Ek1 Ek2].
      destruct (Hfr (k - 1)%nat ltac:(lia)) as [Ep1 Ep2].
      rewrite list_lookup_insert_eq in Ek1, Ek2 by lia.
      rewrite list_lookup_insert_ne in Ep1, Ep2 by lia.
      split; [exists pg, g | exists pl, l]; repeat split; congruence.
Qed.

(** The seed written at bar [n]: the sum of the first [n] entries of the
    series, the missing ones skipped, over [n]. *)
Definition seed (n : nat) (value : list fval) : fval :=
  fdiv (nansum (take n value)) (of_nat n).

Lemma gains_length (close : list fval) : length (gains close) = length close.
Proof.
  unfold gains, price_change, shift1.
  rewrite length_map, length_zip_with, length_take. cbn [length]. lia.
Qed.

Lemma losses_length (close : list fval) : length (losses close) = length close.
Proof.
  unfold losses, price_change, shift1.
  rewrite length_map, length_zip_with, length_take. cbn [length]. lia.
Qed.

(** [rsi_averages] on a series with more than [n] bars: the seed at bar [n]
    and the smoothing recursion at every later bar. *)
Lemma rsi_averages_spec (n : nat) (close : list fval) :
  (n < length close)%nat ->
  exists ag al,
    rsi_averages n close = Ok (ag, al) /\
    length ag = length close /\ length al = length close /\
    ag !! n = Some (seed n (gains close)) /\
    al !! n = Some (seed n (losses close)) /\
    (forall i, (n < i < length close)%nat ->
       smoothed_at n ag (gains close) i /\ smoothed_at n al (losses close) i).
Proof.
  intros Hn. unfold rsi_averages.
  pose proof (gains_length close) as Hg. pose proof (losses_length close) as Hl.
  rewrite !set_item_ok by (unfold zeros; rewrite length_replicate; lia).
  cbn [mbind result_bind].
  destruct (rsi_loop n (gains close) (losses close) ltac:(lia)
              (length (gains close) - (n + 1)) (n + 1)
              (<[n := seed n (gains close)]> (zeros (length (gains close))))
              (<[n := seed n (losses close)]> (zeros (length (losses close)))))
    as (ag & al & Hrun & Hag & Hal & Hfr & Hsm);
    try lia; try (rewrite length_insert; unfold zeros; rewrite length_replicate; lia).
  exists ag, al. split; [exact Hrun|].
  split; [lia|]. split; [lia|].
  destruct (Hfr n ltac:(lia)) as [-> ->].
  rewrite !list_lookup_insert_eq by (unfold zeros; rewrite length_replicate; lia).
  split; [reflexivity|]. split; [reflexivity|].
  intros i Hi. apply Hsm. lia.
Qed.

(** ** RSI on finite closes: averages are non-negative numbers *)

Definition nonneg (x : fval) : Prop := exists q, x = Fin q /\ 0 <= q.

Definition nonneg_at (s : list fval) (i : nat) : Prop :=
  exists q, s !! i = Some (Fin q) /\ 0 <= q.

Lemma shift1_lookup_S (s : list fval) (j : nat) :
  (S j < length s)%nat -> shift1 s !! S j = s !! j.
Proof. intros H. unfold shift1. rewrite lookup_take_lt by lia. reflexivity. Qed.

Lemma price_change_later (qs : list Q) (j : nat) (p q : Q) :
  qs !! j = Some p -> qs !! S j = Some q ->
  price_change (map Fin qs) !! S j = Some (Fin (Qred (q - p))).
Proof.
  intros Hp Hq. unfold price_change.
  rewrite lookup_zip_with, shift1_lookup_S.
  - rewrite !list_lookup_fmap, Hp, Hq. reflexivity.
  - rewrite length_map. apply lookup_lt_Some in Hq. exact Hq.
Qed.

Lemma gains_losses_head (q : Q) (qs : list Q) :
  gains (map Fin (q :: qs)) !! 0%nat = Some NaN /\
  losses (map Fin (q :: qs)) !! 0%nat = Some NaN.
Proof. split; reflexivity. Qed.

(** After the first bar every gain and every loss is a non-negative number. *)
Lemma gains_losses_nonneg (qs : list Q) (i : nat) :
  (1 <= i < length qs)%nat ->
  nonneg_at (gains (map Fin qs)) i /\ nonneg_at (losses (map Fin qs)) i.
Proof.
  intros Hi. destruct i as [|j]; [lia|].
  destruct (lookup_lt_is_Some_2 qs j ltac:(lia)) as [p Hp].
  destruct (lookup_lt_is_Some_2 qs (S j) ltac:(lia)) as [q Hq].
  pose proof (price_change_later qs j p q Hp Hq) as Hc.
  unfold nonneg_at, gains, losses. rewrite !list_lookup_fmap, Hc. cbn [fmap option_fmap option_map].
  split.
  - cbn [fltb fzero]. unfold fzero. destruct (Qltb (Qred (q - p)) 0) eqn:E.
    + exists 0. split; [reflexivity | apply Qle_refl].
    + apply Qltb_ge in E. eexists. split; [reflexivity | exact E].
  - unfold fgtb, fzero. cbn [fltb]. destruct (Qltb 0 (Qred (q - p))) eqn:E; cbn [fmul].
    + eexists. split; [reflexivity|]. rewrite Qred_correct. lra.
    + apply Qltb_ge in E. eexists. split; [reflexivity|]. rewrite Qred_correct. lra.
Qed.

Lemma nansum_nonneg (s : list fval) :
  Forall (fun x => x = NaN \/ nonneg x) s -> nonneg (nansum s).
Proof.
  unfold nansum. assert (H0 : nonneg fzero) by (exists 0; split; [reflexivity | apply Qle_refl]).
  revert H0. generalize fzero as acc. induction s as [|x s IH]; intros acc Hacc Hs; [exact Hacc|].
  apply Forall_cons in Hs as [Hx Hs]. cbn [foldl]. apply IH; [|exact Hs].
  destruct Hx as [-> | (q & -> & Hq)]; [exact Hacc|].
  destruct Hacc as (a & -> & Ha). cbn. eexists. split; [reflexivity|].
  rewrite Qred_correct. lra.
Qed.

Lemma of_nat_pos (n : nat) : (1 <= n)%nat -> 0 < inject_Z (Z.of_nat n).
Proof.
  intros H. change 0 with (inject_Z 0). rewrite <- Zlt_Qlt. lia.
Qed.

Lemma fdiv_nat_nonneg (x : fval) (n : nat) :
  (1 <= n)%nat -> nonneg x -> nonneg (fdiv x (of_nat n)).
Proof.
  intros Hn (q & -> & Hq). pose proof (of_nat_pos n Hn) as Hp.
  unfold of_nat. rewrite fdiv_finite by lra.
  eexists. split; [reflexivity|]. rewrite Qred_correct.
  apply Qle_shift_div_l; [exact Hp | lra].
Qed.

Lemma smooth_nonneg (n : nat) (prev v : fval) :
  (1 <= n)%nat -> nonneg prev -> nonneg v -> nonneg (smooth n prev v).
Proof.
  intros Hn Hp Hv. unfold smooth.
  destruct (fdiv_nat_nonneg prev n Hn Hp) as (a & -> & Ha).
  destruct (fdiv_nat_nonneg v n Hn Hv) as (b & -> & Hb).
  unfold of_Z. cbn [fmul fadd]. eexists. split; [reflexivity|].
  rewrite !Qred_correct.
  assert (Hk : 0 <= inject_Z (Z.of_nat n - 1)).
  { change 0 with (inject_Z 0). rewrite <- Zle_Qle. lia. }
  assert (0 <= inject_Z (Z.of_nat n - 1) * a) by (apply Qmult_le_0_compat; assumption).
  lra.
Qed.

(** From the seed bar on, both averages are non-negative numbers. *)
Lemma rsi_averages_nonneg (n : nat) (qs : list Q) :
  (1 <= n)%nat -> (n < length qs)%nat ->
  exists ag al,
    rsi_averages n (map Fin qs) = Ok (ag, al) /\
    length ag = length qs /\ length al = length qs /\
    forall i, (n <= i < length qs)%nat -> nonneg_at ag i /\ nonneg_at al i.
Proof.
  intros Hn Hlen.
  destruct (rsi_averages_spec n (map Fin qs)) as (ag & al & Hrun & Hag & Hal & Hsg & Hsl & Hsm);
    [rewrite length_map; lia|].
  rewrite length_map in *.
  exists ag, al. split; [exact Hrun|]. split; [exact Hag|]. split; [exact Hal|].
  assert (Hall : forall (v : list fval), (forall i, (1 <= i < length qs)%nat -> nonneg_at v i) ->
            v !! 0%nat = Some NaN -> length v = length qs ->
            Forall (fun x => x = NaN \/ nonneg x) (take n v)).
  { intros v Hv H0 Hlv. apply Forall_take. apply Forall_lookup. intros i x Hx.
    destruct i as [|i]; [left; congruence|].
    apply lookup_lt_Some in Hx as Hi.
    destruct (Hv (S i) ltac:(lia)) as (q & Hq & Hq0). right. exists q. split; congruence. }
  destruct qs as [|q0 qs']; [cbn in Hlen; lia|].
  destruct (gains_losses_head q0 qs') as [Hg0 Hl0].
  assert (Hseed_g : nonneg (seed n (gains (map Fin (q0 :: qs'))))).
  { apply fdiv_nat_nonneg; [exact Hn|]. apply nansum_nonneg. apply Hall.
    - intros i Hi. apply gains_losses_nonneg, Hi.
    - exact Hg0.
    - now rewrite gains_length, length_map. }
  assert (Hseed_l : nonneg (seed n (losses (map Fin (q0 :: qs'))))).
  { apply fdiv_nat_nonneg; [exact Hn|]. apply nansum_nonneg. apply Hall.
    - intros i Hi. apply gains_losses_nonneg, Hi.
    - exact Hl0.
    - now rewrite losses_length, length_map. }
  intros i Hi. assert (Hd : exists d, i = (n + d)%nat) by (exists (i - n)%nat; lia).
  destruct Hd as [d ->]. induction d as [|d IH].
  - rewrite Nat.add_0_r. unfold nonneg_at. rewrite Hsg, Hsl.
    destruct Hseed_g as (a & -> & Ha). destruct Hseed_l as (b & -> & Hb).
    split; eexists; (split; [reflexivity | assumption]).
  - destruct (IH ltac:(lia)) as [(a & Ha & Ha0) (b & Hb & Hb0)].
    destruct (Hsm (n + S d)%nat ltac:(lia))
      as [(pg & g & Hpg & Hg & Hsg') (pl & l & Hpl & Hl & Hsl')].
    replace (n + S d - 1)%nat with (n + d)%nat in * by lia.
    destruct (gains_losses_nonneg (q0 :: qs') (n + S d) ltac:(lia))
      as [(g' & Hg' & Hg0') (l' & Hl' & Hl0')].
    assert (Hng : nonneg (smooth n pg g)).
    { apply smooth_nonneg; [exact Hn | exists a; split; congruence | exists g'; split; congruence]. }
    assert (Hnl : nonneg (smooth n pl l)).
    { apply smooth_nonneg; [exact Hn | exists b; split; congruence | exists l'; split; congruence]. }
    unfold nonneg_at. rewrite Hsg', Hsl'.
    destruct Hng as (x & -> & Hx). destruct Hnl as (y & -> & Hy).
    split; eexists; (split; [reflexivity | assumption]).
Qed.

(** The index from the two averages: in range when the average loss is not
    zero; 100 when it is zero and the average gain is not (the quotient is
    plus infinity); not-a-number when both are zero. *)
Lemma rsi_of_averages (g l : Q) :
  0 <= g -> 0 <= l ->
  (~ l == 0 -> exists r, rsi_of (fdiv (Fin g) (Fin l)) = Fin r /\ 0 <= r /\ r <= 100) /\
  (l == 0 -> 0 < g -> rsi_of (fdiv (Fin g) (Fin l)) = Fin 100) /\
  (l == 0 -> g == 0 -> rsi_of (fdiv (Fin g) (Fin l)) = NaN).
Proof.
  intros Hg Hl. split; [|split].
  - intros Hne. assert (Hlp : 0 < l) by lra.
    rewrite (fdiv_finite g l Hne). unfold rsi_of. cbn [fadd].
    assert (Hq : 0 <= g / l) by (apply Qle_shift_div_l; [exact Hlp | lra]).
    assert (Hx : 1 <= Qred (1 + Qred (g / l))) by (rewrite !Qred_correct; lra).
    rewrite fdiv_finite by lra. cbn [fsub]. eexists. split; [reflexivity|].
    rewrite !Qred_correct. rewrite !Qred_correct in Hx.
    assert (H1 : 0 <= 100 / (1 + g / l)) by (apply Qle_shift_div_l; lra).
    assert (H2 : 100 / (1 + g / l) <= 100) by (apply Qle_shift_div_r; lra).
    lra.
  - intros H0 Hgp. unfold rsi_of, fdiv at 2.
    rewrite (proj2 (Qeq_bool_iff l 0) H0), (Qeq_bool_false g 0) by lra.
    rewrite (proj2 (Qltb_lt 0 g) Hgp). reflexivity.
  - intros H0 Hg0. unfold rsi_of, fdiv at 2.
    rewrite (proj2 (Qeq_bool_iff l 0) H0), (proj2 (Qeq_bool_iff g 0) Hg0). reflexivity.
Qed.

(** C2, as the code has it. For finite closes and a window [n >= 1] with a
    seed bar, at each bar from the seed bar on both averages are non-negative
    numbers and the index is a number in [0, 100] when the average loss is
    not zero, exactly 100 when the average loss is zero and the average gain
    is positive, and not-a-number when both averages are zero. *)
Theorem rsi_range_and_zero_loss (n : nat) (qs : list Q) :
  (1 <= n)%nat -> (n < length qs)%nat ->
  exists ag al rsi,
    rsi_averages n (map Fin qs) = Ok (ag, al) /\
    relative_strength_index n (map Fin qs) = Ok rsi /\
    forall i, (n <= i < length qs)%nat ->
      exists g l,
        ag !! i = Some (Fin g) /\ al !! i = Some (Fin l) /\ 0 <= g /\ 0 <= l /\
        (~ l == 0 -> exists r, rsi !! i = Some (Fin r) /\ 0 <= r /\ r <= 100) /\
        (l == 0 -> 0 < g -> rsi !! i = Some (Fin 100)) /\
        (l == 0 -> g == 0 -> rsi !! i = Some NaN).
Proof.
  intros Hn Hlen.
  destruct (rsi_averages_nonneg n qs Hn Hlen) as (ag & al & Hrun & Hag & Hal & Hnn).
  exists ag, al. eexists. split; [exact Hrun|].
  unfold relative_strength_index. rewrite Hrun. cbn [mbind result_bind mret result_ret fst snd].
  split; [reflexivity|].
  intros i Hi. destruct (Hnn i Hi) as [(g & Hg & Hg0) (l & Hl & Hl0)].
  exists g, l. repeat (split; [assumption|]).
  assert (Hv : map rsi_of (zip_with fdiv ag al) !! i
               = Some (rsi_of (fdiv (Fin g) (Fin l)))).
  { rewrite list_lookup_fmap, lookup_zip_with, Hg, Hl. reflexivity. }
  rewrite Hv. destruct (rsi_of_averages g l Hg0 Hl0) as (H1 & H2 & H3).
  split; [|split].
  - intros Hne. destruct (H1 Hne) as (r & -> & Hr). exists r. split; [reflexivity | exact Hr].
  - intros E Hp. now rewrite H2.
  - intros E E'. now rewrite H3.
Qed.

Lemma rsi_range_and_zero_loss_witness :
  relative_strength_index 2 (map Fin [1; 2; 4; 3; 5])
  = Ok [NaN; NaN; Fin 100; Fin (100 # 3); Fin (900 # 11)] /\
  exists ag al rsi,
    rsi_averages 2 (map Fin [1; 2; 4; 3; 5]) = Ok (ag, al) /\
    relative_strength_index 2 (map Fin [1; 2; 4; 3; 5]) = Ok rsi /\
    forall i, (2 <= i < length [1; 2; 4; 3; 5])%nat ->
      exists g l,
        ag !! i = Some (Fin g) /\ al !! i = Some (Fin l) /\ 0 <= g /\ 0 <= l /\
        (~ l == 0 -> exists r, rsi !! i = Some (Fin r) /\ 0 <= r /\ r <= 100) /\
        (l == 0 -> 0 < g -> rsi !! i = Some (Fin 100)) /\
        (l == 0 -> g == 0 -> rsi !! i = Some NaN).
Proof.
  split; [reflexivity|].
  apply (rsi_range_and_zero_loss 2 [1; 2; 4; 3; 5]); cbn; lia.
Defined.

(** C2 as the specification states it fails: on the closes 1, 2, 4 with
    [n = 2] the average loss at the seed bar is zero, and the index there is
    the number 100, not an undefined value. *)
Lemma rsi_zero_loss_counterexample :
  rsi_averages 2 (map Fin [1; 2; 4])
  = Ok ([Fin 0; Fin 0; Fin (1 # 2)], [Fin 0; Fin 0; Fin 0]) /\
  relative_strength_index 2 (map Fin [1; 2; 4]) = Ok [NaN; NaN; Fin 100].
Proof. split; reflexivity. Qed.

(** C8. On the closes 1, 2, 4 with [n = 2] the gains of the first two
    changes are 1 and 2, of mean 3/2; the seed the code writes at bar 2 is
    1/2: the sum runs over the entries 0 and 1 of the gain series, the first
    of which is missing, and the gain of bar 2 itself is never used. *)
Theorem rsi_seed_misses_a_gain :
  gains (map Fin [1; 2; 4]) = [NaN; Fin 1; Fin 2] /\
  rsi_averages 2 (map Fin [1; 2; 4])
  = Ok ([Fin 0; Fin 0; Fin (1 # 2)], [Fin 0; Fin 0; Fin 0]) /\
  seed 2 (gains (map Fin [1; 2; 4])) = Fin (1 # 2) /\
  fdiv (fadd (Fin 1) (Fin 2)) (of_nat 2) = Fin (3 # 2).
Proof. repeat split; reflexivity. Qed.

Lemma smooth_formula (n : nat) (a v : Q) :
  (1 <= n)%nat ->
  smooth n (Fin a) (Fin v)
  = Fin (Qred (((inject_Z (Z.of_nat n) - 1) * a + v) / inject_Z (Z.of_nat n))).
Proof.
  intros Hn. pose proof (of_nat_pos n Hn) as Hp. unfold smooth, of_nat, of_Z.
  rewrite !fdiv_finite by lra. cbn [fmul fadd]. apply Qred_eq.
  rewrite !Qred_correct.
  assert (E : inject_Z (Z.of_nat n - 1) == inject_Z (Z.of_nat n) - 1).
  { unfold Z.sub. rewrite inject_Z_plus, inject_Z_opp. reflexivity. }
  rewrite E. field. lra.
Qed.

(** ** ADX: each entry weighs the two latest values of [dx] *)

(** Whatever the smoothing [ema], the entry of [average_directional_index]
    at a bar is [((n-1) * dx[i-1] + dx[i]) / n], on [dx] itself. *)
Lemma adx_weighs_dx (ema : list fval -> nat -> list fval) (n : nat)
    (high low : list fval) (i : nat) (a b : fval) :
  directional_index ema n high low !! i = Some a ->
  directional_index ema n high low !! S i = Some b ->
  average_directional_index ema n high low !! S i
  = Some (fdiv (fadd (fmul (of_Z (Z.of_nat n - 1)) a) b) (of_nat n)).
Proof.
  intros Ha Hb. unfold average_directional_index, weigh_with_previous.
  rewrite lookup_zip_with, shift1_lookup_S by (apply lookup_lt_Some in Hb; exact Hb).
  rewrite Ha, Hb. reflexivity.
Qed.

(** C6. On four bars with [n = 2] the series [dx] is -, 1, 1/5, 7/19 and the
    code returns 27/95 at the last bar, the weighing of [dx[2]] and [dx[3]];
    the recursion on the returned series itself, from [adx[2] = 3/5], would
    give 46/95. *)
Theorem adx_is_not_recursive :
  directional_index ema_model 2 (map Fin [10; 12; 11; 13]) (map Fin [9; 10; 8; 11])
  = [NaN; Fin 1; Fin (1 # 5); Fin (7 # 19)] /\
  average_directional_index ema_model 2 (map Fin [10; 12; 11; 13]) (map Fin [9; 10; 8; 11])
  = [NaN; NaN; Fin (3 # 5); Fin (27 # 95)] /\
  fdiv (fadd (fmul (of_Z (2 - 1)) (Fin (3 # 5))) (Fin (7 # 19))) (of_nat 2) = Fin (46 # 95).
Proof. repeat split; reflexivity. Qed.

(** ** The report of a three-bar asset *)

Local Open Scope string_scope.

(** What the initial dictionary holds: the five identifying fields, every
    metric undefined, an empty return table. *)
Lemma initial_stats_fields (self : asset) (start end_ : Z) (risk_free : fval) :
  let stats := initial_stats self start end_ risk_free in
  stats !! "name" = Some (SName (symbol self)) /\
  stats !! "start" = Some (STime start) /\
  stats !! "end" = Some (STime end_) /\
  stats !! "market_cap" = Some (SNum (market_cap self)) /\
  stats !! "yearly_risk_free_return" = Some (SNum risk_free) /\
  stats !! "return_table" = Some (STable ∅) /\
  Forall (fun k => stats !! k = Some (SNum NaN)) metric_fields.
Proof.
  cbv zeta. repeat split; try (vm_compute; reflexivity).
  unfold metric_fields. repeat constructor; vm_compute; reflexivity.
Qed.

Lemma initial_stats_keys (self : asset) (start end_ : Z) (risk_free : fval) :
  dom (initial_stats self start end_ risk_free)
  = list_to_set (["name"; "start"; "end"; "market_cap"; "yearly_risk_free_return"]
                 ++ metric_fields ++ ["return_table"]).
Proof.
  unfold initial_stats. rewrite dom_list_to_map_L. f_equal.
Qed.

(** C4. On an asset of exactly three daily bars, with a return helper that
    yields no more returns than it is given prices, [calc_stats] returns
    without raising the dictionary it started from: name, start, end, market
    cap and risk-free rate are set, each of the forty metric fields is
    not-a-number, the return table is empty, and there is no other key. *)
Theorem calc_stats_three_bars (L : pandas) (U : util) (self : asset) (risk_free : fval) :
  length (close self) = 3%nat ->
  (forall s, (length (calc_returns U s) <= length s)%nat) ->
  exists start end_ stats,
    index (close self) !! 0%nat = Some start /\
    index (close self) !! 2%nat = Some end_ /\
    calc_stats L U self risk_free = Ok stats /\
    stats !! "name" = Some (SName (symbol self)) /\
    stats !! "start" = Some (STime start) /\
    stats !! "end" = Some (STime end_) /\
    stats !! "market_cap" = Some (SNum (market_cap self)) /\
    stats !! "yearly_risk_free_return" = Some (SNum risk_free) /\
    stats !! "return_table" = Some (STable ∅) /\
    Forall (fun k => stats !! k = Some (SNum NaN)) metric_fields /\
    dom stats = list_to_set (["name"; "start"; "end"; "market_cap"; "yearly_risk_free_return"]
                             ++ metric_fields ++ ["return_table"]).
Proof.
  intros Hlen Hret. pose proof (Hret (close self)) as Hr. rewrite Hlen in Hr.
  destruct (close self) as [|[t0 c0] [|[t1 c1] [|[t2 c2] [|? ?]]]] eqn:Hclose;
    try discriminate.
  exists t0, t2, (initial_stats self t0 t2 risk_free).
  split; [reflexivity|]. split; [reflexivity|]. split.
  - unfold calc_stats. rewrite Hclose.
    cbn [index map fst item lookup list_lookup length mbind result_bind].
    assert (Hend : item_back [t0; t1; t2] 1 = Ok t2).
    { unfold item_back. rewrite decide_True by (cbn; lia). reflexivity. }
    rewrite Hend. cbn [mbind result_bind].
    rewrite decide_False by lia. rewrite decide_True by lia. reflexivity.
  - pose proof (initial_stats_fields self t0 t2 risk_free) as H. cbv zeta in H.
    destruct H as (H1 & H2 & H3 & H4 & H5 & H6 & H7).
    repeat (split; [assumption|]). apply initial_stats_keys.
Qed.

(** ** The return table and its thirteenth month *)

Lemma bind_Ok {A B : Type} (r : result A) (k : A -> result B) (b : B) :
  r ≫= k = Ok b -> exists a, r = Ok a /\ k a = Ok b.
Proof. destruct r as [a|e]; cbn; [eauto | discriminate]. Qed.

(** No month of a table is the thirteenth yet. *)
Definition months_only (table : gmap Z (gmap nat fval)) : Prop :=
  forall y months, table !! y = Some months -> months !! 13%nat = None.

Lemma table_set_months_only (table : gmap Z (gmap nat fval)) (y : Z) (m : nat) (v : fval) :
  m <> 13%nat -> months_only table -> months_only (table_set table y m v).
Proof.
  intros Hm Ht y' months. unfold table_set.
  destruct (decide (y = y')) as [<- | Hne].
  - rewrite lookup_insert_eq. intros [= <-]. rewrite lookup_insert_ne by done.
    destruct (table !! y) as [old|] eqn:E; cbn; [exact (Ht y old E) | apply lookup_empty].
  - rewrite lookup_insert_ne by done. apply Ht.
Qed.

Lemma table_set_keeps_years (table : gmap Z (gmap nat fval)) (y y' : Z) (m : nat) (v : fval) :
  is_Some (table !! y') -> is_Some (table_set table y m v !! y').
Proof.
  intros H. unfold table_set. destruct (decide (y = y')) as [<- | Hne].
  - rewrite lookup_insert_eq. eauto.
  - now rewrite lookup_insert_ne by done.
Qed.

Section Table.

Variable L : pandas.
Variable U : util.
Hypothesis calendar_months : forall t, month L t <> 13%nat.

Lemma table_fold_months_only (mr : series) (table : gmap Z (gmap nat fval)) :
  months_only table ->
  months_only
    (foldl (fun table mi => table_set table (year L (fst mi)) (month L (fst mi)) (snd mi))
           table mr).
Proof.
  revert table. induction mr as [|mi mr IH]; intros table Ht; cbn; [exact Ht|].
  apply IH, table_set_months_only; [apply calendar_months | exact Ht].
Qed.

Lemma table_fold_years (mr : series) (table : gmap Z (gmap nat fval)) (mi : Z * fval) :
  mi ∈ mr \/ is_Some (table !! year L (fst mi)) ->
  is_Some
    (foldl (fun table mi => table_set table (year L (fst mi)) (month L (fst mi)) (snd mi))
           table mr !! year L (fst mi)).
Proof.
  revert table. induction mr as [|mj mr IH]; intros table [Hin | Hsome]; cbn.
  - inversion Hin.
  - exact Hsome.
  - apply IH. apply elem_of_cons in Hin as [-> | Hin]; [right | now left].
    unfold table_set. rewrite lookup_insert_eq. eauto.
  - apply IH. right. now apply table_set_keeps_years.
Qed.

(** The table [return_table] builds: every year of a monthly return is in
    it, and in every year the entry of month 13 compounds the other entries
    of the year. *)
Lemma return_table_spec (daily_price monthly_price mr : series)
    (table : gmap Z (gmap nat fval)) :
  return_table L daily_price monthly_price mr = Ok table ->
  (forall mi, mi ∈ mr -> is_Some (table !! year L (fst mi))) /\
  (forall y months, table !! y = Some months ->
     months !! 13%nat = Some (compound (map snd (map_to_list (delete 13%nat months))))).
Proof.
  unfold return_table. intros H.
  apply bind_Ok in H as (fidx & _ & H). apply bind_Ok in H as (m0 & _ & H).
  apply bind_Ok in H as (d0 & _ & H). injection H as <-.
  set (built := foldl _ ∅ mr).
  assert (Hmo : months_only (table_set built (year L fidx) (month L fidx) (growth m0 d0))).
  { apply table_set_months_only; [apply calendar_months|].
    apply table_fold_months_only. intros y months Hy. now rewrite lookup_empty in Hy. }
  split.
  - intros mi Hmi. rewrite lookup_fmap. apply fmap_is_Some.
    apply table_set_keeps_years. apply table_fold_years. now left.
  - intros y months. rewrite lookup_fmap. intros Hy.
    apply fmap_Some in Hy as (months0 & Hy0 & ->).
    unfold year_to_date. rewrite lookup_insert_eq.
    now rewrite (delete_insert_id _ _ _ (Hmo y months0 Hy0)).
Qed.

End Table.

Ltac bind_inv H :=
  repeat (let a := fresh "a" in let E := fresh "E" in
          apply bind_Ok in H as (a & E & H)).

Ltac keeps_table H :=
  cbv zeta in H; bind_inv H; injection H as <-;
  rewrite !lookup_insert_ne by done; reflexivity.

Section Report.

Variable L : pandas.
Variable U : util.

Lemma daily_stats_keeps_table (rf : fval) (daily_price r : series)
    (stats stats' : gmap string stat) :
  daily_stats L U rf daily_price r stats = Ok stats' ->
  stats' !! "return_table" = stats !! "return_table".
Proof. unfold daily_stats. intros H. keeps_table H. Qed.

Lemma yearly_stats_keeps_table (rf : fval) (daily_price monthly_price yearly_price yr : series)
    (stats stats' : gmap string stat) :
  yearly_stats L U rf daily_price monthly_price yearly_price yr stats = Ok stats' ->
  stats' !! "return_table" = stats !! "return_table".
Proof. unfold yearly_stats. intros H. keeps_table H. Qed.

Lemma monthly_stats_sets_table (rf : fval) (daily_price monthly_price mr : series)
    (stats stats' : gmap string stat) :
  monthly_stats L U rf daily_price monthly_price mr stats = Ok stats' ->
  exists table,
    return_table L daily_price monthly_price mr = Ok table /\
    stats' !! "return_table" = Some (STable table).
Proof.
  unfold monthly_stats. intros H. cbv zeta in H.
  apply bind_Ok in H as (last & _ & H). apply bind_Ok in H as (prev & _ & H).
  apply bind_Ok in H as (table & Ht & H). injection H as <-.
  exists table. split; [exact Ht|]. apply lookup_insert_eq.
Qed.

(** The return table of a report: the empty one it started with when
    [calc_stats] returned before the monthly tier, else the table built
    from the monthly returns; no later tier touches it. *)
Lemma calc_stats_table (self : asset) (rf : fval) (stats : gmap string stat) :
  calc_stats L U self rf = Ok stats ->
  let monthly_price := resample_last L Monthly (close self) in
  let mr := calc_returns U monthly_price in
  (stats !! "return_table" = Some (STable ∅) /\
   (length (close self) = 1%nat \/ (length (calc_returns U (close self)) < 4)%nat
    \/ (length mr < 2)%nat))
  \/ (exists table,
        (2 <= length mr)%nat /\
        return_table L (close self) monthly_price mr = Ok table /\
        stats !! "return_table" = Some (STable table)).
Proof.
  intros H. cbv zeta. unfold calc_stats in H. cbv zeta in H.
  apply bind_Ok in H as (start & _ & H). apply bind_Ok in H as (end_ & _ & H).
  assert (Hinit : initial_stats self start end_ rf !! "return_table" = Some (STable ∅))
    by apply initial_stats_fields.
  destruct (decide (length (close self) = 1%nat)) as [H1 | H1].
  { injection H as <-. left. split; [exact Hinit | now left]. }
  destruct (decide (length (calc_returns U (close self)) < 4)%nat) as [H4 | H4].
  { injection H as <-. left. split; [exact Hinit | right; now left]. }
  apply bind_Ok in H as (stats1 & Hd & H).
  apply daily_stats_keeps_table in Hd.
  destruct (decide (length (calc_returns U (resample_last L Monthly (close self))) < 2)%nat)
    as [H2 | H2].
  { injection H as <-. left. split; [congruence | right; now right]. }
  apply bind_Ok in H as (stats2 & Hm & H).
  apply monthly_stats_sets_table in Hm as (table & Ht & Hl).
  right. exists table. split; [lia|]. split; [exact Ht|].
  repeat match type of H with
  | (if decide ?P then _ else _) = Ok _ =>
      destruct (decide P); [injection H as <-; rewrite ?lookup_insert_ne by done; exact Hl|]
  | _ ≫= _ = Ok _ =>
      let a := fresh "a" in let E := fresh "E" in apply bind_Ok in H as (a & E & H)
  end.
  - apply yearly_stats_keeps_table in E1. destruct (decide _) in H.
    + injection H as <-. rewrite E1. rewrite ?lookup_insert_ne by done. exact Hl.
    + bind_inv H. injection H as <-. rewrite !lookup_insert_ne by done.
      rewrite E1. rewrite ?lookup_insert_ne by done. exact Hl.
Qed.

End Report.

Lemma simple_returns_length (s : series) : length (simple_returns s) = length s.
Proof.
  unfold simple_returns, toy_pct_change, index, values.
  rewrite length_zip, length_zip_with, length_take, length_app, !length_map. cbn. lia.
Qed.

Lemma toy_month_in_year (t : Z) : toy_month t <> 13%nat.
Proof.
  unfold toy_month.
  assert (0 <= (t mod 360) / 30 < 12)%Z.
  { pose proof (Z.mod_pos_bound t 360 ltac:(lia)) as Hm. split.
    - apply Z.div_pos; lia.
    - apply Z.div_lt_upper_bound; lia. }
  lia.
Qed.

Lemma calc_stats_three_bars_witness :
  exists start end_ stats,
    index [(0%Z, Fin 4); (1%Z, Fin 2); (2%Z, Fin 3)] !! 0%nat = Some start /\
    index [(0%Z, Fin 4); (1%Z, Fin 2); (2%Z, Fin 3)] !! 2%nat = Some end_ /\
    calc_stats toy_pandas toy_util
      (toy_asset [(0%Z, Fin 4); (1%Z, Fin 2); (2%Z, Fin 3)]) (Fin (1 # 100)) = Ok stats /\
    stats !! "name" = Some (SName "TOY") /\
    stats !! "start" = Some (STime start) /\
    stats !! "end" = Some (STime end_) /\
    stats !! "market_cap" = Some (SNum fone) /\
    stats !! "yearly_risk_free_return" = Some (SNum (Fin (1 # 100))) /\
    stats !! "return_table" = Some (STable ∅) /\
    Forall (fun k => stats !! k = Some (SNum NaN)) metric_fields /\
    dom stats = list_to_set (["name"; "start"; "end"; "market_cap"; "yearly_risk_free_return"]
                             ++ metric_fields ++ ["return_table"]).
Proof.
  apply (calc_stats_three_bars toy_pandas toy_util
           (toy_asset [(0%Z, Fin 4); (1%Z, Fin 2); (2%Z, Fin 3)]) (Fin (1 # 100))).
  - reflexivity.
  - intros s. cbn. rewrite simple_returns_length. lia.
Defined.

(** The product the code takes is the product the specification words:
    over returns that are numbers it is the number
    (1 + r1) * ... * (1 + rk) - 1, in whatever order the dictionary yields
    them; a missing return makes it not-a-number. *)
Lemma growth_product_perm (rs rs' : list Q) :
  rs ≡ₚ rs' -> growth_product rs == growth_product rs'.
Proof.
  induction 1 as [|r rs rs' _ IH|r1 r2 rs|rs1 rs2 rs3 _ IH1 _ IH2]; cbn.
  - reflexivity.
  - now rewrite IH.
  - ring.
  - now rewrite IH1.
Qed.

Lemma product_of_numbers (rs : list Q) (acc : Q) :
  exists c, foldl fmul (Fin acc) (map (fun v => fadd v fone) (map Fin rs)) = Fin c /\
    c == acc * growth_product rs.
Proof.
  revert acc. induction rs as [|r rs IH]; intros acc.
  - exists acc. split; [reflexivity|]. cbn. ring.
  - cbn [map foldl growth_product fold_right]. unfold fone at 1. cbn [fadd fmul].
    destruct (IH (Qred (acc * Qred (r + 1)))) as (c & -> & Hc).
    exists c. split; [reflexivity|]. rewrite Hc, !Qred_correct.
    unfold growth_product. ring.
Qed.

Lemma compound_numbers (rs : list Q) :
  exists c, compound (map Fin rs) = Fin c /\ c == compounded rs.
Proof.
  unfold compound, compounded, fone.
  destruct (product_of_numbers rs 1) as (c & Hc & Hprod).
  unfold fone in Hc. rewrite Hc. cbn [fsub].
  eexists. split; [reflexivity|]. rewrite Qred_correct, Hprod. ring.
Qed.

Lemma product_missing (l : list fval) : foldl fmul NaN l = NaN.
Proof. induction l as [|x l IH]; [reflexivity | exact IH]. Qed.

Lemma compound_missing (l : list fval) : NaN ∈ l -> compound l = NaN.
Proof.
  intros Hin. apply list_elem_of_split in Hin as (l1 & l2 & ->).
  unfold compound. rewrite map_app, foldl_app. cbn [map foldl fadd].
  assert (Hnan : forall x, fmul x NaN = NaN) by (intros []; reflexivity).
  now rewrite Hnan, product_missing.
Qed.

(** C5. When a report is returned and the monthly tier was reached (more
    than one daily bar, at least four daily and two monthly returns), its
    return table holds every year of a monthly return, and in every year of
    the table the entry of month 13 is the compounded product of (1 + r)
    over the year's other entries r, minus one: when these are the numbers
    [rs], listed in any order, it is the number
    (1 + r1) * ... * (1 + rk) - 1; when one of them is missing it is
    not-a-number, as a product with a missing factor is. *)
Theorem return_table_thirteenth_month (L : pandas) (U : util) (self : asset)
    (rf : fval) (stats : gmap string stat) :
  (forall t, month L t <> 13%nat) ->
  calc_stats L U self rf = Ok stats ->
  length (close self) <> 1%nat ->
  (4 <= length (calc_returns U (close self)))%nat ->
  (2 <= length (calc_returns U (resample_last L Monthly (close self))))%nat ->
  exists table,
    stats !! "return_table" = Some (STable table) /\
    (forall mi, mi ∈ calc_returns U (resample_last L Monthly (close self)) ->
       is_Some (table !! year L (fst mi))) /\
    (forall y months, table !! y = Some months ->
       (forall rs, map Fin rs ≡ₚ map snd (map_to_list (delete 13%nat months)) ->
          exists c, months !! 13%nat = Some (Fin c) /\ c == compounded rs) /\
       (NaN ∈ map snd (map_to_list (delete 13%nat months)) ->
          months !! 13%nat = Some NaN)).
Proof.
  intros Hcal Hrun H1 H4 H2.
  destruct (calc_stats_table L U self rf stats Hrun) as [[_ Hearly] | (table & _ & Ht & Hl)].
  - destruct Hearly as [? | [? | ?]]; lia.
  - exists table. split; [exact Hl|].
    destruct (return_table_spec L Hcal _ _ _ table Ht) as [Hyears Hslot].
    split; [exact Hyears|]. intros y months Hy. rewrite (Hslot y months Hy). split.
    + intros rs Hrs. symmetry in Hrs.
      apply Permutation_map_inv in Hrs as (rs' & -> & Hperm).
      destruct (compound_numbers rs') as (c & -> & Hc).
      exists c. split; [reflexivity|].
      rewrite Hc. unfold compounded. now rewrite (growth_product_perm rs rs' Hperm).
    + intros Hnan. now rewrite (compound_missing _ Hnan).
Qed.

(** Six month ends in a row, all in year 0. *)
Definition toy_closes_by_month : series :=
  [(0%Z, Fin 4); (29%Z, Fin 2); (59%Z, Fin 3); (89%Z, Fin 5); (119%Z, Fin 4); (149%Z, Fin 6)].

(** Bars in the first four months of year 0 and one in year 1: the months
    in between have no bar. *)
Definition toy_closes : series :=
  [(0%Z, Fin 4); (29%Z, Fin 2); (59%Z, Fin 3); (89%Z, Fin 5); (119%Z, Fin 4); (400%Z, Fin 6)].

Lemma return_table_thirteenth_month_witness :
  exists stats table,
    calc_stats toy_pandas toy_util (toy_asset toy_closes_by_month) (Fin (1 # 100)) = Ok stats /\
    stats !! "return_table" = Some (STable table) /\
    (forall mi, mi ∈ simple_returns (toy_resample Monthly toy_closes_by_month) ->
       is_Some (table !! toy_year (fst mi))) /\
    (forall y months, table !! y = Some months ->
       (forall rs, map Fin rs ≡ₚ map snd (map_to_list (delete 13%nat months)) ->
          exists c, months !! 13%nat = Some (Fin c) /\ c == compounded rs) /\
       (NaN ∈ map snd (map_to_list (delete 13%nat months)) ->
          months !! 13%nat = Some NaN)).
Proof.
  assert (Hok : is_ok (calc_stats toy_pandas toy_util (toy_asset toy_closes_by_month)
                         (Fin (1 # 100))) = true) by (vm_compute; reflexivity).
  destruct (calc_stats toy_pandas toy_util (toy_asset toy_closes_by_month) (Fin (1 # 100)))
    as [stats | e] eqn:E; [|discriminate Hok].
  exists stats.
  destruct (return_table_thirteenth_month toy_pandas toy_util
              (toy_asset toy_closes_by_month) (Fin (1 # 100)) stats toy_month_in_year E)
    as (table & H); [cbn; lia | vm_compute; lia | vm_compute; lia |].
  exists table. split; [reflexivity | exact H].
Defined.

(** The year 0 of that table: the first month holds the move from the first
    daily close to the first month end, and month 13 compounds the year:
    (1 - 1/2) (1 + 1/2) (1 + 2/3) (1 - 1/5) (1 + 1/2) - 1 = 1/2. *)
Example toy_return_table :
  (stats ← calc_stats toy_pandas toy_util (toy_asset toy_closes_by_month) (Fin (1 # 100));
   mret (match stats !! "return_table" with
         | Some (STable table) => map_to_list <$> table !! 0%Z
         | _ => None
         end))
  = Ok (Some [(4%nat, Fin (-1 # 5)); (2%nat, Fin (1 # 2)); (13%nat, Fin (1 # 2));
              (5%nat, Fin (1 # 2)); (3%nat, Fin (2 # 3)); (1%nat, Fin (-1 # 2))]) /\
  compounded [-1 # 2; 1 # 2; 2 # 3; -1 # 5; 1 # 2] == 1 # 2.
Proof. split; [vm_compute; reflexivity | reflexivity]. Qed.

(** A month without a bar is a row of the resampled prices whose value is
    missing; the returns next to it are missing, and so is the compounded
    entry of every year that holds one. *)
Example toy_return_table_with_gaps :
  toy_resample Annual toy_closes = [(359%Z, Fin 4); (719%Z, Fin 6)] /\
  length (toy_resample Monthly toy_closes) = 14%nat /\
  (stats ← calc_stats toy_pandas toy_util (toy_asset toy_closes) (Fin (1 # 100));
   mret (match stats !! "return_table" with
         | Some (STable table) =>
             map (fun ym : Z * gmap nat fval => (fst ym, snd ym !! 13%nat))
                 (map_to_list table)
         | _ => []
         end))
  = Ok [(1%Z, Some NaN); (0%Z, Some NaN)].
Proof. repeat split; vm_compute; reflexivity. Qed.

(** * Further properties of the code *)

(** ** The report on an asset that never falls, and the keys of a report *)

(** X1. The failure of [drawdown_info] on a series that never falls reaches
    [calc_stats]: once the daily tier runs, the whole report raises. *)
Theorem calc_stats_raises_when_never_falling (L : pandas) (U : util) (self : asset)
    (rf : fval) (t0 : Z) (q0 : Q) (rest : list (Z * Q)) :
  close self = map (fun p => (fst p, Fin (snd p))) ((t0, q0) :: rest) ->
  rest <> [] -> 0 < q0 -> never_falls_from q0 (map snd rest) ->
  (4 <= length (calc_returns U (close self)))%nat ->
  calc_stats L U self rf = Raise IndexError.
Proof.
  intros Hclose Hrest Hq0 Hnf Hret.
  pose proof (drawdown_info_never_falls t0 q0 rest Hq0 Hnf) as Hdd.
  rewrite <- Hclose in Hdd.
  assert (Hlen : (2 <= length (close self))%nat).
  { rewrite Hclose. destruct rest; [congruence | cbn; lia]. }
  unfold calc_stats.
  destruct (lookup_lt_is_Some_2 (index (close self)) 0) as [start Hs];
    [unfold index; rewrite length_map; lia|].
  rewrite (item_lookup _ _ _ Hs). cbn [mbind result_bind].
  assert (Hback : forall (A : Type) (l : list A), (1 <= length l)%nat ->
            exists a, item_back l 1 = Ok a).
  { intros A l Hl. unfold item_back. rewrite decide_True by lia.
    destruct (lookup_lt_is_Some_2 l (length l - 1) ltac:(lia)) as [a Ha].
    exists a. now apply item_lookup. }
  destruct (Hback _ (index (close self))) as [end_ ->];
    [unfold index; rewrite length_map; lia|].
  cbn [mbind result_bind].
  rewrite decide_False by lia. rewrite decide_False by lia.
  unfold daily_stats.
  destruct (Hback _ (values (close self))) as [last ->];
    [unfold values; rewrite length_map; lia|].
  destruct (lookup_lt_is_Some_2 (values (close self)) 0) as [first Hf];
    [unfold values; rewrite length_map; lia|].
  rewrite (item_lookup _ _ _ Hf). cbn [mbind result_bind].
  rewrite Hdd. reflexivity.
Qed.

Lemma calc_stats_raises_when_never_falling_witness :
  calc_stats toy_pandas toy_util
    (toy_asset (map (fun p => (fst p, Fin (snd p)))
                    [(0%Z, 1); (1%Z, 2); (2%Z, 3); (3%Z, 3); (4%Z, 5)]))
    (Fin (1 # 100))
  = Raise IndexError.
Proof.
  apply (calc_stats_raises_when_never_falling toy_pandas toy_util _ _ 0%Z 1
           [(1%Z, 2); (2%Z, 3); (3%Z, 3); (4%Z, 5)]).
  - reflexivity.
  - discriminate.
  - reflexivity.
  - cbn. repeat split; discriminate.
  - vm_compute. lia.
Defined.

(** The keys of the dictionary [self.stats]. *)
Definition report_keys : gset string :=
  list_to_set (["name"; "start"; "end"; "market_cap"; "yearly_risk_free_return"]
               ++ metric_fields ++ ["return_table"]).

Lemma insert_report_key (k : string) (v : stat) (stats : gmap string stat) :
  k ∈ report_keys -> dom stats = report_keys -> dom (<[k := v]> stats) = report_keys.
Proof.
  intros Hk Hd. rewrite dom_insert_L, Hd.
  apply subseteq_union_1_L. now apply singleton_subseteq_l.
Qed.

Lemma report_key_dec (k : string) :
  bool_decide (k ∈ (["name"; "start"; "end"; "market_cap"; "yearly_risk_free_return"]
                    ++ metric_fields ++ ["return_table"])%list) = true ->
  k ∈ report_keys.
Proof.
  intros H. apply bool_decide_eq_true in H. unfold report_keys.
  now apply elem_of_list_to_set.
Qed.

Ltac report_key := apply report_key_dec; vm_compute; reflexivity.

Ltac insert_keys :=
  repeat match goal with
  | |- dom (<[_ := _]> _) = report_keys => apply insert_report_key; [report_key|]
  end.

Ltac keeps_keys H Hd :=
  cbv zeta in H; bind_inv H; injection H as <-; insert_keys; exact Hd.

Section ReportKeys.

Variable L : pandas.
Variable U : util.

Lemma daily_stats_keys (rf : fval) (daily_price r : series)
    (stats stats' : gmap string stat) :
  daily_stats L U rf daily_price r stats = Ok stats' ->
  dom stats = report_keys -> dom stats' = report_keys.
Proof. unfold daily_stats. intros H Hd. keeps_keys H Hd. Qed.

Lemma monthly_stats_keys (rf : fval) (daily_price monthly_price mr : series)
    (stats stats' : gmap string stat) :
  monthly_stats L U rf daily_price monthly_price mr stats = Ok stats' ->
  dom stats = report_keys -> dom stats' = report_keys.
Proof. unfold monthly_stats. intros H Hd. keeps_keys H Hd. Qed.

Lemma yearly_stats_keys (rf : fval) (daily_price monthly_price yearly_price yr : series)
    (stats stats' : gmap string stat) :
  yearly_stats L U rf daily_price monthly_price yearly_price yr stats = Ok stats' ->
  dom stats = report_keys -> dom stats' = report_keys.
Proof. unfold yearly_stats. intros H Hd. keeps_keys H Hd. Qed.

End ReportKeys.

(** X2. Whatever tier it stops at, a report that is returned has exactly the
    forty-six keys of the initial dictionary: the tiers overwrite fields and
    never add or drop one. *)
Theorem calc_stats_keys (L : pandas) (U : util) (self : asset) (rf : fval)
    (stats : gmap string stat) :
  calc_stats L U self rf = Ok stats -> dom stats = report_keys.
Proof.
  intros H. unfold calc_stats in H. cbv zeta in H.
  apply bind_Ok in H as (start & _ & H). apply bind_Ok in H as (end_ & _ & H).
  pose proof (initial_stats_keys self start end_ rf) as Hd. fold report_keys in Hd.
  repeat match type of H with
  | (if decide ?P then _ else _) = Ok _ =>
      destruct (decide P); [injection H as <-; insert_keys; exact Hd|]
  | daily_stats _ _ _ _ _ _ ≫= _ = Ok _ =>
      let a := fresh "stats" in let E := fresh "E" in
      apply bind_Ok in H as (a & E & H);
      apply daily_stats_keys in E; [|exact Hd]; clear Hd; rename E into Hd
  | monthly_stats _ _ _ _ _ _ _ ≫= _ = Ok _ =>
      let a := fresh "stats" in let E := fresh "E" in
      apply bind_Ok in H as (a & E & H);
      apply monthly_stats_keys in E; [|exact Hd]; clear Hd; rename E into Hd
  | yearly_stats _ _ _ _ _ _ _ _ ≫= _ = Ok _ =>
      let a := fresh "stats" in let E := fresh "E" in
      apply bind_Ok in H as (a & E & H);
      apply (yearly_stats_keys L U) in E;
        [|insert_keys; exact Hd];
      clear Hd; rename E into Hd
  | _ ≫= _ = Ok _ =>
      let a := fresh "a" in let E := fresh "E" in apply bind_Ok in H as (a & E & H)
  end.
  injection H as <-. insert_keys. exact Hd.
Qed.

Lemma calc_stats_keys_witness :
  exists stats,
    calc_stats toy_pandas toy_util (toy_asset toy_closes) (Fin (1 # 100)) = Ok stats /\
    dom stats = report_keys.
Proof.
  assert (Hok : is_ok (calc_stats toy_pandas toy_util (toy_asset toy_closes) (Fin (1 # 100)))
                = true) by (vm_compute; reflexivity).
  destruct (calc_stats toy_pandas toy_util (toy_asset toy_closes) (Fin (1 # 100)))
    as [stats | e] eqn:E; [|discriminate Hok].
  exists stats. split; [reflexivity|].
  exact (calc_stats_keys toy_pandas toy_util (toy_asset toy_closes) (Fin (1 # 100)) stats E).
Defined.

Local Close Scope string_scope.

(** ** RSI: the window against the length of the series *)

Lemma rsi_averages_before_seed (n : nat) (close : list fval) :
  (n < length close)%nat ->
  exists ag al,
    rsi_averages n close = Ok (ag, al) /\
    length ag = length close /\ length al = length close /\
    forall i, (i < n)%nat -> ag !! i = Some fzero /\ al !! i = Some fzero.
Proof.
  intros Hn. unfold rsi_averages.
  pose proof (gains_length close) as Hg. pose proof (losses_length close) as Hl.
  rewrite !set_item_ok by (unfold zeros; rewrite length_replicate; lia).
  cbn [mbind result_bind].
  destruct (rsi_loop n (gains close) (losses close) ltac:(lia)
              (length (gains close) - (n + 1)) (n + 1)
              (<[n := seed n (gains close)]> (zeros (length (gains close))))
              (<[n := seed n (losses close)]> (zeros (length (losses close)))))
    as (ag & al & Hrun & Hag & Hal & Hfr & _);
    try lia; try (rewrite length_insert; unfold zeros; rewrite length_replicate; lia).
  exists ag, al. split; [exact Hrun|]. split; [lia|]. split; [lia|].
  intros i Hi. destruct (Hfr i ltac:(lia)) as [-> ->].
  rewrite !list_lookup_insert_ne by lia. rewrite !zeros_lookup by lia. split; reflexivity.
Qed.

(** X3. A window that does not fit raises; one that fits yields a series as long
    as the closes whose first [n] entries are not-a-number, whatever the
    closes are: both averages are still zero there and 0/0 is undefined. *)
Theorem rsi_window (n : nat) (close : list fval) :
  ((length close <= n)%nat -> relative_strength_index n close = Raise IndexError) /\
  ((n < length close)%nat ->
   exists rsi, relative_strength_index n close = Ok rsi /\
     length rsi = length close /\
     forall i, (i < n)%nat -> rsi !! i = Some NaN).
Proof.
  split.
  - intros Hn. unfold relative_strength_index, rsi_averages.
    assert (Hset : forall v, set_item (zeros (length (gains close))) n v = Raise IndexError).
    { intros v. unfold set_item. rewrite decide_False; [reflexivity|].
      unfold zeros. rewrite length_replicate, gains_length. lia. }
    rewrite Hset. reflexivity.
  - intros Hn.
    destruct (rsi_averages_before_seed n close Hn) as (ag & al & Hrun & Hag & Hal & Hz).
    unfold relative_strength_index. rewrite Hrun.
    cbn [mbind result_bind mret result_ret fst snd]. eexists. split; [reflexivity|]. split.
    + rewrite length_map, length_zip_with. lia.
    + intros i Hi. destruct (Hz i Hi) as [Hg Hl].
      rewrite list_lookup_fmap, lookup_zip_with, Hg, Hl. reflexivity.
Qed.

Lemma rsi_window_witness :
  relative_strength_index 3 (map Fin [5; 6; 4]) = Raise IndexError /\
  exists rsi, relative_strength_index 2 (map Fin [5; 6; 4]) = Ok rsi /\
    length rsi = 3%nat /\ forall i, (i < 2)%nat -> rsi !! i = Some NaN.
Proof.
  destruct (rsi_window 3 (map Fin [5; 6; 4])) as [Hraise _].
  destruct (rsi_window 2 (map Fin [5; 6; 4])) as [_ Hok].
  split; [apply Hraise; cbn; lia | apply Hok; cbn; lia].
Defined.

(** ** RSI on closes that only rise, only fall, or do not move *)

(** A gain or loss series: undefined at the first bar, then all zero, or
    then all positive. *)
Definition zero_after (v : list fval) : Prop :=
  forall i, (1 <= i < length v)%nat -> v !! i = Some (Fin 0).

Definition positive_after (v : list fval) : Prop :=
  forall i, (1 <= i < length v)%nat -> exists g, v !! i = Some (Fin g) /\ 0 < g.

Lemma nansum_zero (s : list fval) :
  Forall (fun x => x = NaN \/ x = Fin 0) s -> nansum s = Fin 0.
Proof.
  unfold nansum. change fzero with (Fin 0).
  induction 1 as [|x s [-> | ->] _ IH]; cbn; [reflexivity | exact IH | exact IH].
Qed.

Lemma nansum_from_positive (acc : Q) (s : list fval) :
  0 < acc -> Forall (fun x => x = NaN \/ nonneg x) s ->
  exists r, foldl (fun acc x => if is_nan x then acc else fadd acc x) (Fin acc) s = Fin r
            /\ 0 < r.
Proof.
  intros Hacc Hs. revert acc Hacc.
  induction Hs as [|x s Hx _ IH]; intros acc Hacc; cbn; [eauto|].
  destruct Hx as [-> | (q & -> & Hq)]; cbn; [now apply IH|].
  apply IH. rewrite Qred_correct. lra.
Qed.

Lemma nansum_from_nonneg (acc : Q) (s : list fval) (i : nat) (g : Q) :
  0 <= acc -> Forall (fun x => x = NaN \/ nonneg x) s ->
  s !! i = Some (Fin g) -> 0 < g ->
  exists r, foldl (fun acc x => if is_nan x then acc else fadd acc x) (Fin acc) s = Fin r
            /\ 0 < r.
Proof.
  intros Hacc Hs. revert acc Hacc i.
  induction Hs as [|x s Hx Hs IH]; intros acc Hacc i Hi Hg; [discriminate|].
  destruct i as [|i]; cbn in Hi.
  - injection Hi as ->. cbn. apply nansum_from_positive; [|exact Hs].
    rewrite Qred_correct. lra.
  - destruct Hx as [-> | (q & -> & Hq)]; cbn.
    + now apply (IH acc Hacc i).
    + assert (Hacc' : 0 <= Qred (acc + q)) by (rewrite Qred_correct; lra).
      now apply (IH _ Hacc' i).
Qed.

Lemma nansum_positive (s : list fval) (i : nat) (g : Q) :
  Forall (fun x => x = NaN \/ nonneg x) s -> s !! i = Some (Fin g) -> 0 < g ->
  exists r, nansum s = Fin r /\ 0 < r.
Proof. intros Hs Hi Hg. apply (nansum_from_nonneg 0 s i g); [apply Qle_refl | | |]; assumption. Qed.

Lemma seed_zero (n : nat) (v : list fval) :
  (1 <= n)%nat -> v !! 0%nat = Some NaN -> zero_after v -> seed n v = Fin 0.
Proof.
  intros Hn H0 Hz. unfold seed. rewrite nansum_zero.
  - pose proof (of_nat_pos n Hn). unfold of_nat. rewrite fdiv_finite by lra.
    apply (Qred_eq _ 0). field; lra.
  - apply Forall_take, Forall_lookup. intros i x Hx. destruct i as [|i]; [left; congruence|].
    right. apply lookup_lt_Some in Hx as Hi. rewrite (Hz (S i)) in Hx by lia. congruence.
Qed.

Lemma seed_positive (n : nat) (v : list fval) :
  (2 <= n)%nat -> (n <= length v)%nat -> v !! 0%nat = Some NaN -> positive_after v ->
  exists r, seed n v = Fin r /\ 0 < r.
Proof.
  intros Hn Hlen H0 Hp. unfold seed.
  destruct (Hp 1%nat ltac:(lia)) as (g & Hg & Hg0).
  destruct (nansum_positive (take n v) 1 g) as (r & -> & Hr); [| | exact Hg0 |].
  - apply Forall_take, Forall_lookup. intros i x Hx. destruct i as [|i]; [left; congruence|].
    right. apply lookup_lt_Some in Hx as Hi.
    destruct (Hp (S i) ltac:(lia)) as (q & Hq & Hq0). exists q. split; [congruence | lra].
  - rewrite lookup_take_lt by lia. exact Hg.
  - pose proof (of_nat_pos n ltac:(lia)). unfold of_nat. rewrite fdiv_finite by lra.
    eexists. split; [reflexivity|]. rewrite Qred_correct. apply Qlt_shift_div_l; lra.
Qed.

Lemma smooth_zero (n : nat) : (1 <= n)%nat -> smooth n (Fin 0) (Fin 0) = Fin 0.
Proof.
  intros Hn. rewrite smooth_formula by exact Hn. apply (Qred_eq _ 0).
  pose proof (of_nat_pos n Hn). field; lra.
Qed.

Lemma smooth_positive (n : nat) (a g : Q) :
  (1 <= n)%nat -> 0 <= a -> 0 < g ->
  exists r, smooth n (Fin a) (Fin g) = Fin r /\ 0 < r.
Proof.
  intros Hn Ha Hg. rewrite smooth_formula by exact Hn.
  eexists. split; [reflexivity|]. rewrite Qred_correct.
  pose proof (of_nat_pos n Hn) as Hp.
  assert (Hk : 0 <= (inject_Z (Z.of_nat n) - 1) * a).
  { apply Qmult_le_0_compat; [|exact Ha].
    assert (1 <= inject_Z (Z.of_nat n)); [|lra].
    change 1 with (inject_Z 1). rewrite <- Zle_Qle. lia. }
  apply Qlt_shift_div_l; lra.
Qed.

(** An average that starts from the seed at bar [n] and is smoothed at every
    later bar is zero on a zero series and positive on a positive one. *)
Lemma average_zero (n : nat) (avg v : list fval) :
  (1 <= n)%nat -> v !! 0%nat = Some NaN -> zero_after v ->
  avg !! n = Some (seed n v) ->
  (forall i, (n < i < length v)%nat -> smoothed_at n avg v i) ->
  forall i, (n <= i < length v)%nat -> avg !! i = Some (Fin 0).
Proof.
  intros Hn H0 Hz Hseed Hsm i Hi.
  assert (Hd : exists d, i = (n + d)%nat) by (exists (i - n)%nat; lia).
  destruct Hd as [d ->]. induction d as [|d IH].
  - rewrite Nat.add_0_r, Hseed. f_equal. now apply seed_zero.
  - destruct (Hsm (n + S d)%nat ltac:(lia)) as (prev & x & Hprev & Hx & ->).
    replace (n + S d - 1)%nat with (n + d)%nat in Hprev by lia.
    rewrite (IH ltac:(lia)) in Hprev. injection Hprev as <-.
    rewrite (Hz (n + S d)%nat ltac:(lia)) in Hx. injection Hx as <-.
    f_equal. now apply smooth_zero.
Qed.

Lemma average_positive (n : nat) (avg v : list fval) :
  (2 <= n)%nat -> v !! 0%nat = Some NaN -> positive_after v ->
  avg !! n = Some (seed n v) ->
  (forall i, (n < i < length v)%nat -> smoothed_at n avg v i) ->
  forall i, (n <= i < length v)%nat -> exists r, avg !! i = Some (Fin r) /\ 0 < r.
Proof.
  intros Hn H0 Hp Hseed Hsm i Hi.
  assert (Hd : exists d, i = (n + d)%nat) by (exists (i - n)%nat; lia).
  destruct Hd as [d ->]. induction d as [|d IH].
  - rewrite Nat.add_0_r, Hseed.
    destruct (seed_positive n v Hn ltac:(lia) H0 Hp) as (r & -> & Hr). eauto.
  - destruct (Hsm (n + S d)%nat ltac:(lia)) as (prev & x & Hprev & Hx & ->).
    replace (n + S d - 1)%nat with (n + d)%nat in Hprev by lia.
    destruct (IH ltac:(lia)) as (a & Ha & Ha0). rewrite Ha in Hprev. injection Hprev as <-.
    destruct (Hp (n + S d)%nat ltac:(lia)) as (g & Hg & Hg0).
    rewrite Hg in Hx. injection Hx as <-.
    destruct (smooth_positive n a g ltac:(lia) ltac:(lra) Hg0) as (r & -> & Hr). eauto.
Qed.

Definition strictly_rising (qs : list Q) : Prop :=
  forall j p q, qs !! j = Some p -> qs !! S j = Some q -> p < q.

Definition strictly_falling (qs : list Q) : Prop :=
  forall j p q, qs !! j = Some p -> qs !! S j = Some q -> q < p.

Definition flat (qs : list Q) : Prop :=
  forall j p q, qs !! j = Some p -> qs !! S j = Some q -> q == p.

Lemma gains_losses_first (qs : list Q) :
  (1 <= length qs)%nat ->
  gains (map Fin qs) !! 0%nat = Some NaN /\ losses (map Fin qs) !! 0%nat = Some NaN.
Proof.
  destruct qs as [|q qs]; [cbn; lia|]. intros _. exact (gains_losses_head q qs).
Qed.

(** The gain and the loss of a bar from the sign of its change. *)
Lemma gain_loss_of_change (qs : list Q) (j : nat) (p q : Q) :
  qs !! j = Some p -> qs !! S j = Some q ->
  (p < q -> (exists g, gains (map Fin qs) !! S j = Some (Fin g) /\ 0 < g)
            /\ losses (map Fin qs) !! S j = Some (Fin 0)) /\
  (q < p -> gains (map Fin qs) !! S j = Some (Fin 0)
            /\ exists l, losses (map Fin qs) !! S j = Some (Fin l) /\ 0 < l) /\
  (q == p -> gains (map Fin qs) !! S j = Some (Fin 0)
             /\ losses (map Fin qs) !! S j = Some (Fin 0)).
Proof.
  intros Hp Hq. pose proof (price_change_later qs j p q Hp Hq) as Hc.
  unfold gains, losses. rewrite !list_lookup_fmap, Hc.
  cbn [fmap option_fmap option_map]. unfold fgtb, fzero. cbn [fltb].
  split; [|split]; intros Hs.
  - rewrite (proj2 (Qltb_ge (Qred (q - p)) 0)) by (rewrite Qred_correct; lra).
    rewrite (proj2 (Qltb_lt 0 (Qred (q - p)))) by (rewrite Qred_correct; lra).
    split; [|reflexivity]. eexists. split; [reflexivity|]. rewrite Qred_correct. lra.
  - rewrite (proj2 (Qltb_lt (Qred (q - p)) 0)) by (rewrite Qred_correct; lra).
    rewrite (proj2 (Qltb_ge 0 (Qred (q - p)))) by (rewrite Qred_correct; lra).
    split; [reflexivity|]. cbn [fmul]. eexists. split; [reflexivity|].
    rewrite !Qred_correct. lra.
  - rewrite (Qred_zero (q - p)) by lra. split; reflexivity.
Qed.

Lemma one_way_series (qs : list Q) :
  (strictly_rising qs ->
   positive_after (gains (map Fin qs)) /\ zero_after (losses (map Fin qs))) /\
  (strictly_falling qs ->
   zero_after (gains (map Fin qs)) /\ positive_after (losses (map Fin qs))) /\
  (flat qs ->
   zero_after (gains (map Fin qs)) /\ zero_after (losses (map Fin qs))).
Proof.
  assert (Hbar : forall i, (1 <= i < length qs)%nat ->
            exists j p q, i = S j /\ qs !! j = Some p /\ qs !! S j = Some q).
  { intros [|j] Hi; [lia|].
    destruct (lookup_lt_is_Some_2 qs j ltac:(lia)) as [p Hp].
    destruct (lookup_lt_is_Some_2 qs (S j) ltac:(lia)) as [q Hq]. eauto 6. }
  unfold positive_after, zero_after. rewrite gains_length, losses_length, length_map.
  split; [|split]; intros Hs; split; intros i Hi;
    destruct (Hbar i Hi) as (j & p & q & -> & Hp & Hq);
    destruct (gain_loss_of_change qs j p q Hp Hq) as (Hup & Hdown & Hflat);
    first [ apply Hup, (Hs j p q Hp Hq) | apply Hdown, (Hs j p q Hp Hq)
          | apply Hflat, (Hs j p q Hp Hq) ].
Qed.

(** X4. On closes that rise at every bar the index is 100 from the seed bar on,
    on closes that fall at every bar it is 0, for a window of at least two
    bars: the loss average, respectively the gain average, stays zero. *)
Theorem rsi_one_way (n : nat) (qs : list Q) :
  (2 <= n)%nat -> (n < length qs)%nat ->
  exists rsi, relative_strength_index n (map Fin qs) = Ok rsi /\
    (strictly_rising qs ->
     forall i, (n <= i < length qs)%nat -> rsi !! i = Some (Fin 100)) /\
    (strictly_falling qs ->
     forall i, (n <= i < length qs)%nat -> rsi !! i = Some (Fin 0)).
Proof.
  intros Hn Hlen.
  destruct (rsi_averages_spec n (map Fin qs)) as (ag & al & Hrun & Hag & Hal & Hsg & Hsl & Hsm);
    [rewrite length_map; lia|].
  rewrite length_map in *.
  destruct (gains_losses_first qs ltac:(lia)) as [Hg0 Hl0].
  destruct (one_way_series qs) as (Hup & Hdown & _).
  unfold relative_strength_index. rewrite Hrun.
  cbn [mbind result_bind mret result_ret fst snd]. eexists. split; [reflexivity|].
  assert (Hgl : length (gains (map Fin qs)) = length qs) by now rewrite gains_length, length_map.
  assert (Hll : length (losses (map Fin qs)) = length qs) by now rewrite losses_length, length_map.
  split; intros Hs i Hi.
  - destruct (Hup Hs) as [Hpg Hzl].
    destruct (average_positive n ag _ Hn Hg0 Hpg Hsg) with (i := i) as (g & Hg & Hgp);
      [intros k Hk; apply Hsm; lia | lia |].
    pose proof (average_zero n al _ ltac:(lia) Hl0 Hzl Hsl) as Hz.
    rewrite list_lookup_fmap, lookup_zip_with, Hg, Hz;
      [|intros k Hk; apply Hsm; lia | lia].
    cbn [mbind option_bind fmap option_fmap option_map]. f_equal.
    apply (rsi_of_averages g 0); [lra | apply Qle_refl | reflexivity | exact Hgp].
  - destruct (Hdown Hs) as [Hzg Hpl].
    destruct (average_positive n al _ Hn Hl0 Hpl Hsl) with (i := i) as (l & Hl & Hlp);
      [intros k Hk; apply Hsm; lia | lia |].
    pose proof (average_zero n ag _ ltac:(lia) Hg0 Hzg Hsg) as Hz.
    rewrite list_lookup_fmap, lookup_zip_with, Hl, Hz;
      [|intros k Hk; apply Hsm; lia | lia].
    cbn [mbind option_bind fmap option_fmap option_map]. f_equal.
    rewrite fdiv_finite by lra. unfold rsi_of.
    rewrite (Qred_zero (0 / l)) by (field; lra). reflexivity.
Qed.

Lemma rsi_one_way_witness :
  relative_strength_index 2 (map Fin [1; 2; 4; 5]) = Ok [NaN; NaN; Fin 100; Fin 100] /\
  relative_strength_index 2 (map Fin [9; 7; 4; 3]) = Ok [NaN; NaN; Fin 0; Fin 0] /\
  exists rsi, relative_strength_index 2 (map Fin [1; 2; 4; 5]) = Ok rsi /\
    (strictly_rising [1; 2; 4; 5] ->
     forall i, (2 <= i < length [1; 2; 4; 5])%nat -> rsi !! i = Some (Fin 100)) /\
    (strictly_falling [1; 2; 4; 5] ->
     forall i, (2 <= i < length [1; 2; 4; 5])%nat -> rsi !! i = Some (Fin 0)).
Proof.
  split; [reflexivity|]. split; [reflexivity|].
  apply (rsi_one_way 2 [1; 2; 4; 5]); cbn; lia.
Defined.

(** X5. On closes that never move the index is undefined at every bar. *)
Theorem rsi_flat (n : nat) (qs : list Q) :
  (1 <= n)%nat -> (n < length qs)%nat -> flat qs ->
  exists rsi, relative_strength_index n (map Fin qs) = Ok rsi /\
    length rsi = length qs /\
    forall i, (i < length qs)%nat -> rsi !! i = Some NaN.
Proof.
  intros Hn Hlen Hflat.
  destruct (rsi_averages_spec n (map Fin qs)) as (ag & al & Hrun & Hag & Hal & Hsg & Hsl & Hsm);
    [rewrite length_map; lia|].
  destruct (rsi_averages_before_seed n (map Fin qs)) as (ag' & al' & Hrun' & _ & _ & Hz);
    [rewrite length_map; lia|].
  rewrite Hrun in Hrun'. injection Hrun' as <- <-.
  rewrite length_map in *.
  destruct (gains_losses_first qs ltac:(lia)) as [Hg0 Hl0].
  destruct (one_way_series qs) as (_ & _ & Hf). destruct (Hf Hflat) as [Hzg Hzl].
  unfold relative_strength_index. rewrite Hrun.
  cbn [mbind result_bind mret result_ret fst snd]. eexists. split; [reflexivity|]. split.
  - rewrite length_map, length_zip_with. lia.
  - intros i Hi. rewrite list_lookup_fmap, lookup_zip_with.
    assert (Hz' : ag !! i = Some (Fin 0) /\ al !! i = Some (Fin 0)).
    { destruct (decide (i < n)%nat) as [Hlt | Hge]; [exact (Hz i Hlt)|]. split.
      - apply (average_zero n ag _ Hn Hg0 Hzg Hsg);
          [intros k Hk; apply Hsm; rewrite gains_length, length_map in Hk; lia
          | rewrite gains_length, length_map; lia].
      - apply (average_zero n al _ Hn Hl0 Hzl Hsl);
          [intros k Hk; apply Hsm; rewrite losses_length, length_map in Hk; lia
          | rewrite losses_length, length_map; lia]. }
    destruct Hz' as [-> ->]. reflexivity.
Qed.

Lemma rsi_flat_witness :
  exists rsi, relative_strength_index 2 (map Fin [3; 3; 3; 3]) = Ok rsi /\
    length rsi = length [3; 3; 3; 3] /\
    forall i, (i < length [3; 3; 3; 3])%nat -> rsi !! i = Some NaN.
Proof.
  apply (rsi_flat 2 [3; 3; 3; 3]); [lia | cbn; lia |].
  intros [|[|[|[|j]]]] p q Hp Hq; cbn in Hp, Hq; try discriminate;
    injection Hp as <-; injection Hq as <-; reflexivity.
Defined.

(** ** Drawdown on series with missing closes *)

(** X6. Closes missing at the start of the series give an undefined drawdown at
    those bars (minus infinity over minus infinity) and leave the rest as if
    the series began at the first close. *)
Theorem drawdown_leading_missing (k : nat) (qs : list Q) :
  drawdown (replicate k NaN ++ map Fin qs) = replicate k NaN ++ drawdown (map Fin qs).
Proof.
  unfold drawdown, ffill, expanding_max.
  assert (Hfill : ffill_from NaN (replicate k NaN ++ map Fin qs)
                  = replicate k NaN ++ map Fin qs).
  { rewrite ffill_from_app, ffill_finite. f_equal.
    clear. induction k as [|k IH]; [reflexivity|]. cbn. now rewrite IH. }
  rewrite Hfill, ffill_finite, map_app, !nan_to_neginf_finite.
  assert (Hinf : map (fun x => if is_nan x then NInf else x) (replicate k NaN)
                 = replicate k NInf).
  { clear. induction k as [|k IH]; [reflexivity|]. cbn. now rewrite IH. }
  rewrite Hinf, expanding_max_leading_neginf by now left.
  rewrite zip_with_app by now rewrite !length_replicate.
  f_equal. clear. induction k as [|k IH]; [reflexivity|]. cbn. now rewrite IH.
Qed.

(** X7. A close missing inside the series counts as the last close before it:
    the drawdown is the one of the series with the gap filled. *)
Theorem drawdown_missing_close (l1 l2 : list fval) (x : fval) :
  last (ffill l1) = Some x ->
  drawdown (l1 ++ NaN :: l2) = drawdown (l1 ++ x :: l2).
Proof.
  intros Hx. unfold drawdown.
  assert (Hfill : ffill (l1 ++ NaN :: l2) = ffill (l1 ++ x :: l2)).
  { unfold ffill in *. rewrite !ffill_from_app, Hx. cbn [default ffill_from is_nan].
    now destruct x. }
  now rewrite Hfill.
Qed.

Lemma drawdown_missing_close_witness :
  drawdown [Fin 4; Fin 2; NaN; Fin 3] = [Fin 0; Fin (-1 # 2); Fin (-1 # 2); Fin (-1 # 4)] /\
  drawdown ([Fin 4; Fin 2] ++ NaN :: [Fin 3]) = drawdown ([Fin 4; Fin 2] ++ Fin 2 :: [Fin 3]).
Proof.
  split; [reflexivity|].
  apply (drawdown_missing_close [Fin 4; Fin 2] [Fin 3] (Fin 2)). reflexivity.
Defined.

(** ** ZigZag: pivots survive the interpolation *)

Lemma fill_gap_length (prev : option fval) (x : fval) (gap : nat) :
  length (fill_gap prev x gap) = gap.
Proof.
  destruct prev; cbn; [unfold ramp; now rewrite length_map, length_seq | apply length_replicate].
Qed.

(** Interpolation leaves every present value where it is. *)
Lemma interpolate_from_keeps (prev : option fval) (gap : nat) (s : list fval)
    (i : nat) (v : fval) :
  s !! i = Some v -> is_nan v = false ->
  interpolate_from prev gap s !! (gap + i)%nat = Some v.
Proof.
  revert prev gap i. induction s as [|x s IH]; intros prev gap i Hi Hv; [discriminate|].
  cbn [interpolate_from]. destruct i as [|i]; cbn in Hi.
  - injection Hi as ->. rewrite Hv.
    rewrite lookup_app_r by (rewrite fill_gap_length; lia).
    rewrite fill_gap_length. now replace (gap + 0 - gap)%nat with 0%nat by lia.
  - destruct (is_nan x).
    + replace (gap + S i)%nat with (S gap + i)%nat by lia. now apply IH.
    + rewrite lookup_app_r by (rewrite fill_gap_length; lia).
      rewrite fill_gap_length. replace (gap + S i - gap)%nat with (S i) by lia.
      cbn. now apply (IH (Some x) 0%nat i).
Qed.

Lemma marks_after_keeps (percent : Q) (last : fval) (xs : list fval) (i : nat) (v : fval) :
  marks_after percent last xs !! i = Some v -> is_nan v = false -> xs !! i = Some v.
Proof.
  revert last i. induction xs as [|x xs IH]; intros last i Hi Hv; [discriminate|].
  cbn [marks_after] in Hi. destruct (is_pivot percent last x); destruct i as [|i]; cbn in *.
  - exact Hi.
  - now apply (IH x).
  - injection Hi as <-. discriminate.
  - now apply (IH last).
Qed.

Lemma marks_after_length (percent : Q) (last : fval) (xs : list fval) :
  length (marks_after percent last xs) = length xs.
Proof.
  revert last. induction xs as [|x xs IH]; intros last; cbn; [reflexivity|].
  destruct (is_pivot percent last x); cbn; now rewrite IH.
Qed.

(** X8. [zigzag] raises on an empty series; on any other it returns as many
    values as there are closes, and every bar marked as a pivot carries its
    own close in the result. *)
Theorem zigzag_keeps_pivots (percent : Q) (x : list fval) :
  (x = [] -> zigzag percent x = Raise IndexError) /\
  (x <> [] ->
   exists marks out,
     zigzag_marks percent x = Ok marks /\ zigzag percent x = Ok out /\
     length marks = length x /\ length out = length x /\
     forall i v, marks !! i = Some v -> is_nan v = false ->
       x !! i = Some v /\ out !! i = Some v).
Proof.
  split; [intros ->; reflexivity|].
  destruct x as [|x0 xs]; [congruence|]. intros _.
  exists (x0 :: marks_after percent x0 xs). eexists.
  split; [apply zigzag_marks_eq|].
  unfold zigzag. rewrite zigzag_marks_eq. cbn [mbind result_bind mret result_ret].
  split; [reflexivity|]. split; [cbn; now rewrite marks_after_length|]. split.
  - unfold interpolate. rewrite interpolate_from_length. cbn.
    now rewrite marks_after_length.
  - intros i v Hi Hv. split.
    + destruct i as [|i]; [exact Hi|]. cbn in *. now apply (marks_after_keeps percent x0).
    + apply (interpolate_from_keeps None 0 _ i v Hi Hv).
Qed.

Lemma zigzag_keeps_pivots_witness :
  zigzag 50 (map Fin [10; 11; 30; 29]) = Ok [Fin 10; Fin 20; Fin 30; Fin 30] /\
  exists marks out,
    zigzag_marks 50 (map Fin [10; 11; 30; 29]) = Ok marks /\
    zigzag 50 (map Fin [10; 11; 30; 29]) = Ok out /\
    length marks = 4%nat /\ length out = 4%nat /\
    forall i v, marks !! i = Some v -> is_nan v = false ->
      map Fin [10; 11; 30; 29] !! i = Some v /\ out !! i = Some v.
Proof.
  split; [reflexivity|].
  destruct (zigzag_keeps_pivots 50 (map Fin [10; 11; 30; 29])) as [_ H].
  apply H. discriminate.
Defined.

(** * Price transformations and pivot points *)

(** ** Series arithmetic (pandas): operators act bar by bar *)

Definition sadd (a b : list fval) : list fval := zip_with fadd a b.
Definition ssub (a b : list fval) : list fval := zip_with fsub a b.
Definition smul (a b : list fval) : list fval := zip_with fmul a b.
Definition sdiv (a b : list fval) : list fval := zip_with fdiv a b.
(** [k * s], [s * k], [s / k] and [s - k] for a number [k]. *)
Definition scale (k : Q) (s : list fval) : list fval := map (fmul (Fin k)) s.
Definition over (s : list fval) (k : Q) : list fval := map (fun x => fdiv x (Fin k)) s.

(** A frame of finite bars, and its columns. *)
Record candle : Type := {
  c_open : Q;
  c_high : Q;
  c_low : Q;
  c_close : Q;
  c_volume : Q
}.

Definition column (f : candle -> Q) (data : list candle) : list fval :=
  map (fun b => Fin (f b)) data.

(** The bar invariant: the low is the least and the high the greatest price
    of the bar. *)
Definition well_formed (b : candle) : Prop :=
  c_low b <= c_open b /\ c_open b <= c_high b /\
  c_low b <= c_close b /\ c_close b <= c_high b.

(** ** The price transformations of the source *)

Definition typical_price (high low close : list fval) : list fval :=
  over (sadd (sadd high low) close) 3.

Definition high_low_spread (high low : list fval) : list fval := ssub high low.

Definition money_flow (high low close : list fval) : list fval :=
  sdiv (ssub (ssub close low) (ssub high close)) (ssub high low).

Definition money_flow_volume (high low close volume : list fval) : list fval :=
  smul (money_flow high low close) volume.

Definition close_to_open_range (open close : list fval) : list fval :=
  ssub open (shift1 close).

Record pivot_levels : Type := {
  pp_p : list fval;
  pp_s1 : list fval;
  pp_s2 : list fval;
  pp_r1 : list fval;
  pp_r2 : list fval
}.

Definition pivot_point (high low close : list fval) : pivot_levels :=
  let p := typical_price high low close in
  let hl := high_low_spread high low in
  {| pp_p := p;
     pp_s1 := ssub (scale 2 p) high;
     pp_s2 := ssub p hl;
     pp_r1 := ssub (scale 2 p) low;
     pp_r2 := sadd p hl |}.

Record fibonacci_levels : Type := {
  fp_p : list fval;
  fp_s1 : list fval;
  fp_s2 : list fval;
  fp_s3 : list fval;
  fp_r1 : list fval;
  fp_r2 : list fval;
  fp_r3 : list fval
}.

Definition fibonacci_pivot_point (high low close : list fval) : fibonacci_levels :=
  let p := typical_price high low close in
  let hl := high_low_spread high low in
  {| fp_p := p;
     fp_s1 := ssub p (scale (382 # 1000) hl);
     fp_s2 := ssub p (scale (618 # 1000) hl);
     fp_s3 := ssub p (scale 1 hl);
     fp_r1 := sadd p (scale (382 # 1000) hl);
     fp_r2 := sadd p (scale (618 # 1000) hl);
     fp_r3 := sadd p (scale 1 hl) |}.

(** ** Facts *)

Lemma column_lookup (f : candle -> Q) (data : list candle) (i : nat) (b : candle) :
  data !! i = Some b -> column f data !! i = Some (Fin (f b)).
Proof. intros H. unfold column. now rewrite list_lookup_fmap, H. Qed.

(** Reading a bar of a series expression: the operators are looked up bar
    by bar. *)
Ltac bar_lookup :=
  unfold typical_price, high_low_spread, money_flow, money_flow_volume,
         sadd, ssub, smul, sdiv, scale, over;
  repeat first [ rewrite lookup_zip_with | rewrite list_lookup_fmap ];
  repeat match goal with
  | H : ?data !! ?i = Some ?b |- context [column ?f ?data !! ?i] =>
      rewrite (column_lookup f data i b H)
  end;
  cbn [mbind option_bind fmap option_fmap option_map fadd fsub fmul].

Lemma typical_price_lookup (data : list candle) (i : nat) (b : candle) :
  data !! i = Some b ->
  exists p, typical_price (column c_high data) (column c_low data) (column c_close data) !! i
            = Some (Fin p)
    /\ p == (c_high b + c_low b + c_close b) / 3.
Proof.
  intros Hb. bar_lookup. rewrite fdiv_finite by discriminate.
  eexists. split; [reflexivity|]. now rewrite !Qred_correct.
Qed.

(** The five levels of a bar, as numbers. *)
Lemma pivot_point_lookup (data : list candle) (i : nat) (b : candle) :
  data !! i = Some b ->
  let levels := pivot_point (column c_high data) (column c_low data) (column c_close data) in
  exists p s1 s2 r1 r2,
    pp_p levels !! i = Some (Fin p) /\ pp_s1 levels !! i = Some (Fin s1) /\
    pp_s2 levels !! i = Some (Fin s2) /\ pp_r1 levels !! i = Some (Fin r1) /\
    pp_r2 levels !! i = Some (Fin r2) /\
    p == (c_high b + c_low b + c_close b) / 3 /\
    s1 == 2 * p - c_high b /\ s2 == p - (c_high b - c_low b) /\
    r1 == 2 * p - c_low b /\ r2 == p + (c_high b - c_low b).
Proof.
  intros Hb. cbv zeta. unfold pivot_point. cbn [pp_p pp_s1 pp_s2 pp_r1 pp_r2].
  bar_lookup. rewrite fdiv_finite by discriminate. cbn [fadd fsub fmul].
  do 5 eexists. repeat (split; [reflexivity|]).
  rewrite !Qred_correct. repeat split; reflexivity.
Qed.

(** X10. Whenever a bar's high is not below its low, wherever the close is,
    the outer levels of [pivot_point] bracket the pivot and the first
    support is not above the first resistance: s2 <= p <= r2 and
    s1 <= r1. *)
Theorem pivot_point_ordered (data : list candle) (i : nat) (b : candle) :
  data !! i = Some b -> c_low b <= c_high b ->
  let levels := pivot_point (column c_high data) (column c_low data) (column c_close data) in
  exists p s1 s2 r1 r2,
    pp_p levels !! i = Some (Fin p) /\ pp_s1 levels !! i = Some (Fin s1) /\
    pp_s2 levels !! i = Some (Fin s2) /\ pp_r1 levels !! i = Some (Fin r1) /\
    pp_r2 levels !! i = Some (Fin r2) /\
    s2 <= p /\ p <= r2 /\ s1 <= r1.
Proof.
  intros Hb Hlh. cbv zeta.
  destruct (pivot_point_lookup data i b Hb)
    as (p & s1 & s2 & r1 & r2 & Hp & Hs1 & Hs2 & Hr1 & Hr2 & Ep & Es1 & Es2 & Er1 & Er2).
  exists p, s1, s2, r1, r2. repeat (split; [assumption|]).
  rewrite Es1, Es2, Er1, Er2. repeat split; lra.
Qed.

Lemma fibonacci_pivot_point_lookup (data : list candle) (i : nat) (b : candle) :
  data !! i = Some b ->
  let levels :=
    fibonacci_pivot_point (column c_high data) (column c_low data) (column c_close data) in
  exists p s1 s2 s3 r1 r2 r3,
    fp_p levels !! i = Some (Fin p) /\ fp_s1 levels !! i = Some (Fin s1) /\
    fp_s2 levels !! i = Some (Fin s2) /\ fp_s3 levels !! i = Some (Fin s3) /\
    fp_r1 levels !! i = Some (Fin r1) /\ fp_r2 levels !! i = Some (Fin r2) /\
    fp_r3 levels !! i = Some (Fin r3) /\
    s1 == p - (382 # 1000) * (c_high b - c_low b) /\
    s2 == p - (618 # 1000) * (c_high b - c_low b) /\
    s3 == p - (c_high b - c_low b) /\
    r1 == p + (382 # 1000) * (c_high b - c_low b) /\
    r2 == p + (618 # 1000) * (c_high b - c_low b) /\
    r3 == p + (c_high b - c_low b).
Proof.
  intros Hb. cbv zeta. unfold fibonacci_pivot_point.
  cbn [fp_p fp_s1 fp_s2 fp_s3 fp_r1 fp_r2 fp_r3].
  bar_lookup. rewrite fdiv_finite by discriminate. cbn [fadd fsub fmul].
  do 7 eexists. repeat (split; [reflexivity|]).
  rewrite !Qred_correct. repeat split; ring.
Qed.

(** X11. The Fibonacci levels are ordered whenever the high is not below the
    low, wherever the close is: s3 <= s2 <= s1 <= p <= r1 <= r2 <= r3. *)
Theorem fibonacci_pivot_point_ordered (data : list candle) (i : nat) (b : candle) :
  data !! i = Some b -> c_low b <= c_high b ->
  let levels :=
    fibonacci_pivot_point (column c_high data) (column c_low data) (column c_close data) in
  exists p s1 s2 s3 r1 r2 r3,
    fp_p levels !! i = Some (Fin p) /\ fp_s1 levels !! i = Some (Fin s1) /\
    fp_s2 levels !! i = Some (Fin s2) /\ fp_s3 levels !! i = Some (Fin s3) /\
    fp_r1 levels !! i = Some (Fin r1) /\ fp_r2 levels !! i = Some (Fin r2) /\
    fp_r3 levels !! i = Some (Fin r3) /\
    s3 <= s2 /\ s2 <= s1 /\ s1 <= p /\ p <= r1 /\ r1 <= r2 /\ r2 <= r3.
Proof.
  intros Hb Hlh. cbv zeta.
  destruct (fibonacci_pivot_point_lookup data i b Hb)
    as (p & s1 & s2 & s3 & r1 & r2 & r3 & Hp & Hs1 & Hs2 & Hs3 & Hr1 & Hr2 & Hr3
        & Es1 & Es2 & Es3 & Er1 & Er2 & Er3).
  exists p, s1, s2, s3, r1, r2, r3. repeat (split; [assumption|]).
  rewrite Es1, Es2, Es3, Er1, Er2, Er3. repeat split; lra.
Qed.

Definition sample_bar (o h l c v : Q) : candle :=
  {| c_open := o; c_high := h; c_low := l; c_close := c; c_volume := v |}.

Definition sample_data : list candle :=
  [sample_bar 2 5 1 3 10; sample_bar 3 6 2 5 20; sample_bar 5 7 4 4 15; sample_bar 4 5 2 3 30].

Lemma sample_data_well_formed : Forall well_formed sample_data.
Proof. repeat constructor; discriminate. Qed.

Lemma pivot_point_ordered_witness :
  let levels :=
    pivot_point (column c_high sample_data) (column c_low sample_data)
                (column c_close sample_data) in
  exists p s1 s2 r1 r2,
    pp_p levels !! 1%nat = Some (Fin p) /\ pp_s1 levels !! 1%nat = Some (Fin s1) /\
    pp_s2 levels !! 1%nat = Some (Fin s2) /\ pp_r1 levels !! 1%nat = Some (Fin r1) /\
    pp_r2 levels !! 1%nat = Some (Fin r2) /\
    s2 <= p /\ p <= r2 /\ s1 <= r1.
Proof.
  apply (pivot_point_ordered sample_data 1 (sample_bar 3 6 2 5 20)).
  - reflexivity.
  - discriminate.
Defined.

Lemma fibonacci_pivot_point_ordered_witness :
  let levels :=
    fibonacci_pivot_point (column c_high sample_data) (column c_low sample_data)
                          (column c_close sample_data) in
  exists p s1 s2 s3 r1 r2 r3,
    fp_p levels !! 1%nat = Some (Fin p) /\ fp_s1 levels !! 1%nat = Some (Fin s1) /\
    fp_s2 levels !! 1%nat = Some (Fin s2) /\ fp_s3 levels !! 1%nat = Some (Fin s3) /\
    fp_r1 levels !! 1%nat = Some (Fin r1) /\ fp_r2 levels !! 1%nat = Some (Fin r2) /\
    fp_r3 levels !! 1%nat = Some (Fin r3) /\
    s3 <= s2 /\ s2 <= s1 /\ s1 <= p /\ p <= r1 /\ r1 <= r2 /\ r2 <= r3.
Proof.
  apply (fibonacci_pivot_point_ordered sample_data 1 (sample_bar 3 6 2 5 20)).
  - reflexivity.
  - discriminate.
Defined.

(** ** Money flow *)

(** X12. The money flow multiplier of a well-formed bar lies in [-1, 1]; on a bar
    whose high equals its low it is 0/0, not-a-number. *)
Theorem money_flow_bounded (data : list candle) (i : nat) (b : candle) :
  data !! i = Some b -> well_formed b ->
  (c_low b < c_high b ->
   exists m, money_flow (column c_high data) (column c_low data) (column c_close data) !! i
             = Some (Fin m) /\ -1 <= m /\ m <= 1) /\
  (c_low b == c_high b ->
   money_flow (column c_high data) (column c_low data) (column c_close data) !! i
   = Some NaN).
Proof.
  intros Hb (Hlo & Hoh & Hlc & Hch). split; intros Hr; bar_lookup.
  - rewrite fdiv_finite by (rewrite Qred_correct; lra).
    eexists. split; [reflexivity|]. rewrite !Qred_correct. split.
    + apply Qle_shift_div_l; lra.
    + apply Qle_shift_div_r; lra.
  - unfold fdiv.
    rewrite (proj2 (Qeq_bool_iff (Qred (c_high b - c_low b)) 0))
      by (rewrite Qred_correct; lra).
    rewrite (proj2 (Qeq_bool_iff (Qred (Qred (c_close b - c_low b)
                                        - Qred (c_high b - c_close b))) 0))
      by (rewrite !Qred_correct; lra).
    reflexivity.
Qed.

Lemma money_flow_bounded_witness :
  (1 < 5 ->
   exists m, money_flow (column c_high sample_data) (column c_low sample_data)
                        (column c_close sample_data) !! 0%nat
             = Some (Fin m) /\ -1 <= m /\ m <= 1) /\
  (1 == 5 ->
   money_flow (column c_high sample_data) (column c_low sample_data)
              (column c_close sample_data) !! 0%nat = Some NaN).
Proof.
  apply (money_flow_bounded sample_data 0 (sample_bar 2 5 1 3 10)).
  - reflexivity.
  - repeat split; discriminate.
Defined.

(** ** Volume weighted average price *)

(** [s.cumsum()]: a missing value stays missing and adds nothing. *)
Fixpoint cumsum_from (acc : fval) (s : list fval) : list fval :=
  match s with
  | [] => []
  | x :: s' =>
      if is_nan x then NaN :: cumsum_from acc s'
      else fadd acc x :: cumsum_from (fadd acc x) s'
  end.

Definition cumsum (s : list fval) : list fval := cumsum_from fzero s.

Definition volume_weighted_average_price (high low close volume : list fval) : list fval :=
  let tp := typical_price high low close in
  sdiv (cumsum (smul tp volume)) (cumsum volume).

Definition accumulation_distribution_line (high low close volume : list fval) : list fval :=
  cumsum (money_flow_volume high low close volume).

(** A priced bar: well formed, with a positive low and a volume that is not
    negative. *)
Definition priced (b : candle) : Prop :=
  well_formed b /\ 0 < c_low b /\ 0 <= c_volume b.

Definition quiet_data : list candle :=
  [sample_bar 2 5 1 3 0; sample_bar 4 4 4 4 0; sample_bar 3 6 2 5 20; sample_bar 5 7 4 4 0].

Lemma vwap_from (data : list candle) (an av : Q) :
  Forall priced data ->
  (an == 0 /\ av == 0) \/ (0 < an /\ 0 < av) ->
  forall i, (i < length data)%nat ->
    let running :=
      sdiv (cumsum_from (Fin an)
              (smul (typical_price (column c_high data) (column c_low data)
                                   (column c_close data))
                    (column c_volume data)))
           (cumsum_from (Fin av) (column c_volume data)) in
    (av == 0 -> Forall (fun b => c_volume b == 0) (take (S i) data) ->
     running !! i = Some NaN) /\
    (0 < av \/ Exists (fun b => 0 < c_volume b) (take (S i) data) ->
     exists w, running !! i = Some (Fin w) /\ 0 < w).
Proof.
  intros Hd. revert an av.
  induction Hd as [|b data Hb _ IH]; intros an av Hst i Hi; [cbn in Hi; lia|].
  destruct Hb as ((Hl & Ho & Hlc & Hch) & Hlow & Hv).
  cbv zeta.
  unfold typical_price, sadd, smul, sdiv, over, column in *.
  cbn [map zip_with fadd fmul cumsum_from is_nan].
  rewrite fdiv_finite by discriminate. cbn [fmul fadd cumsum_from is_nan zip_with].
  set (tp := Qred (Qred (Qred (c_high b + c_low b) + c_close b) / 3)).
  assert (Htp : 0 < tp).
  { unfold tp. rewrite !Qred_correct. apply Qlt_shift_div_l; [reflexivity|]. lra. }
  set (an' := Qred (an + Qred (tp * c_volume b))).
  set (av' := Qred (av + c_volume b)).
  assert (Ean : an' == an + tp * c_volume b)
    by (unfold an'; now rewrite !Qred_correct).
  assert (Eav : av' == av + c_volume b) by (unfold av'; now rewrite Qred_correct).
  assert (Hprod : 0 <= tp * c_volume b) by (apply Qmult_le_0_compat; lra).
  assert (Hzero : av == 0 -> c_volume b == 0 -> an' == 0 /\ av' == 0).
  { intros Ea Ev. destruct Hst as [[Ean0 _]|[_ Hpos]]; [|lra].
    split; [rewrite Ean, Ean0, Ev; ring | rewrite Eav, Ea, Ev; ring]. }
  assert (Hpos : 0 < av \/ 0 < c_volume b -> 0 < an' /\ 0 < av').
  { intros Hc. assert (Hprod' : 0 < c_volume b -> 0 < tp * c_volume b)
      by (intros Hvp; apply Qmult_lt_0_compat; assumption).
    destruct Hst as [[Ean0 Eav0]|[Hanp Havp]].
    - destruct Hc as [Hc|Hc]; [lra|]. specialize (Hprod' Hc). split; lra.
    - split; lra. }
  destruct i as [|i].
  - cbn [take lookup list_lookup]. split.
    + intros Ea Hall. apply Forall_inv in Hall.
      destruct (Hzero Ea Hall) as [Ha0 Hv0]. unfold fdiv.
      rewrite (proj2 (Qeq_bool_iff av' 0) Hv0), (proj2 (Qeq_bool_iff an' 0) Ha0).
      reflexivity.
    + intros Hc.
      assert (Hc' : 0 < av \/ 0 < c_volume b).
      { destruct Hc as [Hc|Hc]; [now left|]. right.
        apply Exists_cons in Hc as [Hc|Hc]; [exact Hc|]. now apply Exists_nil in Hc. }
      destruct (Hpos Hc') as [Ha0 Hv0].
      rewrite fdiv_finite by lra. eexists. split; [reflexivity|].
      rewrite Qred_correct. apply Qlt_shift_div_l; [exact Hv0|]. lra.
  - cbn [length] in Hi. cbn [lookup list_lookup].
    change (take (S (S i)) (b :: data)) with (b :: take (S i) data).
    assert (Hst' : (an' == 0 /\ av' == 0) \/ (0 < an' /\ 0 < av')).
    { destruct Hst as [[Ean0 Eav0]|[Hanp Havp]].
      - destruct (Qlt_le_dec 0 (c_volume b)) as [Hvp|Hvz].
        + right. apply Hpos. now right.
        + left. apply Hzero; [exact Eav0 | lra].
      - right. apply Hpos. now left. }
    destruct (IH an' av' Hst' i ltac:(lia)) as [IHz IHp]. split.
    + intros Ea Hall. apply Forall_cons in Hall as [Hvb Hall].
      apply IHz; [apply (Hzero Ea Hvb) | exact Hall].
    + intros Hc. apply IHp.
      destruct Hc as [Hc|Hc]; [left; apply Hpos; now left|].
      apply Exists_cons in Hc as [Hc|Hc]; [left; apply Hpos; now right | now right].
Qed.

(** X13. With well-formed bars, positive prices and volumes that are not
    negative, the volume weighted average price is undefined as long as no
    volume has traded (0 over 0), and a positive number from the first bar
    with a positive volume on. *)
Theorem vwap_defined_once_traded (data : list candle) (i : nat) :
  Forall priced data -> (i < length data)%nat ->
  let vwap :=
    volume_weighted_average_price (column c_high data) (column c_low data)
      (column c_close data) (column c_volume data) in
  (Forall (fun b => c_volume b == 0) (take (S i) data) -> vwap !! i = Some NaN) /\
  (Exists (fun b => 0 < c_volume b) (take (S i) data) ->
   exists w, vwap !! i = Some (Fin w) /\ 0 < w).
Proof.
  intros Hd Hi. cbv zeta.
  unfold volume_weighted_average_price, cumsum. change fzero with (Fin 0).
  destruct (vwap_from data 0 0 Hd ltac:(left; split; reflexivity) i Hi) as [Hz Hp].
  split.
  - intros Hall. apply Hz; [reflexivity | exact Hall].
  - intros Hex. apply Hp. now right.
Qed.

Lemma vwap_defined_once_traded_witness :
  volume_weighted_average_price (column c_high quiet_data) (column c_low quiet_data)
    (column c_close quiet_data) (column c_volume quiet_data)
  = [NaN; NaN; Fin (13 # 3); Fin (13 # 3)] /\
  Forall priced quiet_data /\
  (Forall (fun b => c_volume b == 0) (take 2 quiet_data) ->
   volume_weighted_average_price (column c_high quiet_data) (column c_low quiet_data)
     (column c_close quiet_data) (column c_volume quiet_data) !! 1%nat = Some NaN) /\
  (Exists (fun b => 0 < c_volume b) (take 2 quiet_data) ->
   exists w,
     volume_weighted_average_price (column c_high quiet_data) (column c_low quiet_data)
       (column c_close quiet_data) (column c_volume quiet_data) !! 1%nat = Some (Fin w) /\
     0 < w).
Proof.
  assert (Hd : Forall priced quiet_data).
  { repeat (apply Forall_cons_2;
            [split; [repeat split; discriminate | split; [reflexivity | discriminate]]|]).
    apply Forall_nil_2. }
  split; [reflexivity|]. split; [exact Hd|].
  apply (vwap_defined_once_traded quiet_data 1 Hd). cbn. lia.
Defined.

(** * Rolling windows and the oscillators built on them *)

(** [pd.rolling_max], [pd.rolling_min] and [pd.rolling_sum] with the default
    [min_periods]: the value at bar [i] is taken over the [n] bars ending at
    [i]; it is undefined while fewer than [n] bars are there and when one of
    them is missing.  (The window length is at least one.) *)
Definition window {A : Type} (n i : nat) (s : list A) : list A :=
  take n (drop (S i - n) s).

Definition rolling (agg : list fval -> fval) (n : nat) (s : list fval) : list fval :=
  map (fun i => if decide (n <= S i)%nat
                then (if existsb is_nan (window n i s) then NaN else agg (window n i s))
                else NaN)
      (seq 0 (length s)).

Definition window_max (w : list fval) : fval :=
  match w with
  | [] => NaN
  | x :: w' => foldl (fun m y => if fltb m y then y else m) x w'
  end.

Definition window_min (w : list fval) : fval :=
  match w with
  | [] => NaN
  | x :: w' => foldl (fun m y => if fltb y m then y else m) x w'
  end.

Definition window_sum (w : list fval) : fval := foldl fadd fzero w.

Definition rolling_max : nat -> list fval -> list fval := rolling window_max.
Definition rolling_min : nat -> list fval -> list fval := rolling window_min.
Definition rolling_sum : nat -> list fval -> list fval := rolling window_sum.

Section Oscillators.

(** [compfipy.util.sma], which is not part of [asset.py]. *)
Variable sma : list fval -> nat -> list fval.

(** [stochastic_oscillator]: the columns ['k'] and ['d']. *)
Definition stochastic_oscillator (n n1 : nat) (high low close : list fval)
  : list fval * list fval :=
  let n_day_high := rolling_max n high in
  let n_day_low := rolling_min n low in
  let percent_k := sdiv (scale 100 (ssub close n_day_low)) (ssub n_day_high n_day_low) in
  let percent_d := sma percent_k n1 in
  (percent_k, percent_d).

End Oscillators.

Definition william_percent_r (n : nat) (high low close : list fval) : list fval :=
  let high_max := rolling_max n high in
  let low_min := rolling_min n low in
  sdiv (scale (-100) (ssub high_max close)) (ssub high_max low_min).

(** [price_channel]: the columns ['high'], ['low'] and ['center']. *)
Definition price_channel (n : nat) (high low : list fval)
  : list fval * list fval * list fval :=
  let n_day_high := rolling_max n high in
  let n_day_low := rolling_min n low in
  let center := over (sadd n_day_high n_day_low) 2 in
  (n_day_high, n_day_low, center).

Definition money_flow_index (n : nat) (high low close volume : list fval) : list fval :=
  let tp := typical_price high low close in
  let rmf := smul tp volume in
  let pmf := map (fun x => if fltb x fzero then fzero else x) rmf in
  let nmf := map (fun x => if fgtb x fzero then fzero else x) rmf in
  let mfr := sdiv (rolling_sum n pmf) (rolling_sum n nmf) in
  map rsi_of mfr.

Definition average_true_range (n : nat) (high low : list fval) : list fval :=
  weigh_with_previous n (true_range high low).

(** [chandelier_exit]: the columns ['long'] and ['short']. *)
Definition chandelier_exit (n : nat) (k : Q) (high low : list fval)
  : list fval * list fval :=
  let atr := average_true_range n high low in
  let n_day_high := rolling_max n high in
  let n_day_low := rolling_min n low in
  (ssub n_day_high (scale k atr), ssub n_day_low (scale k atr)).

(** ** Facts on rolling windows *)

Lemma rolling_length (agg : list fval -> fval) (n : nat) (s : list fval) :
  length (rolling agg n s) = length s.
Proof. unfold rolling. now rewrite length_map, length_seq. Qed.

Lemma rolling_lookup (agg : list fval -> fval) (n : nat) (s : list fval) (i : nat) :
  (i < length s)%nat ->
  rolling agg n s !! i
  = Some (if decide (n <= S i)%nat
          then (if existsb is_nan (window n i s) then NaN else agg (window n i s))
          else NaN).
Proof.
  intros Hi. unfold rolling. rewrite list_lookup_fmap, lookup_seq_lt by exact Hi.
  reflexivity.
Qed.

Lemma window_map {A B : Type} (f : A -> B) (n i : nat) (s : list A) :
  window n i (map f s) = map f (window n i s).
Proof. unfold window. now rewrite skipn_map, firstn_map. Qed.

Lemma window_finite (qs : list Q) : existsb is_nan (map Fin qs) = false.
Proof. induction qs as [|q qs IH]; [reflexivity | exact IH]. Qed.

(** The bar [i] is the last of its window. *)
Lemma window_last {A : Type} (n i : nat) (s : list A) (a : A) :
  (1 <= n <= S i)%nat -> s !! i = Some a -> window n i s !! (n - 1)%nat = Some a.
Proof.
  intros Hn Ha. unfold window. rewrite lookup_take_lt by lia. rewrite lookup_drop.
  now replace (S i - n + (n - 1))%nat with i by lia.
Qed.

Lemma window_elem {A : Type} (n i : nat) (s : list A) (a : A) :
  a ∈ window n i s -> a ∈ s.
Proof.
  unfold window. intros H. apply list_elem_of_lookup in H as [j Hj].
  apply lookup_take_Some in Hj as [Hj _]. rewrite lookup_drop in Hj.
  apply list_elem_of_lookup. eauto.
Qed.

(** The greatest and the least of a window of numbers. *)
Lemma window_max_spec (qs : list Q) :
  qs <> [] ->
  exists M, window_max (map Fin qs) = Fin M /\ Forall (fun q => q <= M) qs.
Proof.
  destruct qs as [|q0 qs]; [congruence|]. intros _. cbn [map window_max].
  assert (H : forall m, exists M,
            foldl (fun m y => if fltb m y then y else m) (Fin m) (map Fin qs) = Fin M
            /\ m <= M /\ Forall (fun q => q <= M) qs).
  { induction qs as [|q qs IH]; intros m; cbn.
    - exists m. split; [reflexivity|]. split; [apply Qle_refl | constructor].
    - destruct (Qltb m q) eqn:E.
      + apply Qltb_lt in E. destruct (IH q) as (M & -> & HqM & Hall).
        exists M. split; [reflexivity|]. split; [lra|]. constructor; assumption.
      + apply Qltb_ge in E. destruct (IH m) as (M & -> & HmM & Hall).
        exists M. split; [reflexivity|]. split; [exact HmM|]. constructor; [lra | exact Hall]. }
  destruct (H q0) as (M & -> & Hq0 & Hall). exists M. split; [reflexivity|].
  constructor; assumption.
Qed.

Lemma window_min_spec (qs : list Q) :
  qs <> [] ->
  exists m, window_min (map Fin qs) = Fin m /\ Forall (fun q => m <= q) qs.
Proof.
  destruct qs as [|q0 qs]; [congruence|]. intros _. cbn [map window_min].
  assert (H : forall a, exists m,
            foldl (fun m y => if fltb y m then y else m) (Fin a) (map Fin qs) = Fin m
            /\ m <= a /\ Forall (fun q => m <= q) qs).
  { induction qs as [|q qs IH]; intros a; cbn.
    - exists a. split; [reflexivity|]. split; [apply Qle_refl | constructor].
    - destruct (Qltb q a) eqn:E.
      + apply Qltb_lt in E. destruct (IH q) as (m & -> & Hmq & Hall).
        exists m. split; [reflexivity|]. split; [lra|]. constructor; assumption.
      + apply Qltb_ge in E. destruct (IH a) as (m & -> & Hma & Hall).
        exists m. split; [reflexivity|]. split; [exact Hma|]. constructor; [lra | exact Hall]. }
  destruct (H q0) as (m & -> & Hq0 & Hall). exists m. split; [reflexivity|].
  constructor; assumption.
Qed.

Lemma column_as_map (f : candle -> Q) (data : list candle) :
  column f data = map Fin (map f data).
Proof. unfold column. now rewrite map_map. Qed.

(** The rolling extremes of a column at a bar whose window is complete. *)
Lemma rolling_max_column (f : candle -> Q) (data : list candle) (n i : nat) (b : candle) :
  (1 <= n <= S i)%nat -> data !! i = Some b ->
  exists M, rolling_max n (column f data) !! i = Some (Fin M) /\ f b <= M.
Proof.
  intros Hn Hb. apply lookup_lt_Some in Hb as Hi.
  unfold rolling_max. rewrite rolling_lookup by (unfold column; rewrite length_map; lia).
  rewrite decide_True by lia. rewrite column_as_map, window_map, window_finite.
  assert (Hlast : window n i (map f data) !! (n - 1)%nat = Some (f b)).
  { apply window_last; [lia|]. now rewrite list_lookup_fmap, Hb. }
  destruct (window_max_spec (window n i (map f data))) as (M & -> & Hall).
  { intros E. rewrite E in Hlast. discriminate. }
  exists M. split; [reflexivity|].
  rewrite Forall_lookup in Hall. exact (Hall _ _ Hlast).
Qed.

Lemma rolling_min_column (f : candle -> Q) (data : list candle) (n i : nat) (b : candle) :
  (1 <= n <= S i)%nat -> data !! i = Some b ->
  exists m, rolling_min n (column f data) !! i = Some (Fin m) /\ m <= f b.
Proof.
  intros Hn Hb. apply lookup_lt_Some in Hb as Hi.
  unfold rolling_min. rewrite rolling_lookup by (unfold column; rewrite length_map; lia).
  rewrite decide_True by lia. rewrite column_as_map, window_map, window_finite.
  assert (Hlast : window n i (map f data) !! (n - 1)%nat = Some (f b)).
  { apply window_last; [lia|]. now rewrite list_lookup_fmap, Hb. }
  destruct (window_min_spec (window n i (map f data))) as (m & -> & Hall).
  { intros E. rewrite E in Hlast. discriminate. }
  exists m. split; [reflexivity|].
  rewrite Forall_lookup in Hall. exact (Hall _ _ Hlast).
Qed.

Lemma rolling_early (agg : list fval -> fval) (n : nat) (s : list fval) (i : nat) :
  (S i < n)%nat -> (i < length s)%nat -> rolling agg n s !! i = Some NaN.
Proof. intros Hn Hi. rewrite rolling_lookup by exact Hi. now rewrite decide_False by lia. Qed.

(** ** Stochastic oscillator and Williams %R *)

(** X14. On a well-formed bar whose window is complete and not flat, %K is a
    number that is not negative and %R a number that is not positive; %K is
    0 exactly when the close is the lowest low of the window, %R is 0
    exactly when it is the highest high.  Before the window is complete both
    are undefined; so are they when the highest high of the window equals
    its lowest low. *)
Theorem stochastic_and_williams (sma : list fval -> nat -> list fval) (n n1 : nat)
    (data : list candle) (i : nat) (b : candle) :
  (1 <= n)%nat -> data !! i = Some b -> well_formed b ->
  let percent_k :=
    fst (stochastic_oscillator sma n n1 (column c_high data) (column c_low data)
           (column c_close data)) in
  let percent_r :=
    william_percent_r n (column c_high data) (column c_low data) (column c_close data) in
  ((S i < n)%nat -> percent_k !! i = Some NaN /\ percent_r !! i = Some NaN) /\
  ((n <= S i)%nat ->
   exists H L,
     rolling_max n (column c_high data) !! i = Some (Fin H) /\
     rolling_min n (column c_low data) !! i = Some (Fin L) /\
     L <= H /\
     (L == H -> percent_k !! i = Some NaN /\ percent_r !! i = Some NaN) /\
     (L < H ->
      exists k r, percent_k !! i = Some (Fin k) /\ percent_r !! i = Some (Fin r) /\
        0 <= k /\ r <= 0 /\
        (k == 0 <-> c_close b == L) /\ (r == 0 <-> c_close b == H))).
Proof.
  intros Hn Hb (Hlo & Hoh & Hlc & Hch). cbv zeta.
  apply lookup_lt_Some in Hb as Hi.
  unfold stochastic_oscillator, william_percent_r. cbn [fst].
  split.
  - intros Hearly. unfold sdiv, scale, ssub, rolling_max, rolling_min.
    rewrite !lookup_zip_with, !list_lookup_fmap, !lookup_zip_with.
    rewrite !rolling_early by (unfold column; rewrite ?length_map; lia).
    rewrite !(column_lookup _ data i b Hb). split; reflexivity.
  - intros Hfull.
    destruct (rolling_max_column c_high data n i b ltac:(lia) Hb) as (H & HH & HbH).
    destruct (rolling_min_column c_low data n i b ltac:(lia) Hb) as (L & HL & HbL).
    exists H, L. split; [exact HH|]. split; [exact HL|]. split; [lra|].
    unfold sdiv, scale, ssub.
    rewrite !lookup_zip_with, !list_lookup_fmap, !lookup_zip_with, HH, HL.
    rewrite !(column_lookup _ data i b Hb).
    cbn [mbind option_bind fmap option_fmap option_map fsub fmul].
    split.
    + intros E. unfold fdiv.
      rewrite (proj2 (Qeq_bool_iff (Qred (H - L)) 0)) by (rewrite Qred_correct; lra).
      rewrite (proj2 (Qeq_bool_iff (Qred (100 * Qred (c_close b - L))) 0))
        by (rewrite !Qred_correct; lra).
      rewrite (proj2 (Qeq_bool_iff (Qred (-100 * Qred (H - c_close b))) 0))
        by (rewrite !Qred_correct; lra).
      split; reflexivity.
    + intros Hlt. rewrite !fdiv_finite by (rewrite Qred_correct; lra).
      do 2 eexists. split; [reflexivity|]. split; [reflexivity|].
      rewrite !Qred_correct.
      assert (Hd : 0 < H - L) by lra.
      assert (Hk0 : 0 <= 100 * (c_close b - L) / (H - L))
        by (apply Qle_shift_div_l; lra).
      assert (Hr0 : -100 * (H - c_close b) / (H - L) <= 0)
        by (apply Qle_shift_div_r; lra).
      assert (Ek : 100 * (c_close b - L) / (H - L) * (H - L) == 100 * (c_close b - L))
        by (field; lra).
      assert (Er : -100 * (H - c_close b) / (H - L) * (H - L) == -100 * (H - c_close b))
        by (field; lra).
      split; [exact Hk0|]. split; [exact Hr0|]. split; split; intros E.
      * rewrite E in Ek. lra.
      * assert (E0 : c_close b - L == 0) by lra. rewrite E0. field. lra.
      * rewrite E in Er. lra.
      * assert (E0 : H - c_close b == 0) by lra. rewrite E0. field. lra.
Qed.

Lemma stochastic_and_williams_witness :
  fst (stochastic_oscillator (fun s _ => s) 2 3 (column c_high sample_data)
         (column c_low sample_data) (column c_close sample_data))
  = [NaN; Fin 80; Fin 40; Fin 20] /\
  william_percent_r 2 (column c_high sample_data) (column c_low sample_data)
    (column c_close sample_data)
  = [NaN; Fin (-20); Fin (-60); Fin (-80)] /\
  (exists H L,
     rolling_max 2 (column c_high sample_data) !! 1%nat = Some (Fin H) /\
     rolling_min 2 (column c_low sample_data) !! 1%nat = Some (Fin L) /\ L <= H).
Proof.
  split; [reflexivity|]. split; [reflexivity|].
  destruct (stochastic_and_williams (fun s _ => s) 2 3 sample_data 1 (sample_bar 3 6 2 5 20))
    as [_ Hfull]; [lia | reflexivity | repeat split; discriminate |].
  destruct (Hfull ltac:(lia)) as (H & L & HH & HL & Hle & _).
  exists H, L. repeat split; assumption.
Defined.

(** ** Money flow index *)

Lemma window_nonempty {A : Type} (n i : nat) (s : list A) :
  (1 <= n <= S i)%nat -> (i < length s)%nat -> window n i s <> [].
Proof.
  intros Hn Hi. destruct (lookup_lt_is_Some_2 s i Hi) as [a Ha].
  intros E. pose proof (window_last n i s a Hn Ha) as H. rewrite E in H. discriminate.
Qed.

Lemma window_sum_zero (w : list fval) :
  Forall (fun x => x = Fin 0) w -> window_sum w = Fin 0.
Proof.
  unfold window_sum. change fzero with (Fin 0).
  induction 1 as [|x w -> _ IH]; [reflexivity | exact IH].
Qed.

Lemma window_sum_positive (w : list fval) :
  w <> [] -> Forall (fun x => exists q, x = Fin q /\ 0 < q) w ->
  exists r, window_sum w = Fin r /\ 0 < r.
Proof.
  intros Hne Hw. unfold window_sum. change fzero with (Fin 0).
  assert (H : forall a, 0 <= a -> w <> [] -> exists r, foldl fadd (Fin a) w = Fin r /\ 0 < r).
  { clear Hne. induction Hw as [|x w (q & -> & Hq) Hw IH]; intros a Ha Hne; [congruence|].
    cbn. destruct w as [|y w].
    - cbn. eexists. split; [reflexivity|]. rewrite Qred_correct. lra.
    - apply IH; [rewrite Qred_correct; lra | discriminate]. }
  apply H; [apply Qle_refl | exact Hne].
Qed.

Lemma existsb_is_nan_false (w : list fval) :
  Forall (fun x => is_nan x = false) w -> existsb is_nan w = false.
Proof. induction 1 as [|x w Hx _ IH]; [reflexivity|]. cbn. now rewrite Hx. Qed.

Lemma rsi_of_over_zero (r : Q) : 0 < r -> rsi_of (fdiv (Fin r) (Fin 0)) = Fin 100.
Proof.
  intros Hr. unfold fdiv. change (Qeq_bool 0 0) with true. cbv iota.
  rewrite (Qeq_bool_false r 0) by (intros E; rewrite E in Hr; discriminate Hr).
  rewrite (proj2 (Qltb_lt 0 r)) by exact Hr. reflexivity.
Qed.

(** A bar with positive prices and positive volume. *)
Definition traded (b : candle) : Prop :=
  well_formed b /\ 0 < c_low b /\ 0 < c_volume b.

(** X15. On positive prices and volumes the raw money flow is positive at every
    bar, so the negative flow is always zero: the ratio is plus infinity and
    [money_flow_index] is 100 at every bar whose window is complete,
    whatever the prices do. *)
Theorem money_flow_index_is_100 (n : nat) (data : list candle) (i : nat) :
  Forall traded data -> (1 <= n <= S i)%nat -> (i < length data)%nat ->
  money_flow_index n (column c_high data) (column c_low data) (column c_close data)
    (column c_volume data) !! i = Some (Fin 100).
Proof.
  intros Hd Hn Hi. unfold money_flow_index.
  set (rmf := smul _ _).
  assert (Hrmf : Forall (fun x => exists q, x = Fin q /\ 0 < q) rmf).
  { subst rmf. unfold typical_price, sadd, smul, over, column. clear Hi.
    induction Hd as [|b data ((Hl & Ho & Hlc & Hch) & Hlow & Hv) _ IH]; [constructor|].
    cbn [map zip_with fadd fmul]. rewrite fdiv_finite by discriminate. cbn [fmul].
    constructor; [|exact IH].
    eexists. split; [reflexivity|]. rewrite !Qred_correct.
    apply Qmult_lt_0_compat; [apply Qlt_shift_div_l; [reflexivity|] | exact Hv].
    rewrite Qmult_0_l.
    apply Qlt_le_trans with (c_low b + c_low b + c_low b);
      [|repeat apply Qplus_le_compat; try assumption;
        apply Qle_refl || (eapply Qle_trans; eassumption)].
    rewrite <- (Qplus_0_l 0). apply Qplus_lt_le_compat; [|apply Qlt_le_weak; exact Hlow].
    rewrite <- (Qplus_0_l 0). apply Qplus_lt_le_compat; [|apply Qlt_le_weak]; exact Hlow. }
  assert (Hlen : length rmf = length data).
  { subst rmf. unfold typical_price, sadd, smul, over, column.
    rewrite length_zip_with, !length_map, !length_zip_with, !length_map. lia. }
  assert (Hp : map (fun x => if fltb x fzero then fzero else x) rmf = rmf).
  { clear -Hrmf. induction Hrmf as [|x w (q & -> & Hq) _ IH]; [reflexivity|].
    cbn [map]. rewrite IH. f_equal. unfold fzero. cbn [fltb].
    rewrite (proj2 (Qltb_ge q 0)); [reflexivity | apply Qlt_le_weak; exact Hq]. }
  assert (Hneg : Forall (fun x => x = Fin 0)
                   (map (fun x => if fgtb x fzero then fzero else x) rmf)).
  { clear -Hrmf. induction Hrmf as [|x w (q & -> & Hq) _ IH]; [constructor|].
    cbn [map]. unfold fgtb, fzero. cbn [fltb]. rewrite (proj2 (Qltb_lt 0 q)) by exact Hq.
    constructor; [reflexivity | exact IH]. }
  rewrite Hp. unfold sdiv, rolling_sum.
  rewrite list_lookup_fmap, lookup_zip_with.
  rewrite !rolling_lookup by (rewrite ?length_map; lia).
  rewrite decide_True by lia.
  assert (Hwp : Forall (fun x => exists q, x = Fin q /\ 0 < q) (window n i rmf)).
  { apply Forall_forall. intros x Hx. apply window_elem in Hx.
    rewrite Forall_forall in Hrmf. now apply Hrmf. }
  assert (Hwn : Forall (fun x => x = Fin 0)
                  (window n i (map (fun x => if fgtb x fzero then fzero else x) rmf))).
  { apply Forall_forall. intros x Hx. apply window_elem in Hx.
    rewrite Forall_forall in Hneg. now apply Hneg. }
  rewrite (existsb_is_nan_false (window n i rmf)).
  2:{ eapply Forall_impl; [exact Hwp|]. now intros x (q & -> & _). }
  rewrite (existsb_is_nan_false (window n i (map _ rmf))).
  2:{ eapply Forall_impl; [exact Hwn|]. now intros x ->. }
  destruct (window_sum_positive (window n i rmf)) as (r & -> & Hr);
    [apply window_nonempty; lia | exact Hwp |].
  rewrite (window_sum_zero _ Hwn).
  cbn [mbind option_bind fmap option_fmap option_map]. f_equal.
  destruct (decide (n <= S i)%nat) as [_|Hno]; [|lia].
  apply rsi_of_over_zero, Hr.
Qed.

Lemma money_flow_index_is_100_witness :
  money_flow_index 2 (column c_high sample_data) (column c_low sample_data)
    (column c_close sample_data) (column c_volume sample_data)
  = [NaN; Fin 100; Fin 100; Fin 100] /\
  money_flow_index 2 (column c_high sample_data) (column c_low sample_data)
    (column c_close sample_data) (column c_volume sample_data) !! 2%nat = Some (Fin 100).
Proof.
  split; [reflexivity|].
  apply (money_flow_index_is_100 2 sample_data 2); [|lia | cbn; lia].
  repeat constructor; discriminate.
Defined.

(** * Bar levels: DeMark pivot and quadrant range *)

Record demark_levels : Type := {
  dp_p : list fval;
  dp_s1 : list fval;
  dp_r1 : list fval
}.

(** One bar of [p]: the array starts at zero and takes the three masked
    assignments in the order of the source. *)
Definition demark_sum (o h l c : fval) : fval :=
  let p := fzero in
  let p := if fltb c o then fadd (fadd h (fmul (Fin 2) l)) c else p in
  let p := if fgtb c o then fadd (fadd (fmul (Fin 2) h) l) c else p in
  let p := if feqb c o then fadd (fadd h l) (fmul (Fin 2) c) else p in
  p.

Definition demark_pivot_point (open high low close : list fval) : demark_levels :=
  let p := zip_with (fun oh lc => demark_sum (fst oh) (snd oh) (fst lc) (snd lc))
                    (zip open high) (zip low close) in
  {| dp_p := over p 4;
     dp_s1 := ssub (over p 2) high;
     dp_r1 := ssub (over p 2) low |}.

Record quadrant_levels : Type := {
  qr_1 : list fval;
  qr_2 : list fval;
  qr_3 : list fval;
  qr_4 : list fval;
  qr_5 : list fval
}.

Definition quadrant_range (high low : list fval) : quadrant_levels :=
  let size := over (high_low_spread high low) 4 in
  let l1 := low in
  let l2 := sadd l1 size in
  let l3 := sadd l2 size in
  let l4 := sadd l3 size in
  let l5 := sadd l4 size in
  {| qr_1 := l1; qr_2 := l2; qr_3 := l3; qr_4 := l4; qr_5 := l5 |}.

Lemma demark_sum_cases (o h l c : Q) :
  exists x, demark_sum (Fin o) (Fin h) (Fin l) (Fin c) = Fin x /\
    ((c < o /\ x == h + 2 * l + c) \/ (o < c /\ x == 2 * h + l + c) \/
     (c == o /\ x == h + l + 2 * c)).
Proof.
  unfold demark_sum, fgtb, fzero. cbn [fltb feqb fadd fmul].
  destruct (Qeq_bool c o) eqn:Eeq.
  - apply Qeq_bool_iff in Eeq. eexists. split; [reflexivity|].
    right. right. split; [exact Eeq|]. rewrite !Qred_correct. reflexivity.
  - assert (Hne : ~ c == o).
    { intros E. apply Qeq_bool_iff in E. congruence. }
    destruct (Qltb o c) eqn:Egt.
    + apply Qltb_lt in Egt. eexists. split; [reflexivity|].
      right. left. split; [exact Egt|]. rewrite !Qred_correct. reflexivity.
    + apply Qltb_ge in Egt.
      assert (Hlt : c < o).
      { apply Qle_lt_or_eq in Egt as [Hlt|E]; [exact Hlt | contradiction]. }
      rewrite (proj2 (Qltb_lt c o) Hlt). eexists. split; [reflexivity|].
      left. split; [exact Hlt|]. rewrite !Qred_correct. reflexivity.
Qed.

(** X16. On a well-formed bar the DeMark pivot lies within the bar and between
    its support and its resistance. *)
Theorem demark_pivot_point_within_bar (data : list candle) (i : nat) (b : candle) :
  data !! i = Some b -> well_formed b ->
  let levels := demark_pivot_point (column c_open data) (column c_high data)
                  (column c_low data) (column c_close data) in
  exists p s1 r1,
    dp_p levels !! i = Some (Fin p) /\ dp_s1 levels !! i = Some (Fin s1) /\
    dp_r1 levels !! i = Some (Fin r1) /\
    c_low b <= p /\ p <= c_high b /\ s1 <= p /\ p <= r1.
Proof.
  intros Hb (Hlo & Hoh & Hlc & Hch). cbv zeta.
  unfold demark_pivot_point. cbn [dp_p dp_s1 dp_r1]. unfold over, ssub.
  rewrite !lookup_zip_with, !list_lookup_fmap, !lookup_zip_with.
  rewrite !(column_lookup _ data i b Hb).
  cbn [mbind option_bind fmap option_fmap option_map fst snd].
  destruct (demark_sum_cases (c_open b) (c_high b) (c_low b) (c_close b)) as (x & -> & Hx).
  rewrite !fdiv_finite by discriminate. cbn [fsub].
  do 3 eexists. split; [reflexivity|]. split; [reflexivity|]. split; [reflexivity|].
  rewrite !Qred_correct.
  assert (E4 : x / 4 == x * (1 # 4)) by (field; discriminate).
  assert (E2 : x / 2 == x * (1 # 2)) by (field; discriminate).
  rewrite E4, E2.
  destruct Hx as [(Hc & Ex) | [(Hc & Ex) | (Hc & Ex)]]; rewrite Ex;
    repeat split; lra.
Qed.

Lemma demark_pivot_point_within_bar_witness :
  dp_p (demark_pivot_point (column c_open sample_data) (column c_high sample_data)
          (column c_low sample_data) (column c_close sample_data))
  = [Fin (7 # 2); Fin (19 # 4); Fin (19 # 4); Fin 3] /\
  exists p s1 r1,
    dp_p (demark_pivot_point (column c_open sample_data) (column c_high sample_data)
            (column c_low sample_data) (column c_close sample_data)) !! 2%nat = Some (Fin p) /\
    dp_s1 (demark_pivot_point (column c_open sample_data) (column c_high sample_data)
            (column c_low sample_data) (column c_close sample_data)) !! 2%nat = Some (Fin s1) /\
    dp_r1 (demark_pivot_point (column c_open sample_data) (column c_high sample_data)
            (column c_low sample_data) (column c_close sample_data)) !! 2%nat = Some (Fin r1) /\
    4 <= p /\ p <= 7 /\ s1 <= p /\ p <= r1.
Proof.
  split; [reflexivity|].
  apply (demark_pivot_point_within_bar sample_data 2 (sample_bar 5 7 4 4 15));
    [reflexivity | repeat split; discriminate].
Defined.

(** X17. The five quadrant levels of a bar whose low is not above its high
    start at the low and never step down; on a bar whose high equals its
    low all five are the low. *)
Theorem quadrant_range_levels (data : list candle) (i : nat) (b : candle) :
  data !! i = Some b -> c_low b <= c_high b ->
  let levels := quadrant_range (column c_high data) (column c_low data) in
  exists l2 l3 l4 l5,
    qr_1 levels !! i = Some (Fin (c_low b)) /\ qr_2 levels !! i = Some (Fin l2) /\
    qr_3 levels !! i = Some (Fin l3) /\ qr_4 levels !! i = Some (Fin l4) /\
    qr_5 levels !! i = Some (Fin l5) /\
    c_low b <= l2 /\ l2 <= l3 /\ l3 <= l4 /\ l4 <= l5 /\
    (c_low b == c_high b ->
     l2 == c_low b /\ l3 == c_low b /\ l4 == c_low b /\ l5 == c_low b).
Proof.
  intros Hb Hlh. cbv zeta. unfold quadrant_range. cbn [qr_1 qr_2 qr_3 qr_4 qr_5].
  unfold over, sadd, high_low_spread, ssub.
  rewrite !lookup_zip_with, !list_lookup_fmap, !lookup_zip_with.
  rewrite !(column_lookup _ data i b Hb).
  cbn [mbind option_bind fmap option_fmap option_map fsub].
  rewrite !fdiv_finite by discriminate. cbn [fadd].
  do 4 eexists. split; [reflexivity|]. do 4 (split; [reflexivity|]).
  rewrite !Qred_correct.
  assert (E4 : (c_high b - c_low b) / 4 == (c_high b - c_low b) * (1 # 4))
    by (field; discriminate).
  rewrite E4. repeat split; lra.
Qed.

Lemma quadrant_range_levels_witness :
  qr_2 (quadrant_range (column c_high sample_data) (column c_low sample_data))
  = [Fin 2; Fin 3; Fin (19 # 4); Fin (11 # 4)] /\
  exists l2 l3 l4 l5,
    qr_1 (quadrant_range (column c_high sample_data) (column c_low sample_data)) !! 0%nat
      = Some (Fin 1) /\
    qr_2 (quadrant_range (column c_high sample_data) (column c_low sample_data)) !! 0%nat
      = Some (Fin l2) /\
    qr_3 (quadrant_range (column c_high sample_data) (column c_low sample_data)) !! 0%nat
      = Some (Fin l3) /\
    qr_4 (quadrant_range (column c_high sample_data) (column c_low sample_data)) !! 0%nat
      = Some (Fin l4) /\
    qr_5 (quadrant_range (column c_high sample_data) (column c_low sample_data)) !! 0%nat
      = Some (Fin l5) /\
    1 <= l2 /\ l2 <= l3 /\ l3 <= l4 /\ l4 <= l5 /\
    (1 == 5 -> l2 == 1 /\ l3 == 1 /\ l4 == 1 /\ l5 == 1).
Proof.
  split; [reflexivity|].
  apply (quadrant_range_levels sample_data 0 (sample_bar 2 5 1 3 10));
    [reflexivity | discriminate].
Defined.

(** * Price channel and Chandelier exit *)

(** X18. The channel of a bar whose window is complete encloses the bar, and
    its centre lies between the two sides; before that all three are
    undefined. *)
Theorem price_channel_encloses (n : nat) (data : list candle) (i : nat) (b : candle) :
  (1 <= n)%nat -> data !! i = Some b -> c_low b <= c_high b ->
  let '(high, low, center) := price_channel n (column c_high data) (column c_low data) in
  ((S i < n)%nat ->
   high !! i = Some NaN /\ low !! i = Some NaN /\ center !! i = Some NaN) /\
  ((n <= S i)%nat ->
   exists H L C,
     high !! i = Some (Fin H) /\ low !! i = Some (Fin L) /\ center !! i = Some (Fin C) /\
     L <= c_low b /\ c_high b <= H /\ L <= C /\ C <= H).
Proof.
  intros Hn Hb Hlh. apply lookup_lt_Some in Hb as Hi.
  unfold price_channel, over, sadd. split.
  - intros Hearly. rewrite list_lookup_fmap, lookup_zip_with.
    unfold rolling_max, rolling_min.
    rewrite !rolling_early by (unfold column; rewrite ?length_map; lia).
    repeat split; reflexivity.
  - intros Hfull.
    destruct (rolling_max_column c_high data n i b ltac:(lia) Hb) as (H & HH & HbH).
    destruct (rolling_min_column c_low data n i b ltac:(lia) Hb) as (L & HL & HbL).
    rewrite list_lookup_fmap, lookup_zip_with, HH, HL.
    cbn [mbind option_bind fmap option_fmap option_map fadd].
    rewrite fdiv_finite by discriminate.
    exists H, L. eexists. split; [reflexivity|]. split; [reflexivity|].
    split; [reflexivity|]. rewrite !Qred_correct.
    assert (E2 : (H + L) / 2 == (H + L) * (1 # 2)) by (field; discriminate).
    rewrite E2. repeat split; lra.
Qed.

Lemma price_channel_encloses_witness :
  price_channel 2 (column c_high sample_data) (column c_low sample_data)
  = ([NaN; Fin 6; Fin 7; Fin 7], [NaN; Fin 1; Fin 2; Fin 2],
     [NaN; Fin (7 # 2); Fin (9 # 2); Fin (9 # 2)]) /\
  exists H L C,
    [NaN; Fin 6; Fin 7; Fin 7] !! 3%nat = Some (Fin H) /\
    [NaN; Fin 1; Fin 2; Fin 2] !! 3%nat = Some (Fin L) /\
    [NaN; Fin (7 # 2); Fin (9 # 2); Fin (9 # 2)] !! 3%nat = Some (Fin C) /\
    L <= 2 /\ 5 <= H /\ L <= C /\ C <= H.
Proof.
  split; [reflexivity|].
  pose proof (price_channel_encloses 2 sample_data 3 (sample_bar 4 5 2 3 30)
                ltac:(lia) eq_refl ltac:(discriminate)) as H.
  apply (proj2 H). lia.
Defined.

Lemma true_range_lookup (data : list candle) (j : nat) (b0 b1 : candle) :
  data !! j = Some b0 -> data !! S j = Some b1 ->
  true_range (column c_high data) (column c_low data) !! S j
  = Some (Fin (Qred (c_high b1 - c_low b0))).
Proof.
  intros H0 H1. unfold true_range. rewrite lookup_zip_with.
  rewrite shift1_lookup_S
    by (unfold column; rewrite length_map; apply lookup_lt_Some in H1; exact H1).
  now rewrite (column_lookup _ data (S j) b1 H1), (column_lookup _ data j b0 H0).
Qed.

Lemma shift1_lookup_0 (s : list fval) :
  s <> [] -> shift1 s !! 0%nat = Some NaN.
Proof. destruct s; [congruence | reflexivity]. Qed.

Lemma true_range_first (data : list candle) :
  data <> [] -> true_range (column c_high data) (column c_low data) !! 0%nat = Some NaN.
Proof. destruct data; [congruence | reflexivity]. Qed.

Lemma true_range_length (data : list candle) :
  length (true_range (column c_high data) (column c_low data)) = length data.
Proof.
  unfold true_range, shift1, column.
  rewrite length_zip_with, length_take, !length_map. cbn [length]. rewrite length_map. lia.
Qed.

(** The average true range is a number from the third bar on, and
    undefined on the first two. *)
Lemma average_true_range_lookup (n : nat) (data : list candle) (i : nat) :
  (1 <= n)%nat -> (i < length data)%nat ->
  ((i < 2)%nat ->
   average_true_range n (column c_high data) (column c_low data) !! i = Some NaN) /\
  ((2 <= i)%nat ->
   exists a, average_true_range n (column c_high data) (column c_low data) !! i
             = Some (Fin a)).
Proof.
  intros Hn Hi. unfold average_true_range, weigh_with_previous.
  rewrite lookup_zip_with. split.
  - intros Hearly. destruct i as [|[|i]]; [| |lia].
    + rewrite shift1_lookup_0, true_range_first by (destruct data; cbn in *; [lia|discriminate]).
      reflexivity.
    + rewrite shift1_lookup_S by (rewrite true_range_length; lia).
      rewrite true_range_first by (destruct data; cbn in *; [lia|discriminate]).
      destruct (lookup_lt_is_Some_2 (true_range (column c_high data) (column c_low data)) 1)
        as [t ->]; [rewrite true_range_length; lia|].
      reflexivity.
  - intros Hlate. destruct i as [|[|j]]; [lia | lia |].
    destruct (lookup_lt_is_Some_2 data j ltac:(lia)) as [b0 H0].
    destruct (lookup_lt_is_Some_2 data (S j) ltac:(lia)) as [b1 H1].
    destruct (lookup_lt_is_Some_2 data (S (S j)) ltac:(lia)) as [b2 H2].
    rewrite shift1_lookup_S by (rewrite true_range_length; lia).
    rewrite (true_range_lookup data j b0 b1 H0 H1).
    rewrite (true_range_lookup data (S j) b1 b2 H1 H2).
    cbn [mbind option_bind fmap option_fmap option_map]. unfold of_Z, of_nat.
    cbn [fmul fadd]. rewrite fdiv_finite.
    + eexists. reflexivity.
    + pose proof (of_nat_pos n Hn) as Hpos. intros E. rewrite E in Hpos.
      discriminate Hpos.
Qed.

(** X19. Both Chandelier exits hang the same multiple of the average true
    range below a side of the price channel: the long exit below the
    highest high, the short exit below the lowest low.  So from the third
    bar on, once the window is complete, both are numbers and the short
    exit is never above the long exit; before that both are undefined. *)
Theorem chandelier_exit_ordered (n : nat) (k : Q) (data : list candle) (i : nat) (b : candle) :
  (1 <= n)%nat -> data !! i = Some b -> c_low b <= c_high b ->
  let '(long, short) := chandelier_exit n k (column c_high data) (column c_low data) in
  ((S i < n \/ i < 2)%nat -> long !! i = Some NaN /\ short !! i = Some NaN) /\
  ((n <= S i /\ 2 <= i)%nat ->
   exists l s H L,
     long !! i = Some (Fin l) /\ short !! i = Some (Fin s) /\
     rolling_max n (column c_high data) !! i = Some (Fin H) /\
     rolling_min n (column c_low data) !! i = Some (Fin L) /\
     L <= H /\ s <= l).
Proof.
  intros Hn Hb Hlh. apply lookup_lt_Some in Hb as Hi.
  unfold chandelier_exit, ssub, scale.
  rewrite !lookup_zip_with, !list_lookup_fmap.
  destruct (average_true_range_lookup n data i Hn Hi) as [Hearly Hlate].
  split.
  - intros [Hwin | Hatr].
    + unfold rolling_max, rolling_min.
      rewrite !rolling_early by (unfold column; rewrite ?length_map; lia).
      destruct (le_lt_dec 2 i) as [Hge | Hlt];
        [destruct (Hlate Hge) as [a ->] | rewrite (Hearly Hlt)]; split; reflexivity.
    + rewrite (Hearly Hatr).
      destruct (lookup_lt_is_Some_2 (rolling_max n (column c_high data)) i) as [x ->];
        [unfold rolling_max, column; rewrite rolling_length, length_map; lia|].
      destruct (lookup_lt_is_Some_2 (rolling_min n (column c_low data)) i) as [y ->];
        [unfold rolling_min, column; rewrite rolling_length, length_map; lia|].
      destruct x, y; split; reflexivity.
  - intros [Hwin Hatr]. destruct (Hlate Hatr) as [a ->].
    destruct (rolling_max_column c_high data n i b ltac:(lia) Hb) as (H & HH & HbH).
    destruct (rolling_min_column c_low data n i b ltac:(lia) Hb) as (L & HL & HbL).
    rewrite HH, HL.
    cbn [mbind option_bind fmap option_fmap option_map fmul fsub].
    do 2 eexists. exists H, L. split; [reflexivity|]. split; [reflexivity|].
    split; [reflexivity|]. split; [reflexivity|]. rewrite !Qred_correct.
    split; lra.
Qed.

Lemma chandelier_exit_ordered_witness :
  chandelier_exit 2 3 (column c_high sample_data) (column c_low sample_data)
  = ([NaN; NaN; Fin (-8); Fin (-2)], [NaN; NaN; Fin (-13); Fin (-7)]) /\
  exists l s H L,
    [NaN; NaN; Fin (-8); Fin (-2)] !! 2%nat = Some (Fin l) /\
    [NaN; NaN; Fin (-13); Fin (-7)] !! 2%nat = Some (Fin s) /\
    rolling_max 2 (column c_high sample_data) !! 2%nat = Some (Fin H) /\
    rolling_min 2 (column c_low sample_data) !! 2%nat = Some (Fin L) /\
    L <= H /\ s <= l.
Proof.
  split; [reflexivity|].
  pose proof (chandelier_exit_ordered 2 3 sample_data 2 (sample_bar 5 7 4 4 15)
                ltac:(lia) eq_refl ltac:(discriminate)) as H.
  apply (proj2 H). lia.
Defined.

(** * Gaps and on-balance volume *)

(** [target[mask] = source] for series on one index: bar by bar. *)
Definition assign_where (mask : list bool) (source target : list fval) : list fval :=
  zip_with (fun (m : bool) vt => if m then fst vt else snd vt) mask (zip source target).

(** [target[mask] = v] for a number (or [None]) [v]. *)
Definition assign_const (mask : list bool) (v : fval) (target : list fval) : list fval :=
  zip_with (fun (m : bool) t => if m then v else t) mask target.

(** [s.fillna(v)]. *)
Definition fillna (v : fval) (s : list fval) : list fval :=
  map (fun x => if is_nan x then v else x) s.

Definition gaps (open close : list fval) : list fval :=
  let o := open in
  let c := close in
  let c2o := close_to_open_range open close in
  let gap := zeros (length c) in
  let gap := assign_where (zip_with fgtb o (shift1 c)) c2o gap in
  let gap := assign_where (zip_with fltb o (shift1 c)) c2o gap in
  gap.

Definition on_balance_volume (close volume : list fval) : list fval :=
  let p_obv := volume in
  let n_obv := scale (-1) p_obv in
  let p_obv := assign_const (zip_with fltb close (shift1 close)) fzero p_obv in
  let n_obv := assign_const (zip_with fgtb close (shift1 close)) fzero n_obv in
  let p_obv := assign_const (zip_with feqb close (shift1 close)) NaN p_obv in
  let n_obv := assign_const (zip_with feqb close (shift1 close)) NaN n_obv in
  let obv := sadd p_obv n_obv in
  cumsum (ffill obv).

(** ** Facts *)

(** The series of previous values, with [p] before the first. *)
Definition previous (p : fval) (s : list fval) : list fval := take (length s) (p :: s).

Lemma shift1_previous (s : list fval) : shift1 s = previous NaN s.
Proof. reflexivity. Qed.

Lemma previous_cons (p x : fval) (s : list fval) :
  previous p (x :: s) = p :: previous x s.
Proof. reflexivity. Qed.

(** One bar of [gaps]. *)
Definition gap_bar (o pc : fval) : fval :=
  let c2o := fsub o pc in
  let g := fzero in
  let g := if fgtb o pc then c2o else g in
  if fltb o pc then c2o else g.

Lemma gaps_bars (p : fval) (data : list candle) :
  let o := column c_open data in
  let pc := previous p (column c_close data) in
  assign_where (zip_with fltb o pc) (ssub o pc)
    (assign_where (zip_with fgtb o pc) (ssub o pc) (zeros (length (column c_close data))))
  = zip_with gap_bar o pc.
Proof.
  cbv zeta. revert p. induction data as [|b data IH]; intros p; [reflexivity|].
  unfold column in *. cbn [map length]. rewrite previous_cons.
  unfold assign_where, ssub, zeros in *. cbn [zip_with replicate fst snd].
  rewrite IH. unfold gap_bar.
  destruct (fltb (Fin (c_open b)) p), (fgtb (Fin (c_open b)) p); reflexivity.
Qed.

Lemma gap_bar_fill (o : Q) (pc : fval) :
  (pc = NaN \/ exists c, pc = Fin c) ->
  gap_bar (Fin o) pc = if is_nan (fsub (Fin o) pc) then fzero else fsub (Fin o) pc.
Proof.
  intros [-> | [c ->]]; [reflexivity|].
  unfold gap_bar, fgtb. cbn [fltb fsub is_nan].
  destruct (Qltb o c) eqn:Elt; [reflexivity|].
  destruct (Qltb c o) eqn:Egt; [reflexivity|].
  apply Qltb_ge in Elt, Egt. unfold fzero. f_equal. symmetry. apply Qred_zero. lra.
Qed.

(** X20. The gap series is the close-to-open range with its undefined first bar
    set to zero: a bar that opens at the previous close has range zero
    anyway. *)
Theorem gaps_fill_close_to_open (data : list candle) :
  gaps (column c_open data) (column c_close data)
  = fillna fzero (close_to_open_range (column c_open data) (column c_close data)).
Proof.
  unfold gaps, close_to_open_range. rewrite shift1_previous.
  rewrite (gaps_bars NaN data). unfold fillna, ssub.
  assert (H : forall p, (p = NaN \/ exists c, p = Fin c) ->
            zip_with gap_bar (column c_open data) (previous p (column c_close data))
            = map (fun x => if is_nan x then fzero else x)
                (zip_with fsub (column c_open data) (previous p (column c_close data)))).
  { induction data as [|b data IH]; intros p Hp; [reflexivity|].
    unfold column in *. cbn [map]. rewrite previous_cons. cbn [zip_with map].
    rewrite (gap_bar_fill (c_open b) p Hp). f_equal. apply IH. right. eauto. }
  apply H. now left.
Qed.

(** One bar of the sum [p_obv + n_obv]. *)
Definition obv_bar (c pc v : fval) : fval :=
  let p := v in
  let n := fmul (Fin (-1)) v in
  let p := if fltb c pc then fzero else p in
  let n := if fgtb c pc then fzero else n in
  let p := if feqb c pc then NaN else p in
  let n := if feqb c pc then NaN else n in
  fadd p n.

Fixpoint obv_bars (pc : fval) (data : list candle) : list fval :=
  match data with
  | [] => []
  | b :: data' =>
      obv_bar (Fin (c_close b)) pc (Fin (c_volume b)) :: obv_bars (Fin (c_close b)) data'
  end.

Lemma on_balance_volume_bars (p : fval) (data : list candle) :
  let close := column c_close data in
  let volume := column c_volume data in
  sadd (assign_const (zip_with feqb close (previous p close)) NaN
          (assign_const (zip_with fltb close (previous p close)) fzero volume))
       (assign_const (zip_with feqb close (previous p close)) NaN
          (assign_const (zip_with fgtb close (previous p close)) fzero (scale (-1) volume)))
  = obv_bars p data.
Proof.
  cbv zeta. revert p. induction data as [|b data IH]; intros p; [reflexivity|].
  unfold column in *. cbn [map]. rewrite previous_cons.
  unfold assign_const, sadd, scale in *. cbn [zip_with map obv_bars].
  rewrite IH. reflexivity.
Qed.

(** The signed volume the code adds at each bar: [d] is the step of the bar
    before, [c0] its close. *)
Fixpoint obv_steps (c0 d : Q) (data : list candle) : list Q :=
  match data with
  | [] => []
  | b :: data' =>
      let d' := if Qltb c0 (c_close b) then Qred (c_volume b + 0)
                else if Qltb (c_close b) c0 then Qred (0 + Qred (-1 * c_volume b))
                else d in
      d' :: obv_steps (c_close b) d' data'
  end.

Lemma obv_bars_filled (c0 d : Q) (data : list candle) :
  ffill_from (Fin d) (obv_bars (Fin c0) data) = map Fin (obv_steps c0 d data).
Proof.
  revert c0 d. induction data as [|b data IH]; intros c0 d; [reflexivity|].
  cbn [obv_bars obv_steps ffill_from map].
  unfold obv_bar, fgtb, fzero. cbn [fltb feqb fmul].
  destruct (Qltb c0 (c_close b)) eqn:Eup.
  - apply Qltb_lt in Eup.
    rewrite (proj2 (Qltb_ge (c_close b) c0)) by (apply Qlt_le_weak; exact Eup).
    rewrite (Qeq_bool_false (c_close b) c0)
      by (intros E; rewrite E in Eup; exact (Qlt_irrefl _ Eup)).
    cbn [fadd is_nan]. now rewrite IH.
  - destruct (Qltb (c_close b) c0) eqn:Edn.
    + apply Qltb_lt in Edn.
      rewrite (Qeq_bool_false (c_close b) c0)
        by (intros E; rewrite E in Edn; exact (Qlt_irrefl _ Edn)).
      cbn [fadd is_nan]. now rewrite IH.
    + apply Qltb_ge in Eup, Edn.
      rewrite (proj2 (Qeq_bool_iff (c_close b) c0)) by (apply Qle_antisym; assumption).
      cbn [fadd is_nan]. now rewrite IH.
Qed.

(** How the steps go from one bar to the next. *)
Lemma obv_steps_next (c0 d : Q) (data : list candle) (j : nat) (b0 b1 : candle) (d0 : Q) :
  data !! j = Some b0 -> data !! S j = Some b1 -> obv_steps c0 d data !! j = Some d0 ->
  exists d1, obv_steps c0 d data !! S j = Some d1 /\
    (c_close b0 < c_close b1 -> d1 == c_volume b1) /\
    (c_close b1 < c_close b0 -> d1 == - c_volume b1) /\
    (c_close b1 == c_close b0 -> d1 = d0).
Proof.
  revert c0 d data. induction j as [|j IH]; intros c0 d data H0 H1 Hd.
  - destruct data as [|a [|a' data]]; try discriminate.
    injection H0 as ->. injection H1 as ->.
    cbn [obv_steps lookup list_lookup] in Hd |- *.
    injection Hd as Hd. rewrite Hd. clear Hd.
    eexists. split; [reflexivity|].
    destruct (Qltb (c_close b0) (c_close b1)) eqn:Eup.
    { apply Qltb_lt in Eup. split; [intros _; rewrite Qred_correct; ring|].
      split; intros H; exfalso.
      - exact (Qlt_irrefl _ (Qlt_trans _ _ _ Eup H)).
      - rewrite H in Eup. exact (Qlt_irrefl _ Eup). }
    apply Qltb_ge in Eup.
    destruct (Qltb (c_close b1) (c_close b0)) eqn:Edn.
    { apply Qltb_lt in Edn. split; [intros H; exfalso|split].
      - exact (Qlt_irrefl _ (Qlt_trans _ _ _ Edn H)).
      - intros _. rewrite !Qred_correct. ring.
      - intros H. exfalso. rewrite H in Edn. exact (Qlt_irrefl _ Edn). }
    apply Qltb_ge in Edn. split; [intros H; exfalso|split].
    + exact (Qlt_irrefl _ (Qlt_le_trans _ _ _ H Eup)).
    + intros H. exfalso. exact (Qlt_irrefl _ (Qlt_le_trans _ _ _ H Edn)).
    + reflexivity.
  - destruct data as [|a data]; [discriminate|].
    cbn [obv_steps lookup list_lookup] in H0, H1, Hd |- *.
    apply (IH (c_close a) _ data H0 H1). exact Hd.
Qed.

(** X21. On-balance volume is a running total of signed volumes that starts at
    zero: a bar that closes higher adds its volume, a bar that closes lower
    subtracts it, and a bar that closes unchanged repeats the step of the
    bar before (it does not add zero). *)
Theorem on_balance_volume_steps (data : list candle) :
  exists steps : list Q,
    on_balance_volume (column c_close data) (column c_volume data)
    = cumsum (map Fin steps) /\
    length steps = length data /\
    (data <> [] -> steps !! 0%nat = Some 0) /\
    (forall j b0 b1 d0,
       data !! j = Some b0 -> data !! S j = Some b1 -> steps !! j = Some d0 ->
       exists d1, steps !! S j = Some d1 /\
         (c_close b0 < c_close b1 -> d1 == c_volume b1) /\
         (c_close b1 < c_close b0 -> d1 == - c_volume b1) /\
         (c_close b1 == c_close b0 -> d1 = d0)).
Proof.
  unfold on_balance_volume. rewrite shift1_previous.
  rewrite (on_balance_volume_bars NaN data).
  destruct data as [|b data].
  - exists []. repeat split; [congruence | intros; discriminate].
  - assert (Hfirst : obv_bar (Fin (c_close b)) NaN (Fin (c_volume b)) = Fin 0).
    { unfold obv_bar, fgtb. cbn [fltb feqb fmul fadd]. f_equal. apply Qred_zero.
      rewrite Qred_correct. ring. }
    assert (Hsteps : obv_steps (c_close b) 0 (b :: data)
                     = 0 :: obv_steps (c_close b) 0 data).
    { cbn [obv_steps].
      now rewrite (proj2 (Qltb_ge (c_close b) (c_close b)) (Qle_refl _)). }
    exists (obv_steps (c_close b) 0 (b :: data)).
    split; [|split; [|split]].
    + rewrite Hsteps. cbn [obv_bars]. rewrite Hfirst. unfold ffill.
      cbn [ffill_from is_nan map]. now rewrite obv_bars_filled.
    + generalize (c_close b), 0. generalize (b :: data). clear.
      intros data. induction data as [|a data IH]; intros c d; [reflexivity|].
      cbn [obv_steps length]. now rewrite IH.
    + intros _. now rewrite Hsteps.
    + intros j b0 b1 d0. apply obv_steps_next.
Qed.

(** * Volume-weighted money flow: Chaikin money flow and the
      accumulation/distribution line *)


(** A bar with a range and a positive volume. *)
Definition ranged (b : candle) : Prop :=
  well_formed b /\ c_low b < c_high b /\ 0 < c_volume b.

(** The money flow volume of a bar is a number between minus and plus the
    bar's volume. *)
Definition within_volume (x : fval) (b : candle) : Prop :=
  exists m, x = Fin m /\ - c_volume b <= m /\ m <= c_volume b.

Lemma money_flow_volume_bars (data : list candle) :
  Forall ranged data ->
  Forall2 within_volume
    (money_flow_volume (column c_high data) (column c_low data) (column c_close data)
       (column c_volume data)) data.
Proof.
  induction 1 as [|b data ((Hlo & Hoh & Hlc & Hch) & Hr & Hv) _ IH]; [constructor|].
  unfold money_flow_volume, money_flow, smul, sdiv, ssub, column in *.
  cbn [map zip_with fsub]. rewrite fdiv_finite by (rewrite Qred_correct; lra).
  cbn [fmul]. constructor; [|exact IH].
  eexists. split; [reflexivity|]. rewrite !Qred_correct.
  set (m := (c_close b - c_low b - (c_high b - c_close b)) / (c_high b - c_low b)).
  assert (Hm : -1 <= m /\ m <= 1).
  { unfold m. split; [apply Qle_shift_div_l | apply Qle_shift_div_r]; lra. }
  destruct Hm as [Hm1 Hm2]. split; nra.
Qed.







Lemma running_within_volume (w : list fval) (bs : list candle) (a0 v0 : Q) :
  Forall2 within_volume w bs -> - v0 <= a0 -> a0 <= v0 ->
  Forall2 (fun a v => exists A V, a = Fin A /\ v = Fin V /\ - V <= A /\ A <= V)
    (cumsum_from (Fin a0) w) (cumsum_from (Fin v0) (column c_volume bs)).
Proof.
  intros Hw. revert a0 v0.
  induction Hw as [|x b w bs (m & -> & Hm1 & Hm2) _ IH]; intros a0 v0 Ha1 Ha2;
    [constructor|].
  unfold column in *. cbn [map cumsum_from is_nan fadd].
  assert (H1 : - Qred (v0 + c_volume b) <= Qred (a0 + m)) by (rewrite !Qred_correct; lra).
  assert (H2 : Qred (a0 + m) <= Qred (v0 + c_volume b)) by (rewrite !Qred_correct; lra).
  constructor; [|apply IH; assumption].
  do 2 eexists. split; [reflexivity|]. split; [reflexivity|]. split; assumption.
Qed.

(** X23. When every bar has a range and a positive volume, the
    accumulation/distribution line stays, bar by bar, between minus and plus
    the volume traded so far. *)
Theorem accumulation_distribution_within_volume (data : list candle) :
  Forall ranged data ->
  Forall2 (fun a v => exists A V, a = Fin A /\ v = Fin V /\ - V <= A /\ A <= V)
    (accumulation_distribution_line (column c_high data) (column c_low data)
       (column c_close data) (column c_volume data))
    (cumsum (column c_volume data)).
Proof.
  intros Hd. unfold accumulation_distribution_line, cumsum, fzero.
  apply running_within_volume; [apply money_flow_volume_bars, Hd | lra | lra].
Qed.

Lemma accumulation_distribution_within_volume_witness :
  accumulation_distribution_line (column c_high sample_data) (column c_low sample_data)
    (column c_close sample_data) (column c_volume sample_data)
  = [Fin 0; Fin 10; Fin (-5); Fin (-15)] /\
  Forall2 (fun a v => exists A V, a = Fin A /\ v = Fin V /\ - V <= A /\ A <= V)
    (accumulation_distribution_line (column c_high sample_data) (column c_low sample_data)
       (column c_close sample_data) (column c_volume sample_data))
    (cumsum (column c_volume sample_data)).
Proof.
  split; [reflexivity|].
  apply (accumulation_distribution_within_volume sample_data).
  repeat constructor; discriminate.
Defined.

(** * Price changes over a period *)

(** [s.shift(k)]: the values move [k] bars later (earlier when [k] is
    negative); the bars left empty are not-a-number, the length is kept. *)
Definition shift (k : Z) (s : list fval) : list fval :=
  if (0 <=? k)%Z
  then take (length s) (replicate (Z.to_nat k) NaN ++ s)
  else drop (Z.to_nat (- k)) s ++ replicate (Nat.min (Z.to_nat (- k)) (length s)) NaN.

Definition rate_of_change (n : Z) (close : list fval) : list fval :=
  sdiv (scale 100 (ssub close (shift n close))) (shift n close).

Definition price_returns (periods : Z) (close : list fval) : list fval :=
  fillna fzero (ssub close (shift periods close)).

(** [l[i]] for a Python integer: a negative position counts from the end. *)
Definition item_at {A : Type} (l : list A) (i : Z) : result A :=
  if (0 <=? i)%Z then item l (Z.to_nat i)
  else if (- Z.of_nat (length l) <=? i)%Z
       then item l (Z.to_nat (Z.of_nat (length l) + i))
       else Raise IndexError.

(** [x if x else d] for an optional integer: [None] and [0] both give [d]. *)
Definition or_else (x : option Z) (d : Z) : Z :=
  match x with
  | Some v => if (v =? 0)%Z then d else v
  | None => d
  end.

Definition price_delta (close : list fval) (start end_ : option Z) : result fval :=
  let end_ := or_else end_ (-1) in
  let start := or_else start 0 in
  ce ← item_at close end_;
  cs ← item_at close start;
  mret (fsub ce cs).

Definition total_return (close : list fval) (start end_ : option Z) : result fval :=
  let start := or_else start 0 in
  delta ← price_delta close (Some start) end_;
  cs ← item_at close start;
  mret (fdiv (fmul (Fin 100) delta) cs).

(** ** Facts *)

Lemma shift_lookup (n : nat) (s : list fval) (i : nat) :
  (i < length s)%nat ->
  shift (Z.of_nat n) s !! i = if decide (i < n)%nat then Some NaN else s !! (i - n)%nat.
Proof.
  intros Hi. unfold shift.
  rewrite (proj2 (Z.leb_le 0 (Z.of_nat n))) by lia. rewrite Nat2Z.id.
  rewrite lookup_take_lt by exact Hi.
  destruct (decide (i < n)%nat) as [Hlt | Hge].
  - rewrite lookup_app_l by (rewrite length_replicate; exact Hlt).
    now apply lookup_replicate_2.
  - rewrite lookup_app_r by (rewrite length_replicate; lia).
    now rewrite length_replicate.
Qed.

(** X24. Over positive closes the rate of change over [n] bars is undefined on
    the first [n] bars and a number above -100 afterwards. *)
Theorem rate_of_change_above_minus_100 (n : nat) (qs : list Q) (i : nat) (c : Q) :
  Forall (fun q => 0 < q) qs -> qs !! i = Some c ->
  ((i < n)%nat -> rate_of_change (Z.of_nat n) (map Fin qs) !! i = Some NaN) /\
  ((n <= i)%nat ->
   exists p r, qs !! (i - n)%nat = Some p /\
     rate_of_change (Z.of_nat n) (map Fin qs) !! i = Some (Fin r) /\
     r == 100 * (c - p) / p /\ -100 < r).
Proof.
  intros Hpos Hc. apply lookup_lt_Some in Hc as Hi.
  unfold rate_of_change, sdiv, scale, ssub.
  rewrite lookup_zip_with, list_lookup_fmap, lookup_zip_with.
  rewrite shift_lookup by (rewrite length_map; exact Hi).
  rewrite !list_lookup_fmap, Hc. split.
  - intros Hlt. rewrite decide_True by exact Hlt. reflexivity.
  - intros Hge. rewrite decide_False by lia.
    destruct (lookup_lt_is_Some_2 qs (i - n)) as [p Hp]; [lia|].
    rewrite Hp. cbn [mbind option_bind fmap option_fmap option_map fsub fmul].
    rewrite Forall_lookup in Hpos.
    pose proof (Hpos _ _ Hp) as Hp0. pose proof (Hpos _ _ Hc) as Hc0.
    rewrite fdiv_finite by lra.
    exists p. eexists. split; [reflexivity|]. split; [reflexivity|].
    rewrite !Qred_correct. split; [reflexivity|].
    apply Qlt_shift_div_l; [exact Hp0 | nra].
Qed.

Lemma rate_of_change_above_minus_100_witness :
  rate_of_change 1 (map Fin [4; 5; 2]) = [NaN; Fin 25; Fin (-60)] /\
  exists p r, [4; 5; 2] !! (2 - 1)%nat = Some p /\
    rate_of_change 1 (map Fin [4; 5; 2]) !! 2%nat = Some (Fin r) /\
    r == 100 * (2 - p) / p /\ -100 < r.
Proof.
  split; [reflexivity|].
  destruct (rate_of_change_above_minus_100 1 [4; 5; 2] 2 2) as [_ H];
    [repeat constructor | reflexivity |].
  apply H. lia.
Defined.

(** X25. Over closes that are all present, [price_returns] over [n] bars is 0
    on the first [n] bars (the filled gap) and the close minus the close
    [n] bars earlier afterwards; so it is positive exactly when the close
    has risen. *)
Theorem price_returns_steps (n : nat) (qs : list Q) (i : nat) (c : Q) :
  qs !! i = Some c ->
  length (price_returns (Z.of_nat n) (map Fin qs)) = length qs /\
  ((i < n)%nat -> price_returns (Z.of_nat n) (map Fin qs) !! i = Some (Fin 0)) /\
  ((n <= i)%nat ->
   exists p d, qs !! (i - n)%nat = Some p /\
     price_returns (Z.of_nat n) (map Fin qs) !! i = Some (Fin d) /\
     d == c - p /\ (0 < d <-> p < c)).
Proof.
  intros Hc. apply lookup_lt_Some in Hc as Hi.
  unfold price_returns, fillna, ssub. split.
  - rewrite length_map, length_zip_with, length_map. unfold shift.
    rewrite (proj2 (Z.leb_le 0 (Z.of_nat n))) by lia.
    rewrite length_take, length_app, length_replicate, !length_map. lia.
  - rewrite list_lookup_fmap, lookup_zip_with.
    rewrite shift_lookup by (rewrite length_map; exact Hi).
    rewrite !list_lookup_fmap, Hc. split.
    + intros Hlt. rewrite decide_True by exact Hlt. reflexivity.
    + intros Hge. rewrite decide_False by lia.
      destruct (lookup_lt_is_Some_2 qs (i - n)) as [p Hp]; [lia|].
      rewrite Hp. cbn [mbind option_bind fmap option_fmap option_map fsub is_nan].
      exists p. eexists. split; [reflexivity|]. split; [reflexivity|].
      rewrite Qred_correct. split; [reflexivity|]. split; intros H; lra.
Qed.

Lemma price_returns_steps_witness :
  price_returns 1 (map Fin [4; 5; 2]) = [Fin 0; Fin 1; Fin (-3)] /\
  exists p d, [4; 5; 2] !! (2 - 1)%nat = Some p /\
    price_returns 1 (map Fin [4; 5; 2]) !! 2%nat = Some (Fin d) /\
    d == 2 - p /\ (0 < d <-> p < 2).
Proof.
  split; [reflexivity|].
  destruct (price_returns_steps 1 [4; 5; 2] 2 2) as (_ & _ & H); [reflexivity|].
  apply H. lia.
Defined.

Lemma item_at_first {A : Type} (l : list A) (a : A) :
  l !! 0%nat = Some a -> item_at l 0 = Ok a.
Proof.
  intros H. unfold item_at, item. change (0 <=? 0)%Z with true. cbv iota.
  change (Z.to_nat 0) with 0%nat. now rewrite H.
Qed.

Lemma item_at_last {A : Type} (l : list A) (z : A) :
  last l = Some z -> item_at l (-1) = Ok z.
Proof.
  intros H. unfold item_at, item.
  assert (Hlen : (1 <= length l)%nat) by (destruct l; [discriminate | cbn; lia]).
  change (0 <=? -1)%Z with false. cbv iota.
  rewrite (proj2 (Z.leb_le (- Z.of_nat (length l)) (-1))) by lia.
  replace (Z.to_nat (Z.of_nat (length l) + -1)) with (pred (length l)) by lia.
  rewrite <- last_lookup. now rewrite H.
Qed.

(** X26. With no positions given, [price_delta] is the last close minus the
    first and [total_return] is 100 times that difference over the first
    close.  A position 0 counts as not given: asked for the change from bar
    0 to bar 0, both functions still answer for the whole series. *)
Theorem total_return_whole_series (close : list fval) (a z : Q) :
  close !! 0%nat = Some (Fin a) -> last close = Some (Fin z) -> ~ a == 0 ->
  exists d r,
    price_delta close None None = Ok (Fin d) /\
    total_return close None None = Ok (Fin r) /\
    d == z - a /\ r == 100 * (z - a) / a /\
    price_delta close (Some 0%Z) (Some 0%Z) = Ok (Fin d) /\
    total_return close (Some 0%Z) (Some 0%Z) = Ok (Fin r).
Proof.
  intros Ha Hz Hne.
  assert (Hd : forall s e, or_else s 0 = 0%Z -> or_else e (-1) = (-1)%Z ->
            price_delta close s e = Ok (Fin (Qred (z - a)))).
  { intros s e Hs He. unfold price_delta. rewrite Hs, He.
    rewrite (item_at_last close _ Hz), (item_at_first close _ Ha). reflexivity. }
  assert (Hr : forall s e, or_else s 0 = 0%Z -> or_else e (-1) = (-1)%Z ->
            total_return close s e = Ok (Fin (Qred (Qred (100 * Qred (z - a)) / a)))).
  { intros s e Hs He. unfold total_return. rewrite Hs.
    rewrite (Hd (Some 0%Z) e eq_refl He), (item_at_first close _ Ha).
    cbn [mbind result_bind mret result_ret fmul]. now rewrite fdiv_finite by exact Hne. }
  do 2 eexists.
  split; [apply (Hd None None); reflexivity|].
  split; [apply (Hr None None); reflexivity|].
  split; [apply Qred_correct|].
  split; [rewrite !Qred_correct; reflexivity|].
  split; [apply (Hd (Some 0%Z) (Some 0%Z)); reflexivity|].
  apply (Hr (Some 0%Z) (Some 0%Z)); reflexivity.
Qed.

Lemma total_return_whole_series_witness :
  exists d r,
    price_delta (map Fin [4; 5; 2]) None None = Ok (Fin d) /\
    total_return (map Fin [4; 5; 2]) None None = Ok (Fin r) /\
    d == 2 - 4 /\ r == 100 * (2 - 4) / 4 /\
    price_delta (map Fin [4; 5; 2]) (Some 0%Z) (Some 0%Z) = Ok (Fin d) /\
    total_return (map Fin [4; 5; 2]) (Some 0%Z) (Some 0%Z) = Ok (Fin r).
Proof.
  apply (total_return_whole_series (map Fin [4; 5; 2]) 4 2);
    [reflexivity | reflexivity | discriminate].
Defined.

(** * Drawdown episodes: when a table is returned *)

(** Timestamps that strictly increase. *)
Fixpoint increasing_from (lo : Z) (ts : list Z) : Prop :=
  match ts with
  | [] => True
  | t :: ts' => (lo < t)%Z /\ increasing_from t ts'
  end.

Definition increasing (ts : list Z) : Prop :=
  match ts with
  | [] => True
  | t :: ts' => increasing_from t ts'
  end.

(** Episodes in time order that do not overlap: each starts after [lo],
    ends no earlier than it starts, lasts [end - start] days, and the next
    one starts after it has ended. *)
Fixpoint chained (lo : Z) (eps : list episode) : Prop :=
  match eps with
  | [] => True
  | ep :: eps' =>
      (lo < ep_start ep)%Z /\ (ep_start ep <= ep_end ep)%Z /\
      ep_days ep = (ep_end ep - ep_start ep)%Z /\ chained (ep_end ep) eps'
  end.

(** A bar off its high that directly follows a bar at its high. *)
Definition falls_from_high (dd : list fval) : Prop :=
  exists i d0 d1, dd !! i = Some d0 /\ dd !! S i = Some d1 /\
    feqb d0 fzero = true /\ feqb d1 fzero = false.

(** The two masks read bar by bar: [p] is the shifted value at the bar. *)
Fixpoint starts_from (p : bool) (ts : list Z) (z : list bool) : list Z :=
  match ts, z with
  | t :: ts', b :: z' => (if negb b && p then [t] else []) ++ starts_from b ts' z'
  | _, _ => []
  end.

Fixpoint ends_from (p : bool) (ts : list Z) (z : list bool) : list Z :=
  match ts, z with
  | t :: ts', b :: z' => (if b && p then [t] else []) ++ ends_from (negb b) ts' z'
  | _, _ => []
  end.

Lemma where_true_cons (t : Z) (ts : list Z) (m : bool) (mask : list bool) :
  where_true (t :: ts) (m :: mask) = (if m then [t] else []) ++ where_true ts mask.
Proof.
  unfold where_true. cbn [zip_with]. destruct m.
  - rewrite filter_cons_True by reflexivity. reflexivity.
  - rewrite filter_cons_False by (cbn; congruence). reflexivity.
Qed.

Lemma where_true_starts (p : bool) (ts : list Z) (z : list bool) :
  where_true ts (zip_with andb (map negb z) (take (length z) (p :: z)))
  = starts_from p ts z.
Proof.
  revert p ts. induction z as [|b z IH]; intros p [|t ts]; try reflexivity.
  cbn [map length firstn zip_with starts_from]. now rewrite where_true_cons, IH.
Qed.

Lemma where_true_ends (p : bool) (ts : list Z) (z : list bool) :
  where_true ts (zip_with andb z (take (length (map negb z)) (p :: map negb z)))
  = ends_from p ts z.
Proof.
  revert p ts. induction z as [|b z IH]; intros p [|t ts]; try reflexivity.
  cbn [map length firstn zip_with ends_from]. now rewrite where_true_cons, IH.
Qed.

(** Starts and ends alternate in time: [alternate true] when a start comes
    next (the series is at its high), [alternate false] when an end does. *)
Inductive alternate : bool -> Z -> list Z -> list Z -> Prop :=
| alt_done (at_high : bool) (lo : Z) : alternate at_high lo [] []
| alt_start (lo s : Z) (ss es : list Z) :
    (lo < s)%Z -> alternate false s ss es -> alternate true lo (s :: ss) es
| alt_end (lo e : Z) (ss es : list Z) :
    (lo < e)%Z -> alternate true e ss es -> alternate false lo ss (e :: es).

Lemma alternate_weaken (b : bool) (lo lo' : Z) (ss es : list Z) :
  alternate b lo ss es -> (lo' <= lo)%Z -> alternate b lo' ss es.
Proof.
  intros H Hle. destruct H; [constructor | |]; constructor; try lia; assumption.
Qed.

Lemma scan_alternate (z : list bool) (ts : list Z) (lo : Z) (b : bool) :
  increasing_from lo ts ->
  alternate b lo (starts_from b ts z) (ends_from (negb b) ts z).
Proof.
  revert ts lo b. induction z as [|x z IH]; intros [|t ts] lo b Hts; try constructor.
  destruct Hts as [Hlo Hts]. cbn [starts_from ends_from].
  destruct b, x; cbn [negb andb app].
  - apply (alternate_weaken true t); [apply (IH ts t true Hts) | lia].
  - apply alt_start; [exact Hlo | apply (IH ts t false Hts)].
  - apply alt_end; [exact Hlo | apply (IH ts t true Hts)].
  - apply (alternate_weaken false t); [apply (IH ts t false Hts) | lia].
Qed.

(** Start-first lists: each start has its end, except perhaps the last. *)
Inductive paired : Z -> list Z -> list Z -> Prop :=
| paired_nil (lo : Z) : paired lo [] []
| paired_open (lo s : Z) : (lo < s)%Z -> paired lo [s] []
| paired_cons (lo s e : Z) (ss es : list Z) :
    (lo < s)%Z -> (s < e)%Z -> paired e ss es -> paired lo (s :: ss) (e :: es).

Lemma alternate_paired (b : bool) (lo : Z) (ss es : list Z) :
  alternate b lo ss es ->
  if b then paired lo ss es
  else (ss = [] /\ es = []) \/
       exists e es', es = e :: es' /\ (lo < e)%Z /\ paired e ss es'.
Proof.
  induction 1 as [[] lo | lo s ss es Hlo _ IH | lo e ss es Hlo _ IH].
  - constructor.
  - now left.
  - destruct IH as [[-> ->] | (e & es' & -> & He & Hp)].
    + now constructor.
    + now constructor.
  - right. exists e, es. auto.
Qed.

Lemma paired_last (lo : Z) (ss es : list Z) :
  paired lo ss es -> es <> [] ->
  exists sl el, last ss = Some sl /\ last es = Some el /\
    (((sl < el)%Z /\ length ss = length es) \/
     ((el < sl)%Z /\ length ss = S (length es))).
Proof.
  induction 1 as [lo | lo s Hlo | lo s e ss es Hlo Hse Hp IH]; intros Hne;
    [congruence | congruence |].
  inversion Hp as [lo' | lo' s' Hs' | lo' s' e' ss' es' Hs' He' Hp']; subst.
  - exists s, e. repeat split. left. split; [exact Hse | reflexivity].
  - exists s', e. repeat split. right. split; [exact Hs' | reflexivity].
  - destruct (IH ltac:(discriminate)) as (sl & el & Hsl & Hel & Hcase).
    exists sl, el. split; [exact Hsl|]. split; [exact Hel|].
    cbn [length]. destruct Hcase as [[? ?] | [? ?]]; [left | right]; split; auto.
Qed.

Lemma paired_chained (dd : series) (L lo : Z) (ss es : list Z) :
  paired lo ss es -> Forall (fun s => (s <= L)%Z) ss ->
  (length ss = length es ->
   chained lo (zip_with (fun s e =>
       {| ep_start := s; ep_end := e; ep_days := (e - s)%Z;
          ep_drawdown := series_min (slice_labels dd s e) |}) ss es)) /\
  (length ss = S (length es) ->
   chained lo (zip_with (fun s e =>
       {| ep_start := s; ep_end := e; ep_days := (e - s)%Z;
          ep_drawdown := series_min (slice_labels dd s e) |}) ss (es ++ [L]))).
Proof.
  induction 1 as [lo | lo s Hlo | lo s e ss es Hlo Hse Hp IH]; intros HL.
  - split; [constructor | discriminate].
  - apply Forall_cons in HL as [HsL _]. split; [discriminate|]. intros _.
    cbn. repeat split; assumption.
  - apply Forall_cons in HL as [_ HL]. destruct (IH HL) as [IH1 IH2].
    split; intros Hlen; cbn [length] in Hlen; cbn [app zip_with chained ep_start ep_end ep_days];
      (split; [exact Hlo|]); (split; [lia|]); (split; [reflexivity|]);
      [apply IH1 | apply IH2]; lia.
Qed.

Lemma chained_weaken (lo lo' : Z) (eps : list episode) :
  chained lo eps -> (lo' <= lo)%Z -> chained lo' eps.
Proof.
  destruct eps as [|ep eps]; [trivial|]. cbn. intros (H1 & H2 & H3 & H4) Hle.
  repeat split; try assumption. lia.
Qed.

(** The last two steps of [drawdown_info]: closing an episode that is still
    open at the end, and building the table. *)
Definition close_and_tabulate (idx : list Z) (dd : series) (start end_ : list Z)
  : result (list episode) :=
  sl ← item_last start;
  el ← item_last end_;
  end_ ← (if (el <? sl)%Z
          then t ← item_last idx; mret (end_ ++ [t])
          else mret end_);
  data_frame dd start end_.

(** What a table built from the lists [ss] and [es] holds. *)
Definition tabulates (dd : series) (ss : list Z) (eps : list episode) : Prop :=
  map ep_start eps = ss /\
  Forall (fun ep => ep_drawdown ep
                    = series_min (slice_labels dd (ep_start ep) (ep_end ep))) eps.

Lemma data_frame_tabulates (dd : series) (ss es : list Z) :
  length ss = length es ->
  tabulates dd ss (zip_with (fun s e =>
       {| ep_start := s; ep_end := e; ep_days := (e - s)%Z;
          ep_drawdown := series_min (slice_labels dd s e) |}) ss es).
Proof.
  revert es. induction ss as [|s ss IH]; intros [|e es] Hlen; try discriminate.
  - split; constructor.
  - injection Hlen as Hlen. destruct (IH es Hlen) as [Hs Hd]. split.
    + cbn [zip_with map ep_start]. now rewrite Hs.
    + constructor; [reflexivity | exact Hd].
Qed.

Lemma close_and_tabulate_paired (idx : list Z) (dd : series) (L lo : Z) (ss es : list Z) :
  paired lo ss es -> es <> [] -> last idx = Some L ->
  Forall (fun s => (s <= L)%Z) ss ->
  exists eps, close_and_tabulate idx dd ss es = Ok eps /\ eps <> [] /\ chained lo eps /\
    tabulates dd ss eps.
Proof.
  intros Hp Hne HL Hss.
  destruct (paired_last lo ss es Hp Hne) as (sl & el & Hsl & Hel & Hcase).
  destruct (paired_chained dd L lo ss es Hp Hss) as [Hc1 Hc2].
  unfold close_and_tabulate, item_last. rewrite Hsl, Hel.
  cbn [mbind result_bind].
  destruct Hcase as [[Hlt Hlen] | [Hlt Hlen]].
  - rewrite (proj2 (Z.ltb_ge el sl)) by lia. cbn [mbind result_bind mret result_ret].
    unfold data_frame. rewrite decide_True by exact Hlen.
    eexists. split; [reflexivity|]. split; [|split; [exact (Hc1 Hlen)|]].
    + destruct ss, es; try discriminate; congruence.
    + apply data_frame_tabulates, Hlen.
  - rewrite (proj2 (Z.ltb_lt el sl)) by lia. rewrite HL.
    cbn [mbind result_bind mret result_ret].
    unfold data_frame. rewrite decide_True by (rewrite length_app; cbn; lia).
    eexists. split; [reflexivity|]. split; [|split; [exact (Hc2 Hlen)|]].
    + destruct ss, es; try discriminate; congruence.
    + apply data_frame_tabulates. rewrite length_app. cbn. lia.
Qed.

Lemma drawdown_info_steps (close : series) :
  drawdown_info close
  = let z := map (fun d => feqb d fzero) (drawdown (values close)) in
    let start := starts_from false (index close) z in
    let end_ := ends_from false (index close) z in
    end_ ← (if decide (length end_ = 0%nat)
            then t ← item_last (index close); mret (end_ ++ [t])
            else mret end_);
    s0 ← item start 0;
    e0 ← item end_ 0;
    start ← (if (e0 <? s0)%Z
             then t ← item (index close) 0; mret (t :: start)
             else mret start);
    close_and_tabulate (index close) (zip (index close) (drawdown (values close)))
      start end_.
Proof.
  unfold drawdown_info, shift1_bool. cbv zeta.
  now rewrite where_true_starts, where_true_ends.
Qed.

Lemma starts_from_bounded (p : bool) (ts : list Z) (z : list bool) (lo L : Z) :
  increasing_from lo ts -> last (lo :: ts) = Some L ->
  (lo <= L)%Z /\ Forall (fun s => (s <= L)%Z) (starts_from p ts z).
Proof.
  revert p z lo. induction ts as [|t ts IH]; intros p z lo Hts HL.
  - cbn in HL. injection HL as ->. split; [lia|]. destruct z; constructor.
  - destruct Hts as [Hlo Hts]. rewrite last_cons_cons in HL.
    destruct z as [|b z]; [split; [|constructor]; destruct (IH p [] t Hts HL); lia|].
    destruct (IH b z t Hts HL) as [HtL Hall]. split; [lia|].
    cbn [starts_from]. destruct (negb b && p); cbn [app]; [constructor|]; assumption.
Qed.

Lemma starts_from_nonempty (p : bool) (ts : list Z) (z : list bool) :
  length ts = length z ->
  starts_from p ts z <> [] <->
  (p = true /\ z !! 0%nat = Some false) \/
  (exists i, z !! i = Some true /\ z !! S i = Some false).
Proof.
  revert p ts. induction z as [|b z IH]; intros p [|t ts] Hlen; try discriminate.
  - split; [intros H; now contradiction H|]. intros [[_ H] | (i & H & _)]; discriminate.
  - injection Hlen as Hlen. cbn [starts_from]. split.
    + intros Hne. destruct b, p; cbn [negb andb app] in Hne.
      * apply (IH true ts Hlen) in Hne as [[_ H] | (i & H1 & H2)].
        -- right. exists 0%nat. split; [reflexivity | exact H].
        -- right. exists (S i). split; assumption.
      * apply (IH true ts Hlen) in Hne as [[_ H] | (i & H1 & H2)].
        -- right. exists 0%nat. split; [reflexivity | exact H].
        -- right. exists (S i). split; assumption.
      * left. split; reflexivity.
      * apply (IH false ts Hlen) in Hne as [[H _] | (i & H1 & H2)]; [discriminate|].
        right. exists (S i). split; assumption.
    + intros [[-> H] | (i & H1 & H2)].
      * injection H as ->. discriminate.
      * destruct i as [|i].
        -- injection H1 as ->. cbn [negb andb app].
           apply (IH true ts Hlen). left. split; [reflexivity | exact H2].
        -- assert (Hrest : starts_from b ts z <> []).
           { apply (IH b ts Hlen). right. exists i. split; assumption. }
           destruct (negb b && p); cbn [app]; [discriminate | exact Hrest].
Qed.

Lemma last_cons_Some {A : Type} (a : A) (l : list A) : exists x, last (a :: l) = Some x.
Proof.
  revert a. induction l as [|b l IH]; intros a; [eexists; reflexivity|].
  rewrite last_cons_cons. apply IH.
Qed.

Lemma drawdown_length (l : list fval) : length (drawdown l) = length l.
Proof.
  unfold drawdown, ffill, expanding_max.
  assert (Hf : forall p s, length (ffill_from p s) = length s).
  { intros p s. revert p. induction s as [|x s IH]; intros p; cbn; [reflexivity|].
    now rewrite IH. }
  assert (He : forall m s, length (expanding_max_from m s) = length s).
  { intros m s. revert m. induction s as [|x s IH]; intros m; cbn; [reflexivity|].
    now rewrite IH. }
  rewrite length_zip_with, He, !length_map, Hf. lia.
Qed.

(** The table of a series with strictly increasing timestamps: its episodes
    are chained, and they start at the bars the start mask marks, after the
    first bar of the series when that one is off its high. *)
Lemma drawdown_info_table (close : series) :
  increasing (index close) ->
  let dd := drawdown (values close) in
  let z := map (fun d => feqb d fzero) dd in
  (falls_from_high dd ->
   exists eps lo, drawdown_info close = Ok eps /\ eps <> [] /\ chained lo eps /\
     exists ss, tabulates (zip (index close) dd) ss eps /\
       (ss = starts_from false (index close) z \/
        (z !! 0%nat = Some false /\ exists t0, index close !! 0%nat = Some t0 /\
           ss = t0 :: starts_from false (index close) z))) /\
  (~ falls_from_high dd -> drawdown_info close = Raise IndexError).
Proof.
  intros Hinc dd z. rewrite drawdown_info_steps. cbv zeta. fold dd. fold z.
  assert (Hlen : length (index close) = length z).
  { unfold z, dd, index, values.
    now rewrite !length_map, drawdown_length, length_map. }
  assert (Hfalls : falls_from_high dd <->
                   exists i, z !! i = Some true /\ z !! S i = Some false).
  { unfold falls_from_high, z. split.
    - intros (i & d0 & d1 & H0 & H1 & E0 & E1). exists i.
      rewrite !list_lookup_fmap, H0, H1. cbn. now rewrite E0, E1.
    - intros (i & H0 & H1). rewrite !list_lookup_fmap in H0, H1.
      destruct (dd !! i) as [d0|] eqn:E0; [|discriminate].
      destruct (dd !! S i) as [d1|] eqn:E1; [|discriminate].
      cbn in H0, H1. exists i, d0, d1. repeat split; congruence. }
  assert (Hstart : starts_from false (index close) z <> [] <-> falls_from_high dd).
  { rewrite Hfalls, (starts_from_nonempty false (index close) z Hlen).
    split; [intros [[H _] | H]; [discriminate | exact H] | now right]. }
  split.
  - intros Hf. apply Hstart in Hf.
    destruct (index close) as [|t0 ts] eqn:Eidx; [destruct z; contradiction|].
    destruct z as [|b z']; [contradiction|].
    cbn [starts_from ends_from] in Hf |- *.
    rewrite !andb_false_r in Hf |- *. cbn [app] in Hf |- *.
    pose proof (scan_alternate z' ts t0 b Hinc) as Halt.
    destruct (last_cons_Some t0 ts) as [L EL].
    destruct (starts_from_bounded b ts z' t0 L Hinc EL) as [Ht0L HssL].
    set (ss := starts_from b ts z') in *. set (es := ends_from (negb b) ts z') in *.
    apply alternate_paired in Halt. clearbody ss es.
    unfold item_last, item. rewrite EL. cbn [lookup list_lookup].
    destruct b; cbn [negb andb app].
    + (* the series begins at its high: a start comes first *)
      inversion Halt as [lo | lo s Hs | lo s e ss' es' Hs He Hp]; subst; [contradiction | |].
      * (* one start and no end *)
        apply Forall_cons in HssL as [HsL _].
        cbn [length app]. rewrite decide_True by reflexivity.
        cbn [mbind result_bind mret result_ret lookup list_lookup].
        rewrite (proj2 (Z.ltb_ge L s)) by lia.
        cbn [mbind result_bind mret result_ret].
        unfold close_and_tabulate, item_last. cbn [last mbind result_bind].
        rewrite (proj2 (Z.ltb_ge L s)) by lia.
        cbn [mbind result_bind mret result_ret]. unfold data_frame.
        rewrite decide_True by reflexivity.
        eexists. exists t0. split; [reflexivity|]. split; [discriminate|].
        split; [cbn; repeat split; assumption|].
        exists [s]. split; [|now left].
        split; [reflexivity | repeat constructor].
      * rewrite decide_False by discriminate.
        cbn [mbind result_bind mret result_ret lookup list_lookup].
        rewrite (proj2 (Z.ltb_ge e s)) by lia.
        cbn [mbind result_bind mret result_ret].
        destruct (close_and_tabulate_paired (t0 :: ts) (zip (t0 :: ts) dd) L t0
                    (s :: ss') (e :: es') Halt ltac:(discriminate) EL HssL)
          as (eps & Heps & Hne & Hch & Htab).
        exists eps, t0. repeat (split; [assumption|]).
        exists (s :: ss'). split; [exact Htab | now left].
    + (* the series begins in drawdown: an end comes first *)
      destruct Halt as [[-> _] | (e & es' & -> & He & Hp)]; [contradiction|].
      inversion Hp as [lo | lo s Hs | lo s e' ss' es'' Hs He' Hp']; subst;
        [contradiction | |];
        rewrite decide_False by discriminate;
        cbn [mbind result_bind mret result_ret lookup list_lookup];
        rewrite (proj2 (Z.ltb_lt e s)) by lia;
        cbn [mbind result_bind mret result_ret];
        (eassert (Hp2 : paired (t0 - 1) (t0 :: _) (e :: _))
           by (apply paired_cons; [lia | exact He | exact Hp]));
        (destruct (close_and_tabulate_paired (t0 :: ts) (zip (t0 :: ts) dd) L (t0 - 1)%Z
                     _ _ Hp2 ltac:(discriminate) EL
                     ltac:(constructor; [exact Ht0L | exact HssL]))
           as (eps & Heps & Hne & Hch & Htab));
        exists eps, (t0 - 1)%Z; repeat (split; [assumption|]);
        (eexists; split; [exact Htab|]); right; (split; [reflexivity|]);
        exists t0; split; reflexivity.
  - intros Hf.
    destruct (starts_from false (index close) z) as [|s ss] eqn:Ess.
    + destruct (decide _); [unfold item_last; destruct (last (index close)) |];
        reflexivity.
    + exfalso. apply Hf, Hstart. discriminate.
Qed.

(** X27. On a series with strictly increasing timestamps [drawdown_info] returns
    a table exactly when some bar off its high directly follows a bar at its
    high; otherwise it raises [IndexError].  The table it returns is never
    empty, and its episodes are in time order and do not overlap: each ends
    no earlier than it starts, lasts [end - start] days, and ends before the
    next one starts. *)
Theorem drawdown_info_episodes (close : series) :
  increasing (index close) ->
  (falls_from_high (drawdown (values close)) ->
   exists eps lo, drawdown_info close = Ok eps /\ eps <> [] /\ chained lo eps) /\
  (~ falls_from_high (drawdown (values close)) ->
   drawdown_info close = Raise IndexError).
Proof.
  intros Hinc. destruct (drawdown_info_table close Hinc) as [Hok Hraise].
  split; [|exact Hraise].
  intros Hf. destruct (Hok Hf) as (eps & lo & H1 & H2 & H3 & _).
  exists eps, lo. auto.
Qed.

Lemma drawdown_info_episodes_witness :
  drawdown_info [(0%Z, Fin 4); (3%Z, Fin 2); (4%Z, Fin 5); (5%Z, Fin 3)]
  = Ok [{| ep_start := 3; ep_end := 4; ep_days := 1; ep_drawdown := Fin (-1 # 2) |};
        {| ep_start := 5; ep_end := 5; ep_days := 0; ep_drawdown := Fin (-2 # 5) |}] /\
  exists eps lo,
    drawdown_info [(0%Z, Fin 4); (3%Z, Fin 2); (4%Z, Fin 5); (5%Z, Fin 3)] = Ok eps /\
    eps <> [] /\ chained lo eps.
Proof.
  split; [reflexivity|].
  apply (drawdown_info_episodes [(0%Z, Fin 4); (3%Z, Fin 2); (4%Z, Fin 5); (5%Z, Fin 3)]).
  - cbn. lia.
  - exists 0%nat, (Fin 0), (Fin (-1 # 2)). repeat split; reflexivity.
Defined.

(** ** Depth of the episodes on positive closes *)

Lemma drawdown_values_nonpositive (qs : list Q) :
  positive_closes qs ->
  Forall (fun x => exists d, x = Fin d /\ d <= 0) (drawdown (map Fin qs)).
Proof.
  intros Hpos. apply Forall_lookup. intros i x Hx.
  assert (Hi : (i < length qs)%nat).
  { apply lookup_lt_Some in Hx. now rewrite drawdown_length, length_map in Hx. }
  destruct (lookup_lt_is_Some_2 qs i Hi) as [q Hq].
  revert Hx. unfold drawdown, ffill, expanding_max.
  rewrite ffill_finite, nan_to_neginf_finite.
  destruct (expanding_max_from_spec NaN qs i q) as (h & Hl & Hqh & Hh & _);
    [now left | exact Hpos | exact Hq |].
  rewrite lookup_zip_with, list_lookup_fmap, Hq, Hl.
  cbn [mbind option_bind fmap option_fmap option_map].
  intros Hx. rewrite fdiv_finite in Hx by lra. unfold fone in Hx. cbn [fsub] in Hx.
  injection Hx as <-.
  eexists. split; [reflexivity|]. rewrite !Qred_correct.
  assert (q / h <= 1) by (apply Qle_shift_div_r; lra). lra.
Qed.

Lemma drawdown_first_zero (q0 : Q) (qs : list Q) :
  0 < q0 -> drawdown (map Fin (q0 :: qs)) !! 0%nat = Some (Fin 0).
Proof.
  intros Hq0. unfold drawdown, ffill, expanding_max.
  rewrite ffill_finite, nan_to_neginf_finite.
  cbn [map expanding_max_from zip_with lookup list_lookup]. unfold nan_max at 1.
  cbn [is_nan]. rewrite fdiv_finite by lra. unfold fone. cbn [fsub].
  do 2 f_equal. apply Qred_zero. rewrite Qred_correct. field. lra.
Qed.

Lemma starts_from_elem (p : bool) (ts : list Z) (z : list bool) (s : Z) :
  s ∈ starts_from p ts z -> exists i, ts !! i = Some s /\ z !! i = Some false.
Proof.
  revert p z. induction ts as [|t ts IH]; intros p [|b z] Hs;
    try (cbn in Hs; now apply elem_of_nil in Hs).
  cbn [starts_from] in Hs. apply elem_of_app in Hs as [Hs | Hs].
  - destruct b; cbn [negb andb] in Hs; [now apply elem_of_nil in Hs|].
    destruct p; [|now apply elem_of_nil in Hs].
    apply list_elem_of_singleton in Hs as ->. exists 0%nat. split; reflexivity.
  - destruct (IH b z Hs) as (i & H1 & H2). exists (S i). split; assumption.
Qed.

Lemma foldl_nan_min_le (l : list fval) (acc : fval) (d : Q) :
  Forall (fun x => exists q, x = Fin q) l ->
  (acc = NaN \/ exists a, acc = Fin a) ->
  (acc = Fin d \/ Fin d ∈ l) ->
  exists m, foldl nan_min acc l = Fin m /\ m <= d.
Proof.
  intros Hl. revert acc d. induction Hl as [|x l (xq & ->) _ IH]; intros acc d Hacc Hd.
  - destruct Hd as [-> | Hd]; [|now apply elem_of_nil in Hd].
    exists d. split; [reflexivity | apply Qle_refl].
  - cbn [foldl].
    assert (Hstep : exists a', nan_min acc (Fin xq) = Fin a' /\ a' <= xq /\
                      (forall a, acc = Fin a -> a' <= a)).
    { destruct Hacc as [-> | [a ->]].
      - exists xq. split; [reflexivity|]. split; [apply Qle_refl | discriminate].
      - unfold nan_min. cbn [is_nan fltb]. destruct (Qltb xq a) eqn:E.
        + apply Qltb_lt in E. exists xq. split; [reflexivity|].
          split; [apply Qle_refl|]. intros a0 Ha. injection Ha as <-. lra.
        + apply Qltb_ge in E. exists a. split; [reflexivity|].
          split; [exact E|]. intros a0 Ha. injection Ha as <-. apply Qle_refl. }
    destruct Hstep as (a' & -> & Hx & Hle).
    destruct Hd as [-> | Hd].
    + destruct (IH (Fin a') a' ltac:(right; eauto) ltac:(now left)) as (m & Hm & Hma).
      exists m. split; [exact Hm|]. pose proof (Hle d eq_refl). lra.
    + apply elem_of_cons in Hd as [Hd | Hd].
      * injection Hd as ->.
        destruct (IH (Fin a') a' ltac:(right; eauto) ltac:(now left)) as (m & Hm & Hma).
        exists m. split; [exact Hm | lra].
      * apply (IH (Fin a') d); [right; eauto | now right].
Qed.

Lemma chained_ordered (lo : Z) (eps : list episode) :
  chained lo eps -> Forall (fun ep => (ep_start ep <= ep_end ep)%Z) eps.
Proof.
  revert lo. induction eps as [|ep eps IH]; intros lo; [constructor|].
  cbn. intros (_ & H & _ & Hrest). constructor; [exact H | exact (IH _ Hrest)].
Qed.

(** X28. On positive closes with strictly increasing timestamps, whenever some
    bar off its high directly follows a bar at its high [drawdown_info]
    returns a table, and the depth of every episode in it is a negative
    number. *)
Theorem drawdown_info_depths (rows : list (Z * Q)) :
  increasing (map fst rows) -> positive_closes (map snd rows) ->
  falls_from_high (drawdown (map Fin (map snd rows))) ->
  exists eps, drawdown_info (map (fun r => (fst r, Fin (snd r))) rows) = Ok eps /\
    eps <> [] /\
    Forall (fun ep => exists d, ep_drawdown ep = Fin d /\ d < 0) eps.
Proof.
  intros Hinc Hpos Hf.
  set (close := map (fun r => (fst r, Fin (snd r))) rows).
  assert (Hidx : index close = map fst rows).
  { unfold close, index. rewrite map_map. reflexivity. }
  assert (Hval : values close = map Fin (map snd rows)).
  { unfold close, values. rewrite !map_map. reflexivity. }
  pose proof (drawdown_info_table close) as Htab. cbv zeta in Htab.
  rewrite Hidx, Hval in Htab. destruct (Htab Hinc) as [Hok _].
  destruct (Hok Hf) as (eps & lo & Heps & Hne & Hch & ss & [Hstart Hdepth] & Hss).
  exists eps. split; [exact Heps|]. split; [exact Hne|].
  set (dd := drawdown (map Fin (map snd rows))) in *.
  pose proof (drawdown_values_nonpositive _ Hpos) as Hdd. fold dd in Hdd.
  assert (Hss' : ss = starts_from false (map fst rows) (map (fun d => feqb d fzero) dd)).
  { destruct Hss as [H | (Hz & _)]; [exact H|]. exfalso.
    destruct rows as [|[t0 q0] rows].
    - destruct Hf as (i & d0 & d1 & H0 & _). destruct i; discriminate.
    - apply Forall_cons in Hpos as [Hq0 _]. cbn [fst snd map] in Hz.
      rewrite list_lookup_fmap in Hz. unfold dd in Hz. cbn [map snd] in Hz.
      change (Fin q0 :: map Fin (map snd rows)) with (map Fin (q0 :: map snd rows)) in Hz.
      rewrite (drawdown_first_zero q0 (map snd rows) Hq0) in Hz. discriminate. }
  pose proof (chained_ordered lo eps Hch) as Hord.
  rewrite Forall_forall in Hord, Hdepth. apply Forall_forall. intros ep Hep.
  rewrite (Hdepth ep Hep).
  assert (Hs : ep_start ep ∈ ss).
  { rewrite <- Hstart. apply list_elem_of_fmap. exists ep. split; [reflexivity | exact Hep]. }
  rewrite Hss' in Hs. apply starts_from_elem in Hs as (i & Hti & Hzi).
  rewrite list_lookup_fmap in Hzi.
  destruct (dd !! i) as [x|] eqn:Hx; [|discriminate]. cbn in Hzi.
  rewrite Forall_forall in Hdd.
  destruct (Hdd x (list_elem_of_lookup_2 _ _ _ Hx)) as (d & -> & Hd).
  assert (Hneg : d < 0).
  { apply Qle_lt_or_eq in Hd as [Hd | Hd]; [exact Hd|]. exfalso.
    cbn in Hzi. apply Qeq_bool_iff in Hd. congruence. }
  destruct (foldl_nan_min_le
              (slice_labels (zip (map fst rows) dd) (ep_start ep) (ep_end ep)) NaN d)
    as (m & Hm & Hmd).
  - apply Forall_forall. intros y Hy. unfold slice_labels in Hy.
    apply list_elem_of_fmap in Hy as ([t y'] & -> & Hy).
    apply list_elem_of_filter in Hy as [_ Hy]. apply elem_of_zip_r in Hy.
    destruct (Hdd y' Hy) as (q & -> & _). eauto.
  - now left.
  - right. unfold slice_labels. apply list_elem_of_fmap.
    exists (ep_start ep, Fin d). split; [reflexivity|].
    apply list_elem_of_filter. split.
    + cbn [fst]. split; [lia | exact (Hord ep Hep)].
    + apply (list_elem_of_lookup_2 _ i). rewrite lookup_zip_with, Hti, Hx. reflexivity.
  - exists m. split; [exact Hm | lra].
Qed.

Lemma drawdown_info_depths_witness :
  exists eps,
    drawdown_info (map (fun r => (fst r, Fin (snd r)))
                     [(0%Z, 4); (3%Z, 2); (4%Z, 5); (5%Z, 3)]) = Ok eps /\
    eps <> [] /\
    Forall (fun ep => exists d, ep_drawdown ep = Fin d /\ d < 0) eps.
Proof.
  apply (drawdown_info_depths [(0%Z, 4); (3%Z, 2); (4%Z, 5); (5%Z, 3)]).
  - cbn. lia.
  - repeat constructor.
  - exists 0%nat, (Fin 0), (Fin (-1 # 2)). repeat split; reflexivity.
Defined.

(** * Ultimate oscillator *)









(** * Negative volume index *)

(** [close.pct_change(periods)]: missing closes are filled forward, then
    each close is divided by the one [periods] bars before, minus one. *)
Definition returns (periods : Z) (close : list fval) : list fval :=
  let data := ffill close in
  map (fun x => fsub x fone) (sdiv data (shift periods data)).

Section NegativeVolumeIndex.

(** [compfipy.util.ema], which is not part of [asset.py]. *)
Variable ema : list fval -> nat -> list fval.

(** [negative_volume_index]: the columns ['nvi'] and ['signal']. *)
Definition negative_volume_index (n : nat) (close volume : list fval)
  : list fval * list fval :=
  let pct_change := cumsum (returns 1 close) in
  let pct_change := assign_const (zip_with fgtb volume (shift1 volume)) NaN pct_change in
  let pct_change := ffill pct_change in
  let nvi := map (fadd (Fin 1000)) pct_change in
  let nvi_signal := ema nvi n in
  (nvi, nvi_signal).

End NegativeVolumeIndex.

Lemma ffill_from_lookup_S (prev : fval) (s : list fval) (j : nat) (x y : fval) :
  s !! S j = Some x -> ffill_from prev s !! j = Some y ->
  ffill_from prev s !! S j = Some (if is_nan x then y else x).
Proof.
  revert prev j. induction s as [|a s IH]; intros prev j Hx Hy; [discriminate|].
  cbn [ffill_from] in *. destruct j as [|j].
  - cbn [lookup list_lookup] in Hx, Hy |- *. injection Hy as <-.
    destruct s as [|b s]; [discriminate|]. injection Hx as ->. reflexivity.
  - cbn [lookup list_lookup] in Hx, Hy |- *. apply (IH _ j Hx Hy).
Qed.

Lemma ffill_from_length (prev : fval) (s : list fval) :
  length (ffill_from prev s) = length s.
Proof. revert prev. induction s as [|x s IH]; intros prev; cbn; [reflexivity | now rewrite IH]. Qed.

Lemma cumsum_from_length (acc : fval) (s : list fval) :
  length (cumsum_from acc s) = length s.
Proof.
  revert acc. induction s as [|x s IH]; intros acc; cbn; [reflexivity|].
  destruct (is_nan x); cbn; now rewrite IH.
Qed.

(** The running total of the one-bar returns of positive closes is a
    number from the second bar on. *)
Lemma running_returns_finite (p acc : Q) (qs : list Q) :
  0 < p -> positive_closes qs ->
  Forall (fun x => exists r, x = Fin r)
    (cumsum_from (Fin acc)
       (map (fun x => fsub x fone)
            (zip_with fdiv (map Fin qs) (previous (Fin p) (map Fin qs))))).
Proof.
  intros Hp Hqs. revert p acc Hp.
  induction Hqs as [|q qs Hq _ IH]; intros p acc Hp; [constructor|].
  cbn [map]. rewrite previous_cons. cbn [zip_with map].
  rewrite fdiv_finite by lra. unfold fone. cbn [fsub cumsum_from is_nan fadd].
  constructor; [eauto | apply IH, Hq].
Qed.

Lemma running_returns_lookup (q0 : Q) (qs : list Q) (j : nat) :
  positive_closes (q0 :: qs) -> (j < length qs)%nat ->
  cumsum (returns 1 (map Fin (q0 :: qs))) !! 0%nat = Some NaN /\
  exists r, cumsum (returns 1 (map Fin (q0 :: qs))) !! S j = Some (Fin r).
Proof.
  intros Hpos Hj. apply Forall_cons in Hpos as [Hq0 Hqs].
  unfold returns, cumsum, ffill, sdiv. rewrite ffill_finite.
  change (shift 1 (map Fin (q0 :: qs))) with (previous NaN (map Fin (q0 :: qs))).
  cbn [map]. rewrite previous_cons. cbn [zip_with map fdiv fsub cumsum_from is_nan].
  split; [reflexivity|]. cbn [lookup list_lookup].
  pose proof (running_returns_finite q0 0 qs Hq0 Hqs) as Hfin.
  rewrite Forall_lookup in Hfin.
  destruct (lookup_lt_is_Some_2
              (cumsum_from fzero
                 (map (fun x => fsub x fone)
                      (zip_with fdiv (map Fin qs) (previous (Fin q0) (map Fin qs))))) j)
    as [x Hx].
  { rewrite cumsum_from_length, length_map, length_zip_with. unfold previous.
    rewrite length_take, !length_map. cbn [length]. rewrite length_map. lia. }
  destruct (Hfin j x Hx) as [r ->]. exists r. exact Hx.
Qed.

(** X30. The index is undefined at the first bar.  At a later bar whose volume
    rose it repeats the value of the bar before; at a bar whose volume did
    not rise it is 1000 plus the running total of all one-bar returns so
    far, those of the bars whose volume rose included. *)
Theorem negative_volume_index_steps (ema : list fval -> nat -> list fval) (n : nat)
    (data : list candle) (j : nat) (b0 b1 : candle) :
  positive_closes (map c_close data) ->
  data !! j = Some b0 -> data !! S j = Some b1 ->
  let nvi := fst (negative_volume_index ema n (column c_close data)
                    (column c_volume data)) in
  nvi !! 0%nat = Some NaN /\
  (c_volume b0 < c_volume b1 -> nvi !! S j = nvi !! j) /\
  (c_volume b1 <= c_volume b0 ->
   exists r, cumsum (returns 1 (column c_close data)) !! S j = Some (Fin r) /\
     nvi !! S j = Some (Fin (Qred (1000 + r)))).
Proof.
  intros Hpos H0 H1. cbv zeta. unfold negative_volume_index. cbn [fst].
  destruct data as [|a data]; [discriminate|].
  assert (Hcol : column c_close (a :: data) = map Fin (c_close a :: map c_close data))
    by apply column_as_map.
  rewrite Hcol. cbn [map] in Hpos.
  assert (Hj : (j < length (map c_close data))%nat).
  { apply lookup_lt_Some in H1. cbn [length] in H1. rewrite length_map. lia. }
  destruct (running_returns_lookup (c_close a) (map c_close data) j Hpos Hj)
    as [Hfirst [r Hr]].
  set (cs := cumsum (returns 1 (map Fin (c_close a :: map c_close data)))) in *.
  set (masked := assign_const _ NaN cs).
  assert (Hlen : length cs = S (length data)).
  { unfold cs, cumsum, returns, sdiv, ffill. rewrite ffill_finite.
    change (shift 1 (map Fin (c_close a :: map c_close data)))
      with (previous NaN (map Fin (c_close a :: map c_close data))).
    rewrite cumsum_from_length, length_map, length_zip_with. unfold previous.
    rewrite length_take, !length_map. cbn [length]. rewrite !length_map. cbn [length].
    rewrite length_map. lia. }
  assert (Hmask0 : masked !! 0%nat = Some NaN).
  { unfold masked, assign_const. rewrite lookup_zip_with, lookup_zip_with.
    unfold column. cbn [map shift1 length firstn lookup list_lookup].
    cbn [mbind option_bind]. rewrite Hfirst. reflexivity. }
  assert (HmaskS : masked !! S j
                   = Some (if Qltb (c_volume b0) (c_volume b1) then NaN else Fin r)).
  { unfold masked, assign_const. rewrite lookup_zip_with, lookup_zip_with.
    rewrite shift1_lookup_S
      by (unfold column; rewrite length_map; apply lookup_lt_Some in H1; exact H1).
    rewrite (column_lookup _ _ (S j) b1 H1), (column_lookup _ _ j b0 H0), Hr.
    reflexivity. }
  assert (Hfill0 : ffill masked !! 0%nat = Some NaN).
  { unfold ffill. destruct masked as [|m0 masked']; [discriminate|].
    injection Hmask0 as ->. reflexivity. }
  destruct (lookup_lt_is_Some_2 (ffill masked) j) as [y Hy].
  { unfold ffill. rewrite ffill_from_length. apply lookup_lt_Some in HmaskS. lia. }
  pose proof (ffill_from_lookup_S NaN masked j _ y HmaskS Hy) as HfillS.
  fold (ffill masked) in HfillS.
  rewrite !list_lookup_fmap, Hfill0, HfillS, Hy.
  split; [reflexivity|]. split.
  - intros Hup. rewrite (proj2 (Qltb_lt _ _) Hup). reflexivity.
  - intros Hdown. rewrite (proj2 (Qltb_ge _ _) Hdown).
    exists r. split; [exact Hr | reflexivity].
Qed.

Lemma negative_volume_index_steps_witness :
  fst (negative_volume_index (fun s _ => s) 3 (column c_close sample_data)
         (column c_volume sample_data))
  = [NaN; NaN; Fin (15007 # 15); Fin (15007 # 15)] /\
  (20 < 15 ->
   fst (negative_volume_index (fun s _ => s) 3 (column c_close sample_data)
          (column c_volume sample_data)) !! 2%nat
   = fst (negative_volume_index (fun s _ => s) 3 (column c_close sample_data)
            (column c_volume sample_data)) !! 1%nat) /\
  (15 <= 20 ->
   exists r, cumsum (returns 1 (column c_close sample_data)) !! 2%nat = Some (Fin r) /\
     fst (negative_volume_index (fun s _ => s) 3 (column c_close sample_data)
            (column c_volume sample_data)) !! 2%nat = Some (Fin (Qred (1000 + r)))).
Proof.
  split; [reflexivity|].
  destruct (negative_volume_index_steps (fun s _ => s) 3 sample_data 1
              (sample_bar 3 6 2 5 20) (sample_bar 5 7 4 4 15)) as (_ & Hup & Hdown);
    [repeat constructor | reflexivity | reflexivity |].
  split; assumption.
Defined.
